(** * matcha.js: directive scanning, template expansion and step disclosure

    A shallow embedding of the text and state core of matcha.js:
    - [Fragment]  (src/models/fragment.js): step splitting, highlight
      spans and the per-slide disclosure state machine;
    - [Component] (the component module): parameter parsing, the
      template interpreter and the definition registry;
    - [Matcha]    (src/matcha.js): the [---global] split and the
      definition phase of [parseAndBuild];
    - [Navigation] (src/matcha.js, src/models/fragment.js): [hasSteps]
      and the deck operations [goto], [next] and [prev];
    - [Disclosure] (src/models/fragment.js, src/models/layout.js): the
      canonical ordering of micro-steps, and the record of a slide
      rendered region by region;
    - [Slides]    (src/matcha.js): the split of the text into slides;
    - [Markdown]  (src/models/markdowmParse.js): [_escapeHtml] and the
      placeholder pass of [parse];
    - [Params], [Markers], [TemplateText]: parameters, directives and
      templates as a deck author writes them, used to state what the
      parsers read back.

    Conventions.
    - A JavaScript string is a [string]; every character stands for one
      UTF-16 code unit below 256.  The character classes [\s], [\w],
      [\d] and the line terminators are the restrictions of the
      ECMAScript classes to that range.
    - A JavaScript number that the code uses as a counter or an index is
      a [Z]; the code never leaves the exactly representable range on
      the inputs considered.  A number read from a text by [parseInt] is
      rounded to the nearest double.
    - A JavaScript object used as a map is a [gmap string _] holding its
      own properties.
    - Of the DOM only what decides a branch is kept: the number of step
      blocks of a slide and the number of highlight elements in each.
      CSS classes and animation frames are presentation and are left out.
    - A call that may raise returns an [outcome]; the state it leaves is
      the state at the point of the exception.
    - [_renderTemplate] calls itself on the bodies of the constructs it
      finds, to a depth the template does not bound; its embedding takes
      the depth allowed as [fuel] and returns [None] beyond it.

    The definitions come first, module by module; the properties follow,
    in the order: text primitives, directives, parameters and templates,
    the global split and the definition phase, the state machine, and
    then navigation, step and highlight texts, the template passes,
    the split into slides and escaping, the counts of the repeat
    construct, micro-step completeness, and code spans with the
    placeholder pass. *)

From Stdlib Require Import ZArith Lia Ascii String DecimalString.
From stdpp Require Import gmap strings list fin_maps.

Local Open Scope string_scope.
Local Open Scope Z_scope.

(* ===================================================================== *)
(** * JavaScript primitives *)
(* ===================================================================== *)

Module JS.

(** ** Array indexing: [a[i]] is [undefined] outside the array. *)

Definition arrayGet {A} (a : list A) (i : Z) : option A :=
  if i <? 0 then None else a !! Z.to_nat i.

(** ** The outcome of a call that may raise a [TypeError]. *)

Inductive outcome (A : Type) : Type :=
| Ret (a : A)
| Throw.
Arguments Ret {A} a.
Arguments Throw {A}.

(** ** Character classes (code units below 256) *)

Definition code (c : ascii) : N := N_of_ascii c.

Definition inRange (lo hi : N) (c : ascii) : bool :=
  ((lo <=? code c) && (code c <=? hi))%N.

(** [\d] *)
Definition isDigit (c : ascii) : bool := inRange 48 57 c.

(** [\w]: [A-Za-z0-9_] *)
Definition isWord (c : ascii) : bool :=
  isDigit c || inRange 65 90 c || inRange 97 122 c || (code c =? 95)%N.

(** [[\w-]] *)
Definition isWordHyphen (c : ascii) : bool := isWord c || (code c =? 45)%N.

(** [[\w$]] *)
Definition isWordDollar (c : ascii) : bool := isWord c || (code c =? 36)%N.

(** [\s]: TAB, LF, VT, FF, CR, SP and NBSP *)
Definition isSpace (c : ascii) : bool :=
  inRange 9 13 c || (code c =? 32)%N || (code c =? 160)%N.

(** Line terminators, the characters [.] does not match and [$] (with
    the [m] flag) stops before: LF and CR. *)
Definition isLineTerminator (c : ascii) : bool :=
  (code c =? 10)%N || (code c =? 13)%N.

(** White space that does not end a line. *)
Definition isBlank (c : ascii) : bool := isSpace c && negb (isLineTerminator c).

(** The double quote, written by its code. *)
Definition dquote : ascii := "034"%char.
Definition squote : ascii := "039"%char.

(** The line feed, as a string. *)
Definition nl : string := String "010"%char "".

(** ** Strings *)

Definition isEmpty (s : string) : bool :=
  match s with
  | "" => true
  | String _ _ => false
  end.

Definition strlen (s : string) : nat := String.length s.

(** The longest prefix of [s] whose characters satisfy [p], and the rest. *)
Fixpoint span (p : ascii -> bool) (s : string) : string * string :=
  match s with
  | "" => ("", "")
  | String c s' =>
    if p c then let '(a, b) := span p s' in (String c a, b)
    else ("", s)
  end.

Definition skipSpace (s : string) : string := snd (span isSpace s).

(** Every character of [s] satisfies [p]. *)
Fixpoint allChars (p : ascii -> bool) (s : string) : bool :=
  match s with
  | "" => true
  | String c s' => p c && allChars p s'
  end.

(** The first character of [s], if any, satisfies [p]. *)
Definition headIs (p : ascii -> bool) (s : string) : bool :=
  match s with
  | "" => false
  | String c _ => p c
  end.

(** [s] without the literal prefix [lit], if it starts with it. *)
Fixpoint stripPrefix (lit s : string) : option string :=
  match lit with
  | "" => Some s
  | String a lit' =>
    match s with
    | "" => None
    | String b s' => if Ascii.eqb a b then stripPrefix lit' s' else None
    end
  end.

Definition startsWith (lit s : string) : bool :=
  match stripPrefix lit s with
  | Some _ => true
  | None => false
  end.

(** The text before and after the first occurrence of [lit] in [s]. *)
Fixpoint findSub (lit s : string) : option (string * string) :=
  match stripPrefix lit s with
  | Some rest => Some ("", rest)
  | None =>
    match s with
    | "" => None
    | String c s' =>
      match findSub lit s' with
      | Some (b, a) => Some (String c b, a)
      | None => None
      end
    end
  end.

(** [String.prototype.trim] *)
Definition trimStart (s : string) : string := skipSpace s.
Fixpoint trimEnd (s : string) : string :=
  match s with
  | "" => ""
  | String c s' =>
    let t := trimEnd s' in
    if isEmpty t && isSpace c then "" else String c t
  end.
Definition trim (s : string) : string := trimEnd (trimStart s).

(** [String(n)] for an integer [n] *)
Definition showZ (n : Z) : string := NilZero.string_of_int (Z.to_int n).

(** ** [parseInt(s)], radix undefined: leading white space, a sign, an
    optional [0x]/[0X] selecting radix 16, then the longest run of
    digits of the radix; [None] is [NaN].  The integer read is returned
    as a Number: the double nearest to it. *)

(** The double nearest to an integer, ties going to the even
    significand.  Every integer of magnitude at most 2^53 is a double;
    above, the 53 leading bits are kept and the rest is rounded off.
    From 2^1024 on the code holds [Infinity], which is no [Z]: the
    properties that read a number put a bound on it. *)
Definition roundToDouble (n : Z) : Z :=
  let a := Z.abs n in
  if a <=? 9007199254740992 then n
  else
    let e := Z.log2 a - 52 in
    let q := Z.shiftr a e in
    let r := a - Z.shiftl q e in
    let half := Z.shiftl 1 (e - 1) in
    let q' := if (half <? r) || ((r =? half) && Z.odd q) then q + 1 else q in
    Z.sgn n * Z.shiftl q' e.

Definition digitValue (c : ascii) : option Z :=
  if isDigit c then Some (Z.of_N (code c) - 48)
  else if inRange 97 122 c then Some (Z.of_N (code c) - 87)
  else if inRange 65 90 c then Some (Z.of_N (code c) - 55)
  else None.

Fixpoint parseDigits (radix : Z) (s : string) (acc : option Z) : option Z :=
  match s with
  | "" => acc
  | String c s' =>
    match digitValue c with
    | Some d =>
      if d <? radix
      then parseDigits radix s'
             (Some (match acc with Some a => a * radix + d | None => d end))
      else acc
    | None => acc
    end
  end.

Definition splitSign (s : string) : bool * string :=
  match s with
  | String c r =>
    if Ascii.eqb c "-" then (true, r)
    else if Ascii.eqb c "+" then (false, r)
    else (false, s)
  | "" => (false, s)
  end.

Definition splitRadix (s : string) : Z * string :=
  match s with
  | String c (String x r) =>
    if Ascii.eqb c "0" && (Ascii.eqb x "x" || Ascii.eqb x "X")
    then (16, r) else (10, s)
  | _ => (10, s)
  end.

Definition parseInt (s : string) : option Z :=
  let '(neg, s2) := splitSign (trimStart s) in
  let '(radix, s3) := splitRadix s2 in
  match parseDigits radix s3 None with
  | Some v => Some (roundToDouble (if neg then - v else v))
  | None => None
  end.

(** The value of a string of decimal digits. *)
Definition decimalValue (s : string) : Z :=
  fold_left (fun acc c => acc * 10 + (Z.of_N (code c) - 48))
            (list_ascii_of_string s) 0.

(** The concatenation of a list of strings. *)
Definition concatStrings (l : list string) : string := foldr append "" l.

(** ** Regular expressions

    Each regular expression of the source is embedded as a function that
    tries the expression at the start of a string and returns the
    capture groups with the text after the match.  Where a greedy run
    can only be matched whole (the token after it excludes every
    character of the run) the run is taken with [span]; where giving
    characters back can make the rest match, the backtracking is written
    out with [greedy]. *)

(** All the ways to cut [s] in two, the longest first part first. *)
Fixpoint splits (s : string) : list (string * string) :=
  match s with
  | "" => [("", "")]
  | String c s' =>
    app (map (fun '(a, b) => (String c a, b)) (splits s')) [("", s)]
  end.

Fixpoint firstSome {A R} (f : A -> option R) (l : list A) : option R :=
  match l with
  | [] => None
  | x :: l' =>
    match f x with
    | Some r => Some r
    | None => firstSome f l'
    end
  end.

(** A greedy quantifier that matched [run] at most, followed by the
    continuation [k]: [k taken remaining] is tried with [taken] from the
    whole run down to one character ([atLeastOne]) or to none. *)
Definition greedy {R} (atLeastOne : bool) (run rest : string)
    (k : string -> string -> option R) : option R :=
  firstSome
    (fun '(a, b) =>
       if atLeastOne && isEmpty a then None else k a (b +:+ rest))
    (splits run).

(** The pieces of a global scan. *)
Inductive segment (A : Type) : Type :=
| Lit (c : ascii)
| Hit (g : A).
Arguments Lit {A} c.
Arguments Hit {A} g.

(** A global ([/g]) scan of [s] with the matcher [m]: at every position
    not inside an earlier match the expression is tried; a match of
    [len] characters is recorded and the scan resumes after it ([skip]
    counts the characters of the match still to pass).  None of the
    expressions of the source matches the empty string. *)
Fixpoint scanFrom {A} (m : string -> option (A * string)) (s : string)
    (skip : nat) : list (segment A) :=
  match s with
  | "" => []
  | String c s' =>
    match skip with
    | S k => scanFrom m s' k
    | O =>
      match m s with
      | Some (g, rest) =>
        Hit g :: scanFrom m s' (Nat.pred (strlen s - strlen rest))
      | None => Lit c :: scanFrom m s' 0
      end
    end
  end.

Definition scan {A} (m : string -> option (A * string)) (s : string)
  : list (segment A) := scanFrom m s 0.

(** The matches of a scan, in order: the [exec] loop. *)
Fixpoint hits {A} (l : list (segment A)) : list A :=
  match l with
  | [] => []
  | Lit _ :: l' => hits l'
  | Hit g :: l' => g :: hits l'
  end.

(** [s.replace(re, f)]: every match replaced by [f] of its groups. *)
Fixpoint replaceSegs {A} (f : A -> string) (l : list (segment A)) : string :=
  match l with
  | [] => ""
  | Lit c :: l' => String c (replaceSegs f l')
  | Hit g :: l' => f g +:+ replaceSegs f l'
  end.

(** The text before each match, with the match, and the text after the
    last one. *)
Fixpoint pieces {A} (l : list (segment A)) : list (string * A) * string :=
  match l with
  | [] => ([], "")
  | Lit c :: l' =>
    match pieces l' with
    | ([], tl) => ([], String c tl)
    | ((b, g) :: ps, tl) => ((String c b, g) :: ps, tl)
    end
  | Hit g :: l' =>
    let '(ps, tl) := pieces l' in (("", g) :: ps, tl)
  end.

(** [a || d] on a possibly undefined string, and on a number. *)
Definition orStr (a : option string) (d : string) : string :=
  match a with
  | Some s => if isEmpty s then d else s
  | None => d
  end.

Definition orNum (a : option Z) (d : Z) : Z :=
  match a with
  | Some n => if n =? 0 then d else n
  | None => d
  end.

(** [o[k] = v] on a plain object: the key [__proto__] reaches the
    prototype accessor and creates no own property.  In the code the
    assigned object then becomes the prototype of [o] and its
    properties are read through [o]; the map keeps the own properties
    only, and the properties stated of a store leave that key out. *)
Definition jsSet {V} (k : string) (v : V) (o : gmap string V) : gmap string V :=
  if decide (k = "__proto__") then o else <[k := v]> o.

End JS.

Import JS.

(* ===================================================================== *)
(** * Fragment: the disclosure state machine *)
(* ===================================================================== *)

Module Fragment.

(** The per-slide record kept in [this.slideStates[slideIndex]].
    [blocks] is [None] until [initSlide] has stored the step blocks of
    the slide; each block is represented by the number of
    [.matcha-highlight] elements it contains. *)
Record SlideState : Type := mkState {
  currentStep : Z;
  currentHighlight : Z;
  totalSteps : Z;
  highlightsPerStep : list Z;
  totalMicroSteps : Z;
  currentMicroStep : Z;
  blocks : option (list nat)
}.

#[global] Instance SlideState_eq_dec : EqDecision SlideState.
Proof. solve_decision. Defined.

(** [state.highlightsPerStep[i] || 0] *)
Definition highlightsAt (hs : list Z) (i : Z) : Z :=
  match arrayGet hs i with
  | Some h => h
  | None => 0
  end.

(** The record written by [parseAndRender] once the steps of a slide
    are known: [hs] is [highlightsPerStep]. *)
Definition parsedState (hs : list Z) : SlideState :=
  {| currentStep := 1;
     currentHighlight := 0;
     totalSteps := Z.of_nat (length hs);
     highlightsPerStep := hs;
     totalMicroSteps := foldr (fun h acc => 1 + h + acc) 0 hs;
     currentMicroStep := 1;
     blocks := None |}.

(** [initSlide]: [st] is [this.slideStates[slideIndex]] (if any) and
    [dom] the step blocks found in the slide element. *)
Definition initSlide (st : option SlideState) (dom : list nat) : SlideState :=
  let n := Z.of_nat (length dom) in
  let state :=
    match st with
    | Some s => s
    | None => {| currentStep := 1; currentHighlight := 0; totalSteps := n;
                 highlightsPerStep := []; totalMicroSteps := n;
                 currentMicroStep := 1; blocks := None |}
    end in
  {| currentStep := currentStep state;
     currentHighlight := currentHighlight state;
     totalSteps := n;
     highlightsPerStep :=
       match highlightsPerStep state with
       | [] => map Z.of_nat dom
       | hs => hs
       end;
     totalMicroSteps := totalMicroSteps state;
     currentMicroStep := currentMicroStep state;
     blocks := Some dom |}.

Definition resetSlide (s : SlideState) : SlideState :=
  match blocks s with
  | None => s
  | Some _ =>
    {| currentStep := 1;
       currentHighlight := 0;
       totalSteps := totalSteps s;
       highlightsPerStep := highlightsPerStep s;
       totalMicroSteps := totalMicroSteps s;
       currentMicroStep := 1;
       blocks := blocks s |}
  end.

Definition showAllSteps (s : SlideState) : SlideState :=
  match blocks s with
  | None => s
  | Some _ =>
    {| currentStep := totalSteps s;
       currentHighlight := 0;
       totalSteps := totalSteps s;
       highlightsPerStep := highlightsPerStep s;
       totalMicroSteps := totalMicroSteps s;
       currentMicroStep := totalMicroSteps s;
       blocks := blocks s |}
  end.

Definition hasNextStep (s : SlideState) : bool :=
  let highlightsInCurrentStep :=
    highlightsAt (highlightsPerStep s) (currentStep s - 1) in
  if currentHighlight s <? highlightsInCurrentStep then true
  else currentStep s <? totalSteps s.

Definition hasPrevStep (s : SlideState) : bool :=
  if 0 <? currentHighlight s then true
  else 1 <? currentStep s.

(** The three assignments the code makes to the cursor. *)
Definition setCursor (s : SlideState) (step hl micro : Z) : SlideState :=
  {| currentStep := step;
     currentHighlight := hl;
     totalSteps := totalSteps s;
     highlightsPerStep := highlightsPerStep s;
     totalMicroSteps := totalMicroSteps s;
     currentMicroStep := micro;
     blocks := blocks s |}.

(** [nextStep].  The state is mutated before the highlight element is
    looked up, so a [TypeError] from [currentBlock.querySelectorAll] on
    a missing block leaves the incremented counters behind. *)
Definition nextStep (s : SlideState) : SlideState * outcome bool :=
  match blocks s with
  | None => (s, Ret false)
  | Some bl =>
    let currentBlock := arrayGet bl (currentStep s - 1) in
    let highlightsInCurrentStep :=
      highlightsAt (highlightsPerStep s) (currentStep s - 1) in
    if currentHighlight s <? highlightsInCurrentStep then
      let s' := setCursor s (currentStep s) (currentHighlight s + 1)
                          (currentMicroStep s + 1) in
      match currentBlock with
      | None => (s', Throw)
      | Some _ => (s', Ret true)
      end
    else if totalSteps s <=? currentStep s then (s, Ret false)
    else
      match arrayGet bl (currentStep s) with
      | Some _ =>
        let s' := setCursor s (currentStep s + 1) 0 (currentMicroStep s + 1) in
        (s', Ret (hasNextStep s'))
      | None => (s, Ret (hasNextStep s))
      end
  end.

(** [_activateHighlight(slideElement, highlights[k], ...)] dereferences
    its element: with [k] outside the block's highlight list it raises. *)
Definition activate (block : option nat) (k : Z) (r : bool) : outcome bool :=
  match block with
  | None => Throw
  | Some n => if (0 <=? k) && (k <? Z.of_nat n) then Ret r else Throw
  end.

Definition prevStep (s : SlideState) : SlideState * outcome bool :=
  match blocks s with
  | None => (s, Ret false)
  | Some bl =>
    if 0 <? currentHighlight s then
      let s' := setCursor s (currentStep s) (currentHighlight s - 1)
                          (currentMicroStep s - 1) in
      if 0 <? currentHighlight s' then
        (s', activate (arrayGet bl (currentStep s' - 1))
                      (currentHighlight s' - 1) true)
      else (s', Ret true)
    else if currentStep s <=? 1 then (s, Ret false)
    else
      match arrayGet bl (currentStep s - 1) with
      | Some _ =>
        let s1 := setCursor s (currentStep s - 1) (currentHighlight s)
                            (currentMicroStep s - 1) in
        let prevHighlights :=
          highlightsAt (highlightsPerStep s1) (currentStep s1 - 1) in
        if 0 <? prevHighlights then
          let s2 := setCursor s1 (currentStep s1) prevHighlights
                              (currentMicroStep s1) in
          (s2, activate (arrayGet bl (currentStep s2 - 1))
                        (currentHighlight s2 - 1) (hasPrevStep s2))
        else (s1, Ret (hasPrevStep s1))
      | None => (s, Ret (hasPrevStep s))
      end
  end.

(** ** Step markers and highlight spans *)

Record Options : Type := {
  defaultEffect : string;
  duration : Z
}.

(** The defaults of the constructor. *)
Definition defaultOptions : Options :=
  {| defaultEffect := "fade"; duration := 500 |}.

(** The rest of the step marker after the optional effect:
    [(?:\s*,\s*duration\s*=\s*(\d+))?\s*-->].  The optional group starts
    with a comma and the closing token does not, so at most one of the
    two ways can match. *)
Definition stepTail (s : string) : option (option string * string) :=
  let s1 := skipSpace s in
  match stripPrefix "," s1 with
  | Some s2 =>
    s3 ← stripPrefix "duration" (skipSpace s2);
    s4 ← stripPrefix "=" (skipSpace s3);
    let '(d, s5) := span isDigit (skipSpace s4) in
    if isEmpty d then None
    else s6 ← stripPrefix "-->" (skipSpace s5); Some (Some d, s6)
  | None =>
    s2 ← stripPrefix "-->" s1; Some (None, s2)
  end.

(** [stepPattern]:
    [/<!--\s*step(?::\s*([\w-]+))?(?:\s*,\s*duration\s*=\s*(\d+))?\s*-->/g].
    The effect name is a run of [[\w-]] and the closing token starts
    with hyphens, so the name may have to give characters back. *)
Definition matchStep (s : string)
  : option ((option string * option string) * string) :=
  s1 ← stripPrefix "<!--" s;
  s2 ← stripPrefix "step" (skipSpace s1);
  match stripPrefix ":" s2 with
  | Some s3 =>
    let '(run, s4) := span isWordHyphen (skipSpace s3) in
    greedy true run s4
      (fun name rest =>
         '(d, r) ← stepTail rest; Some ((Some name, d), r))
  | None =>
    '(d, r) ← stepTail s2; Some ((None, d), r)
  end.

Record Step : Type := {
  content : string;
  effect : string;
  stepDuration : Z;
  nextEffect : option string;
  nextDuration : option Z
}.

Definition lastStep (steps : list Step) : option Step := last steps.

(** The body of the [exec] loop for one marker: [before] is
    [content.slice(lastIndex, match.index)] and [g] the two groups. *)
Definition onMarker (opts : Options) (steps : list Step)
    (before : string) (g : option string * option string) : list Step :=
  let steps1 :=
    if isEmpty before then steps
    else if isEmpty (trim before) then steps
    else
      app steps
      [{| content := before;
          effect :=
            match lastStep steps with
            | None => "none"
            | Some l => orStr (nextEffect l) (defaultEffect opts)
            end;
          stepDuration :=
            match lastStep steps with
            | None => 0
            | Some l => orNum (nextDuration l) (duration opts)
            end;
          nextEffect := None;
          nextDuration := None |}] in
  let ne := orStr (fst g) (defaultEffect opts) in
  let nd :=
    match snd g with
    | Some d => match parseInt d with Some n => n | None => duration opts end
    | None => duration opts
    end in
  match lastStep steps1 with
  | Some l =>
    app (removelast steps1)
    [{| content := content l; effect := effect l;
        stepDuration := stepDuration l;
        nextEffect := Some ne; nextDuration := Some nd |}]
  | None =>
    [{| content := ""; effect := "none"; stepDuration := 0;
        nextEffect := Some ne; nextDuration := Some nd |}]
  end.

(** The steps of a slide text: the loop over the markers, the text after
    the last marker, the fallback to one step, and the filter on blank
    steps ([validSteps]). *)
Definition splitSteps (opts : Options) (text : string) : list Step :=
  let '(ps, tl) := pieces (scan matchStep text) in
  let steps := fold_left (fun st '(b, g) => onMarker opts st b g) ps [] in
  let steps1 :=
    if isEmpty tl then steps
    else if isEmpty (trim tl) then steps
    else
      app steps
      [{| content := tl;
          effect := orStr (lastStep steps ≫= nextEffect) (defaultEffect opts);
          stepDuration :=
            orNum (lastStep steps ≫= nextDuration) (duration opts);
          nextEffect := None;
          nextDuration := None |}] in
  let steps2 :=
    match steps1 with
    | [] => [{| content := text; effect := "none"; stepDuration := 0;
                nextEffect := None; nextDuration := None |}]
    | _ => steps1
    end in
  filter (fun st => isEmpty (trim (content st)) = false) steps2.

(** A character other than [<], with which every directive starts. *)
Definition notLt (c : ascii) : bool := negb (code c =? 60)%N.

(** [highlightPattern]: [/<(?!\/|!--)([^<>]+)>/g] *)
Definition notAngle (c : ascii) : bool :=
  negb ((code c =? 60)%N || (code c =? 62)%N).

Definition matchHighlight (s : string) : option (string * string) :=
  s1 ← stripPrefix "<" s;
  if startsWith "/" s1 || startsWith "!--" s1 then None
  else
    let '(t, s2) := span notAngle s1 in
    if isEmpty t then None
    else s3 ← stripPrefix ">" s2; Some (t, s3).

Definition countHighlights (text : string) : Z :=
  Z.of_nat (length (hits (scan matchHighlight text))).

(** The Markdown prefix of a highlighted text:
    [/^(\s*(?:#{1,6}|>|\*|\+|-|\d+\.)\s+)([\s\S]+)$/].  The white space
    after the marker gives characters back when it reaches the end of
    the text, since the body needs one. *)
Definition isHash (c : ascii) : bool := (code c =? 35)%N.

Definition mdMarker (s : string) : option (string * string) :=
  match s with
  | "" => None
  | String c s' =>
    if isHash c then
      let '(h, r) := span isHash s in
      if (strlen h <=? 6)%nat then Some (h, r) else None
    else if (code c =? 62)%N || (code c =? 42)%N || (code c =? 43)%N
            || (code c =? 45)%N
    then Some (String c "", s')
    else
      let '(d, r) := span isDigit s in
      if isEmpty d then None
      else r' ← stripPrefix "." r; Some (d +:+ ".", r')
  end.

Definition mdPrefixMatch (t : string) : option (string * string) :=
  let '(ws0, s1) := span isSpace t in
  '(mk, s2) ← mdMarker s1;
  let '(ws1, s3) := span isSpace s2 in
  greedy true ws1 s3
    (fun taken body =>
       if isEmpty body then None else Some (ws0 +:+ mk +:+ taken, body)).

Definition q : string := String dquote "".

Definition spanOpen (index : nat) : string :=
  "<span class=" +:+ q +:+ "matcha-highlight" +:+ q
  +:+ " data-highlight-index=" +:+ q +:+ showZ (Z.of_nat index) +:+ q +:+ ">".

Definition wrapHighlight (index : nat) (t : string) : string :=
  match mdPrefixMatch t with
  | Some (prefix, body) => prefix +:+ spanOpen index +:+ body +:+ "</span>"
  | None => spanOpen index +:+ t +:+ "</span>"
  end.

(** [_parseHighlights]: the callback numbers the matches from 0. *)
Fixpoint wrapSegs (l : list (segment string)) (index : nat) : string :=
  match l with
  | [] => ""
  | Lit c :: l' => String c (wrapSegs l' index)
  | Hit t :: l' => wrapHighlight index t +:+ wrapSegs l' (S index)
  end.

Definition parseHighlights (text : string) : string :=
  wrapSegs (scan matchHighlight text) 0.

(** A fenced code block holding a step marker and a highlight span. *)
Definition fencedExample : string :=
  "```" +:+ nl +:+ "a<!-- step -->b `<x>`" +:+ nl +:+ "```".

(** One [div.matcha-step-block] of the markup returned by
    [parseAndRender], by its attributes and inner markup. *)
Record Block : Type := {
  stepNum : Z;
  visible : bool;
  blockEffect : string;
  highlights : Z;
  blockDuration : Z;
  inner : string
}.

(** [parseAndRender]: the state stored for the slide and the blocks.
    The step markers are matched on the text as it is received, the
    highlights on each step text, and only then [renderFn] is applied. *)
Definition parseAndRender (opts : Options) (renderFn : string -> string)
    (text : string) : SlideState * list Block :=
  let validSteps := splitSteps opts text in
  let hs := map (fun st => countHighlights (content st)) validSteps in
  (parsedState hs,
   imap (fun i st =>
           {| stepNum := Z.of_nat i + 1;
              visible := Nat.eqb i 0;
              blockEffect := effect st;
              highlights := countHighlights (content st);
              blockDuration := orNum (Some (stepDuration st)) (duration opts);
              inner := renderFn (parseHighlights (content st)) |})
        validSteps).

End Fragment.

(* ===================================================================== *)
(** * Component: parameters, templates and the definition registry *)
(* ===================================================================== *)

Module Component.

(** ** [_parseParams] *)

Definition notDquote (c : ascii) : bool := negb (Ascii.eqb c dquote).
Definition notSquote (c : ascii) : bool := negb (Ascii.eqb c squote).
Definition notCommaSpace (c : ascii) : bool :=
  negb ((code c =? 44)%N || isSpace c).

(** A value quoted with [quote]: the text up to the next [quote]. *)
Definition quoted (quote : ascii) (s : string) : option (string * string) :=
  s1 ← stripPrefix (String quote "") s;
  let '(v, s2) := span (fun c => negb (Ascii.eqb c quote)) s1 in
  s3 ← stripPrefix (String quote "") s2;
  Some (v, s3).

(** The three alternatives of a value, in order: a text in double
    quotes, a text in single quotes, and [([^,\s]+)]. *)
Definition paramValue (s : string) : option (string * string) :=
  match quoted dquote s with
  | Some r => Some r
  | None =>
    match quoted squote s with
    | Some r => Some r
    | None =>
      let '(v, s1) := span notCommaSpace s in
      if isEmpty v then None else Some (v, s1)
    end
  end.

(** The expression of [_parseParams]: a key [([\w-]+)], then [\s*=\s*],
    then one of the three alternatives of a value.  Every run is taken
    whole: what follows the key is white space or [=], what
    follows the white space is [=] or the start of a value, and none of
    these is a character of the run before it. *)
Definition matchParam (s : string) : option ((string * string) * string) :=
  let '(key, s1) := span isWordHyphen s in
  if isEmpty key then None
  else
    s2 ← stripPrefix "=" (skipSpace s1);
    '(v, s3) ← paramValue (skipSpace s2);
    Some ((key, v), s3).

Definition parseParams (paramStr : string) : gmap string string :=
  fold_left (fun params '(key, v) => jsSet key v params)
            (hits (scan matchParam paramStr)) ∅.

(** ** Values of template variables: numbers (the built-in and loop
    variables) and strings (parsed parameters). *)

Inductive value : Type :=
| VNum (n : Z)
| VStr (s : string).

#[global] Instance value_eq_dec : EqDecision value.
Proof. solve_decision. Defined.

(** [String(v)] *)
Definition toString (v : value) : string :=
  match v with
  | VNum n => showZ n
  | VStr s => s
  end.

(** The test of [_processIf]: [Boolean(v)], and [v] is none of the
    strings [0], [false] and the empty string. *)
Definition truthy (v : value) : bool :=
  match v with
  | VNum n => negb (n =? 0)
  | VStr s =>
    negb (isEmpty s) && negb (String.eqb s "0") && negb (String.eqb s "false")
  end.

(** ** The matchers of the template constructs *)

(** [/\{\{#repeat\s+(\d+|[\w$]+)\}\}([\s\S]*?)\{\{\/repeat\}\}/g].  Both
    alternatives of the count are followed by [}}], so the count is the
    whole run of [[\w$]]; the body ends at the first closing tag. *)
Definition matchRepeat (s : string) : option ((string * string) * string) :=
  s1 ← stripPrefix "{{#repeat" s;
  let '(ws, s2) := span isSpace s1 in
  if isEmpty ws then None
  else
    let '(countExpr, s3) := span isWordDollar s2 in
    if isEmpty countExpr then None
    else
      s4 ← stripPrefix "}}" s3;
      '(body, s5) ← findSub "{{/repeat}}" s4;
      Some ((countExpr, body), s5).

(** [(.+?)] followed by the literal [lit]: the shortest non-empty text
    without line terminator that [lit] follows. *)
Fixpoint lazyDotUntil (lit s : string) : option (string * string) :=
  match s with
  | "" => None
  | String c s' =>
    if isLineTerminator c then None
    else
      match stripPrefix lit s' with
      | Some r => Some (String c "", r)
      | None =>
        match lazyDotUntil lit s' with
        | Some (v, r) => Some (String c v, r)
        | None => None
        end
      end
  end.

(** [/\{\{#eq\s+([\w$]+)\s+(.+?)\}\}([\s\S]*?)\{\{\/eq\}\}/g] and the
    same with [neq]: [tag] is [eq] or [neq].  The white space before the
    value may give characters back to the value. *)
Definition matchCompare (tag : string) (s : string)
  : option ((string * string * string) * string) :=
  s1 ← stripPrefix ("{{#" +:+ tag) s;
  let '(ws1, s2) := span isSpace s1 in
  if isEmpty ws1 then None
  else
    let '(varName, s3) := span isWordDollar s2 in
    if isEmpty varName then None
    else
      let '(ws2, s4) := span isSpace s3 in
      greedy true ws2 s4
        (fun _ rest =>
           '(v, r1) ← lazyDotUntil "}}" rest;
           '(body, r2) ← findSub ("{{/" +:+ tag +:+ "}}") r1;
           Some ((varName, v, body), r2)).

(** The body of an [if]:
    [([\s\S]*?)(?:\{\{#else\}\}([\s\S]*?))?\{\{\/if\}\}]. *)
Fixpoint ifBody (s : string) : option ((string * option string) * string) :=
  match stripPrefix "{{#else}}" s ≫= findSub "{{/if}}" with
  | Some (f, r) => Some (("", Some f), r)
  | None =>
    match stripPrefix "{{/if}}" s with
    | Some r => Some (("", None), r)
    | None =>
      match s with
      | "" => None
      | String c s' =>
        match ifBody s' with
        | Some ((t, f), r) => Some ((String c t, f), r)
        | None => None
        end
      end
    end
  end.

(** [/\{\{#if\s+([\w$]+)\}\}([\s\S]*?)(?:\{\{#else\}\}([\s\S]*?))?\{\{\/if\}\}/g] *)
Definition matchIf (s : string)
  : option ((string * string * option string) * string) :=
  s1 ← stripPrefix "{{#if" s;
  let '(ws, s2) := span isSpace s1 in
  if isEmpty ws then None
  else
    let '(cond, s3) := span isWordDollar s2 in
    if isEmpty cond then None
    else
      s4 ← stripPrefix "}}" s3;
      '((t, f), s5) ← ifBody s4;
      Some ((cond, t, f), s5).

(** [/\{\{#gt\s+([\w$]+)\s+(\d+)\}\}([\s\S]*?)\{\{\/gt\}\}/g] and the same
    with [lt]. *)
Definition matchOrder (tag : string) (s : string)
  : option ((string * string * string) * string) :=
  s1 ← stripPrefix ("{{#" +:+ tag) s;
  let '(ws1, s2) := span isSpace s1 in
  if isEmpty ws1 then None
  else
    let '(varName, s3) := span isWordDollar s2 in
    if isEmpty varName then None
    else
      let '(ws2, s4) := span isSpace s3 in
      if isEmpty ws2 then None
      else
        let '(digits, s5) := span isDigit s4 in
        if isEmpty digits then None
        else
          s6 ← stripPrefix "}}" s5;
          '(body, s7) ← findSub ("{{/" +:+ tag +:+ "}}") s6;
          Some ((varName, digits, body), s7).

(** [varPattern]: [/\{\{(\$?[\w-]+)\}\}/g] *)
Definition matchVar (s : string) : option (string * string) :=
  s1 ← stripPrefix "{{" s;
  let '(dollar, s2) :=
    match stripPrefix "$" s1 with
    | Some r => ("$", r)
    | None => ("", s1)
    end in
  let '(name, s3) := span isWordHyphen s2 in
  if isEmpty name then None
  else s4 ← stripPrefix "}}" s3; Some (dollar +:+ name, s4).

(** The literal of a comparison, [value.trim()] with one quote
    character removed at its start and one at its end. *)
Definition isQuote (c : ascii) : bool := Ascii.eqb c dquote || Ascii.eqb c squote.

Definition dropFirstQuote (s : string) : string :=
  match s with
  | String c r => if isQuote c then r else s
  | "" => ""
  end.

Definition stripQuotes (s : string) : string :=
  match s with
  | String c r =>
    if isQuote c then String.rev (dropFirstQuote (String.rev r))
    else String.rev (dropFirstQuote (String.rev s))
  | "" => ""
  end.

(** [s.replace(re, f)] with a callback that may fail. *)
Fixpoint replaceM {A} (f : A -> option string) (l : list (segment A))
  : option string :=
  match l with
  | [] => Some ""
  | Lit c :: l' => r ← replaceM f l'; Some (String c r)
  | Hit g :: l' => a ← f g; r ← replaceM f l'; Some (a +:+ r)
  end.

(** The context of iteration [i] of a repeat:
    [{ ...vars, $i: i + 1, $i0: i }]. *)
Definition loopVars (vars : gmap string value) (i : Z) : gmap string value :=
  <["$i0" := VNum i]> (<["$i" := VNum (i + 1)]> vars).

Section Interpreter.

(** The order of [Number(s)] against an integer, [None] when [Number(s)]
    is [NaN].  The conversion of a string to an IEEE double is not
    modelled; the interpreter is defined for any such function. *)
Variable compareString : string -> Z -> option comparison.

(** [render] is [_renderTemplate], called back on the bodies. *)
Variable render : string -> gmap string value -> option string.

(** The loop of [_processRepeat]: iteration [i] of [n] remaining. *)
Fixpoint repeatLoop (body : string) (vars : gmap string value)
    (n : nat) (i : Z) : option string :=
  match n with
  | O => Some ""
  | S n' =>
    r ← render body (loopVars vars i);
    rs ← repeatLoop body vars n' (i + 1);
    Some (r +:+ rs)
  end.

(** The count of a repeat: [parseInt(countExpr)], and if that is [NaN]
    and the context has the name, [parseInt(vars[countExpr])]. *)
Definition repeatCount (countExpr : string) (vars : gmap string value)
  : option Z :=
  match parseInt countExpr with
  | Some n => Some n
  | None => vars !! countExpr ≫= (fun v => parseInt (toString v))
  end.

Definition processRepeat (template : string) (vars : gmap string value)
  : option string :=
  replaceM
    (fun '(countExpr, body) =>
       match repeatCount countExpr vars with
       | None => Some ""
       | Some count =>
         if count <=? 0 then Some ""
         else repeatLoop body vars (Z.to_nat count) 0
       end)
    (scan matchRepeat template).

Definition actualValue (vars : gmap string value) (varName : string) : string :=
  match vars !! varName with
  | Some v => toString v
  | None => ""
  end.

Definition processEq (template : string) (vars : gmap string value)
  : option string :=
  replaceM
    (fun '(varName, v, body) =>
       if String.eqb (actualValue vars varName) (stripQuotes (trim v))
       then render body vars else Some "")
    (scan (matchCompare "eq") template).

Definition processNeq (template : string) (vars : gmap string value)
  : option string :=
  replaceM
    (fun '(varName, v, body) =>
       if negb (String.eqb (actualValue vars varName) (stripQuotes (trim v)))
       then render body vars else Some "")
    (scan (matchCompare "neq") template).

Definition processIf (template : string) (vars : gmap string value)
  : option string :=
  replaceM
    (fun '(cond, trueContent, falseContent) =>
       let condition :=
         match vars !! cond with
         | Some v => truthy v
         | None => false
         end in
       if condition then render trueContent vars
       else render (match falseContent with Some f => f | None => "" end) vars)
    (scan matchIf template).

(** [Number(vars[varName])] (or 0) against [Number(value)]. *)
Definition compareVar (vars : gmap string value) (varName digits : string)
  : option comparison :=
  let n := match parseDigits 10 digits None with Some n => n | None => 0 end in
  match vars !! varName with
  | None => Some (0 ?= n)
  | Some (VNum a) => Some (a ?= n)
  | Some (VStr s) => compareString s n
  end.

Definition processGt (template : string) (vars : gmap string value)
  : option string :=
  replaceM
    (fun '(varName, digits, body) =>
       match compareVar vars varName digits with
       | Some Gt => render body vars
       | _ => Some ""
       end)
    (scan (matchOrder "gt") template).

Definition processLt (template : string) (vars : gmap string value)
  : option string :=
  replaceM
    (fun '(varName, digits, body) =>
       match compareVar vars varName digits with
       | Some Lt => render body vars
       | _ => Some ""
       end)
    (scan (matchOrder "lt") template).

(** The last pass: [{{name}}] replaced by the value of an own property
    of the context, and left as it is otherwise. *)
Definition substituteVars (template : string) (vars : gmap string value)
  : string :=
  replaceSegs
    (fun varName =>
       match vars !! varName with
       | Some v => toString v
       | None => "{{" +:+ varName +:+ "}}"
       end)
    (scan matchVar template).

(** The seven passes of [_renderTemplate], in order. *)
Definition renderPasses (template : string) (vars : gmap string value)
  : option string :=
  r1 ← processRepeat template vars;
  r2 ← processEq r1 vars;
  r3 ← processNeq r2 vars;
  r4 ← processIf r3 vars;
  r5 ← processGt r4 vars;
  r6 ← processLt r5 vars;
  Some (substituteVars r6 vars).

End Interpreter.

(** [_renderTemplate].  The recursion on the bodies is not bounded by
    the template (a variable may hold a construct that a later pass
    opens), so the depth of the calls is bounded by [fuel]; [None] is a
    call stack that exceeds it. *)
Fixpoint renderTemplate (compareString : string -> Z -> option comparison)
    (fuel : nat) (template : string) (vars : gmap string value)
  : option string :=
  match fuel with
  | O => None
  | S n => renderPasses compareString (renderTemplate compareString n)
                        template vars
  end.

(** ** The definition registry *)

Record ComponentDef : Type := {
  name : string;
  template : string;
  position : string;
  usageCount : Z
}.

#[global] Instance ComponentDef_eq_dec : EqDecision ComponentDef.
Proof. solve_decision. Defined.

Definition defaultPosition : string := "bottom-right".

(** The closing marker [<!--\s*enddefine\s*-->]. *)
Definition matchEndDefine (s : string) : option string :=
  s1 ← stripPrefix "<!--" s;
  s2 ← stripPrefix "enddefine" (skipSpace s1);
  stripPrefix "-->" (skipSpace s2).

(** The lazy body of a definition, up to the first closing marker. *)
Fixpoint findEndDefine (s : string) : option (string * string) :=
  match matchEndDefine s with
  | Some r => Some ("", r)
  | None =>
    match s with
    | "" => None
    | String c s' =>
      match findEndDefine s' with
      | Some (b, r) => Some (String c b, r)
      | None => None
      end
    end
  end.

(** The parameters of a definition, [(.+?)] before [\s*-->]: the
    shortest non-empty text without line terminator that the end of the
    opening marker follows. *)
Fixpoint lazyParams (s : string) : option (string * string) :=
  match s with
  | "" => None
  | String c s' =>
    if isLineTerminator c then None
    else
      match stripPrefix "-->" (skipSpace s') with
      | Some r => Some (String c "", r)
      | None =>
        match lazyParams s' with
        | Some (v, r) => Some (String c v, r)
        | None => None
        end
      end
  end.

(** [definePattern]:
    [/<!--\s*define:\s*([\w-]+)(?:\s*,\s*(.+?))?\s*-->([\s\S]*?)<!--\s*enddefine\s*-->/g].
    The name is a run of [[\w-]] and may give trailing hyphens back to
    the end of the marker; the white space after the comma may give
    characters back to the parameters. *)
Definition matchDefine (s : string)
  : option ((string * option string * string) * string) :=
  s1 ← stripPrefix "<!--" s;
  s2 ← stripPrefix "define:" (skipSpace s1);
  let '(run, s3) := span isWordHyphen (skipSpace s2) in
  greedy true run s3
    (fun nm rest =>
       let r1 := skipSpace rest in
       match stripPrefix "," r1 with
       | Some r2 =>
         let '(ws, r3) := span isSpace r2 in
         greedy false ws r3
           (fun _ r4 =>
              '(params, r5) ← lazyParams r4;
              '(body, r6) ← findEndDefine r5;
              Some ((nm, Some params, body), r6))
       | None =>
         r2 ← stripPrefix "-->" r1;
         '(body, r3) ← findEndDefine r2;
         Some ((nm, None, body), r3)
       end).

(** The record built for one match of [definePattern]: the groups are
    the name, the parameters (if any) and the body. *)
Definition definitionOf (m : string * option string * string) : ComponentDef :=
  let '(nm, paramsStr, body) := m in
  let componentName := trim nm in
  let defineParams := parseParams (orStr paramsStr "") in
  {| name := componentName;
     template := trim body;
     position := orStr (defineParams !! "position") defaultPosition;
     usageCount := 0 |}.

(** The assignment [this.components[componentName] = {...}]. *)
Definition register (components : gmap string ComponentDef)
    (m : string * option string * string) : gmap string ComponentDef :=
  jsSet (name (definitionOf m)) (definitionOf m) components.

(** [extractDefinitions]: the store after the [exec] loop, and the text
    with every match removed. *)
Definition removeDefinitions (markdown : string) : string :=
  replaceSegs (fun _ => "") (scan matchDefine markdown).

Definition extractDefinitions (components : gmap string ComponentDef)
    (markdown : string) : gmap string ComponentDef * string :=
  (fold_left register (hits (scan matchDefine markdown)) components,
   removeDefinitions markdown).

(** The record registered for a definition block without parameters. *)
Definition plainDef (nm body : string) : ComponentDef :=
  {| name := nm; template := trim body; position := defaultPosition;
     usageCount := 0 |}.

(** A definition block without parameters, as it is written. *)
Definition defineBlock (nm body : string) : string :=
  "<!-- define: " +:+ nm +:+ " -->" +:+ body +:+ "<!-- enddefine -->".

(** ** Rendering the usages of a slide *)

Record Usage : Type := {
  usageName : string;
  params : gmap string value;
  usagePosition : string
}.

Definition builtinVars (slideIndex totalSlides : Z) : gmap string value :=
  <["$totalSlides" := VNum totalSlides]>
    (<["$slideNumber" := VNum (slideIndex + 1)]>
       (<["$slideIndex" := VNum slideIndex]> ∅)).

(** [{ ...builtinVars, ...this.globalVars, ...usage.params }]: a later
    spread overwrites the keys of an earlier one. *)
Definition allVars (slideIndex totalSlides : Z)
    (globalVars usageParams : gmap string value) : gmap string value :=
  usageParams ∪ (globalVars ∪ builtinVars slideIndex totalSlides).

(** [renderComponents]: the expansion [renderedContent] of every usage
    whose component is defined, in order, with the name and position
    put on its element.  The lookup is among the definitions of the
    store.  In the code [this.components[usage.name]] also finds what
    every object inherits: for a usage named [constructor] or
    [toString] without a definition of that name it finds a function,
    whose [template] is undefined, and [_renderTemplate] raises a
    TypeError.  Usages of such names are outside this function. *)
Fixpoint renderComponents (compareString : string -> Z -> option comparison)
    (fuel : nat) (components : gmap string ComponentDef)
    (globalVars : gmap string value) (slideIndex totalSlides : Z)
    (usages : list Usage) : option (list (string * string * string)) :=
  match usages with
  | [] => Some []
  | usage :: rest =>
    match components !! usageName usage with
    | None =>
      renderComponents compareString fuel components globalVars
                       slideIndex totalSlides rest
    | Some component =>
      renderedContent ←
        renderTemplate compareString fuel (template component)
          (allVars slideIndex totalSlides globalVars (params usage));
      others ←
        renderComponents compareString fuel components globalVars
                         slideIndex totalSlides rest;
      Some ((usageName usage, usagePosition usage, renderedContent) :: others)
    end
  end.

(** A comparison that answers [NaN] for every string.  It stands for
    [Number] in the examples, whose templates have no [gt] or [lt]
    construct. *)
Definition nanCompare : string -> Z -> option comparison := fun _ _ => None.

(** A page counter, and a usage of it that passes its own
    [$slideNumber]. *)
Definition pagerComponents : gmap string ComponentDef :=
  <["pager" := {| name := "pager"; template := "{{$slideNumber}}";
                  position := "bottom-right"; usageCount := 0 |}]> ∅.

Definition spoofedUsage : Usage :=
  {| usageName := "pager";
     params := <["$slideNumber" := VStr "99"]> ∅;
     usagePosition := "bottom-right" |}.

End Component.

(* ===================================================================== *)
(** * Matcha: the global split and the definition phase *)
(* ===================================================================== *)

Module Matcha.

Import Component.

(** [\s*$] under the [m] flag: the white space is taken as far as it
    goes and given back until the end of the text or a line terminator
    follows. *)
Definition lineEnd (rest : string) : option string :=
  match rest with
  | "" => Some rest
  | String c _ => if isLineTerminator c then Some rest else None
  end.

Definition spaceToLineEnd (s : string) : option string :=
  let '(ws, r) := span isSpace s in
  greedy false ws r (fun _ => lineEnd).

(** [markdown.match(/^([\s\S]*?)---global\s*$/m)]: the match starts at
    the start of the text, where [^] holds, and its lazy group grows
    until the marker and the end of a line follow.  The result is the
    group and the text after the whole match. *)
Fixpoint globalMatch (s : string) : option (string * string) :=
  match stripPrefix "---global" s ≫= spaceToLineEnd with
  | Some rest => Some ("", rest)
  | None =>
    match s with
    | "" => None
    | String c s' =>
      match globalMatch s' with
      | Some (g, r) => Some (String c g, r)
      | None => None
      end
    end
  end.

(** [pre] ends where a line starts: it is empty or ends with a line
    terminator. *)
Definition atLineStart (pre : string) : bool :=
  match String.rev pre with
  | "" => true
  | String c _ => isLineTerminator c
  end.

(** [globalSection] and [slidesSection] of [parseAndBuild]. *)
Definition splitGlobal (markdown : string) : string * string :=
  match globalMatch markdown with
  | Some (g, r) => (g, r)
  | None => ("", markdown)
  end.

(** The definition phase of [parseAndBuild] (steps 0.1 and 0.4): the
    store after both calls of [extractDefinitions], the definitions
    region and the slides region without their definition blocks.  The
    second text is the one that goes on to the style extraction and to
    the split into slides. *)
Definition buildDefinitions (components : gmap string ComponentDef)
    (markdown : string) : gmap string ComponentDef * string * string :=
  let '(globalSection, slidesSection) := splitGlobal markdown in
  let '(components1, processedGlobal) :=
    extractDefinitions components globalSection in
  let '(components2, processedMarkdown) :=
    extractDefinitions components1 slidesSection in
  (components2, processedGlobal, processedMarkdown).

End Matcha.

(* ===================================================================== *)
(** * The canonical ordering of micro-steps *)
(* ===================================================================== *)

Module Disclosure.

Import Fragment.

(** The pairs of one chunk: its content, then each of its [h]
    highlights. *)
Definition chunkPairs (c h : Z) : list (Z * Z) :=
  map (fun k => (c, Z.of_nat k)) (seq 0 (S (Z.to_nat h))).

(** chunk1-content, chunk1-hl1, chunk1-hl2, ..., chunk2-content, ...
    for chunks numbered from [c]. *)
Fixpoint canonicalFrom (hs : list Z) (c : Z) : list (Z * Z) :=
  match hs with
  | [] => []
  | h :: hs' => app (chunkPairs c h) (canonicalFrom hs' (c + 1))
  end.

Definition canonical (hs : list Z) : list (Z * Z) := canonicalFrom hs 1.

(** The highlight count the code reads for each of the [totalSteps]
    chunks of a state. *)
Definition chunkHighlights (s : SlideState) : list Z :=
  map (fun i => highlightsAt (highlightsPerStep s) (Z.of_nat i))
      (seq 0 (Z.to_nat (totalSteps s))).

Definition cursor (s : SlideState) : Z * Z :=
  (currentStep s, currentHighlight s).

(** [currentMicroStep] is the 1-based rank of the cursor in the
    canonical ordering. *)
Definition ranked (s : SlideState) : Prop :=
  1 <= currentMicroStep s /\
  canonical (chunkHighlights s) !! Z.to_nat (currentMicroStep s - 1)
  = Some (cursor s).

(** What [initSlide] establishes and no operation changes: the blocks
    are stored, [totalSteps] is their number, and the highlight counts
    are counts. *)
Definition initialised (s : SlideState) : Prop :=
  (exists bl, blocks s = Some bl /\ totalSteps s = Z.of_nat (length bl)) /\
  Forall (fun h => 0 <= h) (highlightsPerStep s).

(** The states a slide can be in: built by [parseAndRender] and
    [initSlide] (or by [initSlide] alone), then moved by the four
    operations. *)
Inductive reachable : SlideState -> Prop :=
| reach_parsed hs dom :
    Forall (fun h => 0 <= h) hs ->
    reachable (initSlide (Some (parsedState hs)) dom)
| reach_unparsed dom :
    reachable (initSlide None dom)
| reach_next s : reachable s -> reachable (nextStep s).1
| reach_prev s : reachable s -> reachable (prevStep s).1
| reach_reset s : reachable s -> reachable (resetSlide s)
| reach_showAll s : reachable s -> reachable (showAllSteps s).

(** The states after [n] further calls of [nextStep], the first
    included. *)
Fixpoint advance (n : nat) (s : SlideState) : list SlideState :=
  match n with
  | O => [s]
  | S n' => s :: advance n' (nextStep s).1
  end.

(** The cursor of [s] is the pair at position [k] of the ordering:
    the chunks split into those before the current one, the current one
    and those after it. *)
Definition at_pos (s : SlideState) (k : nat) : Prop :=
  exists H1 hc H2,
    chunkHighlights s = (H1 ++ hc :: H2)%list /\
    currentStep s = 1 + Z.of_nat (length H1) /\
    0 <= currentHighlight s <= hc /\
    k = (length (canonical H1) + Z.to_nat (currentHighlight s))%nat.

(** What holds of every reachable state. *)
Definition inBounds (s : SlideState) : Prop :=
  initialised s /\
  0 <= currentHighlight s
    <= highlightsAt (highlightsPerStep s) (currentStep s - 1) /\
  0 <= currentStep s /\
  (currentStep s <= totalSteps s \/ currentStep s = 1) /\
  (1 <= currentStep s \/ totalSteps s = 0).

(** Two slides used as examples: one chunk with one highlight, and a
    chunk with two highlights followed by a chunk without. *)
Definition oneHighlightSlide : SlideState :=
  initSlide (Some (parsedState [1])) [1%nat].

Definition twoChunkSlide : SlideState :=
  initSlide (Some (parsedState [2; 0])) [2%nat; 0%nat].

(** ** Slides of several regions

    The slide element is filled by [buildLayout] (layout.js:282-306).
    The default layouts pass the whole slide text to the render
    callback, once.  The builders of the cols, rows and grid layouts
    (layout.js:325-334, 359-368, 398-407) split the text at the
    separator lines and call the callback once for each region.  The
    callback (matcha.js:174-195) calls [parseAndRender] with the index
    of the slide, and every call stores its record under that index
    (fragment.js:257): the record of a later region replaces the record
    of an earlier one, while the blocks of all regions are in the slide
    element.  [regions] are the texts the callback receives, in order;
    the result is the record stored last and the blocks written. *)
Definition renderRegions (opts : Options) (renderFn : string -> string)
    (regions : list string) : option SlideState * list Block :=
  fold_left
    (fun acc text =>
       let r := parseAndRender opts renderFn text in
       (Some r.1, app acc.2 r.2))
    regions (None, []).

(** The record of the slide after [initSlide] (matcha.js:205), which
    finds the blocks of all regions in the slide element; a block holds
    the highlight spans that [parseHighlights] wrote in it. *)
Definition slideRecord (opts : Options) (renderFn : string -> string)
    (regions : list string) : SlideState :=
  let r := renderRegions opts renderFn regions in
  initSlide r.1 (map (fun b => Z.to_nat (highlights b)) r.2).

(** The regions of the two-column slide text
    [<!-- layout: cols -->], newline, [a <x>], newline, [+++], newline,
    [b]: the layout directive is removed and the rest is split at the
    line [+++]. *)
Definition twoColumns : list string :=
  [nl +:+ "a <x>" +:+ nl; nl +:+ "b"].

End Disclosure.

(* ===================================================================== *)
(** * Navigation over the slides *)
(* ===================================================================== *)

Module Navigation.

Import Fragment Disclosure.

(** [hasSteps]: a missing record gives [undefined], which is false. *)
Definition hasSteps (st : option SlideState) : bool :=
  match st with
  | Some s => 1 <? totalMicroSteps s
  | None => false
  end.

(** The states a slide goes through from the state [s0], under the four
    operations. *)
Inductive reachableFrom (s0 : SlideState) : SlideState -> Prop :=
| from_start : reachableFrom s0 s0
| from_next s : reachableFrom s0 s -> reachableFrom s0 (nextStep s).1
| from_prev s : reachableFrom s0 s -> reachableFrom s0 (prevStep s).1
| from_reset s : reachableFrom s0 s -> reachableFrom s0 (resetSlide s)
| from_showAll s : reachableFrom s0 s -> reachableFrom s0 (showAllSteps s).

(** The part of a [Matcha] instance the navigation works on: the index
    of the current slide and, for each slide element, the record of the
    fragment module (every slide built by [parseAndBuild] has one). *)
Record Deck : Type := {
  currentSlideIndex : Z;
  slideStates : list SlideState
}.

Definition slideCount (d : Deck) : Z := Z.of_nat (length (slideStates d)).

(** An operation of the fragment module on the record of slide [i]. *)
Definition onSlide (d : Deck) (i : Z) (f : SlideState -> SlideState) : Deck :=
  {| currentSlideIndex := currentSlideIndex d;
     slideStates :=
       if i <? 0 then slideStates d
       else alter f (Z.to_nat i) (slideStates d) |}.

(** [goto(index, direction)]: out of range it does nothing; else the
    slide becomes current and is reset (direction [forward]) or shown
    whole (any other direction).  The transition classes, the rendering
    of the components and the progress bar come after and touch neither
    the index nor the records; they are left out. *)
Definition goto (d : Deck) (index : Z) (direction : string) : Deck :=
  if (index <? 0) || (slideCount d <=? index) then d
  else
    let d' := {| currentSlideIndex := index; slideStates := slideStates d |} in
    if String.eqb direction "forward" then onSlide d' index resetSlide
    else onSlide d' index showAllSteps.

(** [next()]: a step inside the current slide if it has one, else the
    next slide from its start.  The outcome is that of [nextStep], the
    only call modelled here that may raise. *)
Definition next (d : Deck) : Deck * outcome unit :=
  let currentIndex := currentSlideIndex d in
  match arrayGet (slideStates d) currentIndex with
  | Some s =>
    if hasNextStep s then
      (onSlide d currentIndex (fun _ => (nextStep s).1),
       match (nextStep s).2 with Ret _ => Ret tt | Throw => Throw end)
    else if currentIndex <? slideCount d - 1
    then (goto d (currentIndex + 1) "forward", Ret tt)
    else (d, Ret tt)
  | None =>
    if currentIndex <? slideCount d - 1
    then (goto d (currentIndex + 1) "forward", Ret tt)
    else (d, Ret tt)
  end.

(** [prev()]: a step back inside the current slide if it has one, else
    the slide before, shown whole. *)
Definition prev (d : Deck) : Deck * outcome unit :=
  let currentIndex := currentSlideIndex d in
  match arrayGet (slideStates d) currentIndex with
  | Some s =>
    if hasPrevStep s then
      (onSlide d currentIndex (fun _ => (prevStep s).1),
       match (prevStep s).2 with Ret _ => Ret tt | Throw => Throw end)
    else if 0 <? currentIndex
    then (goto d (currentIndex - 1) "backward", Ret tt)
    else (d, Ret tt)
  | None =>
    if 0 <? currentIndex
    then (goto d (currentIndex - 1) "backward", Ret tt)
    else (d, Ret tt)
  end.

(** The step blocks of the slide element hold the highlight spans the
    record counts: what [initSlide] finds when the rendering has kept
    every span. *)
Definition domAgrees (s : SlideState) : Prop :=
  exists bl, blocks s = Some bl /\ highlightsPerStep s = map Z.of_nat bl.

(** A deck of two slides, the first one at its last micro-step. *)
Definition twoSlides : Deck :=
  {| currentSlideIndex := 0;
     slideStates := [(nextStep oneHighlightSlide).1; twoChunkSlide] |}.

(** The decks after [n] further presses of the forward key, the first
    included. *)
Fixpoint presses (n : nat) (d : Deck) : list Deck :=
  match n with
  | O => [d]
  | S n' => d :: presses n' (next d).1
  end.

(** What is on show: the current slide and its cursor. *)
Definition view (d : Deck) : Z * option (Z * Z) :=
  (currentSlideIndex d,
   cursor <$> arrayGet (slideStates d) (currentSlideIndex d)).

(** Every micro-step of every slide, slide by slide from slide [i]. *)
Fixpoint deckOrder (i : Z) (hss : list (list Z)) : list (Z * option (Z * Z)) :=
  match hss with
  | [] => []
  | hs :: r => app (map (fun c => (i, Some c)) (canonical hs)) (deckOrder (i + 1) r)
  end.

End Navigation.

(* ===================================================================== *)
(** * The split into slides *)
(* ===================================================================== *)

Module Slides.

Import Matcha.

(** The slide separator [/^\s*---\s*$/gm] at a place where a line
    starts: white space, three hyphens, and white space up to the end
    of a line.  The white space before the hyphens is taken whole, since
    a hyphen is no white space. *)
Definition matchSeparator (s : string) : option string :=
  stripPrefix "---" (skipSpace s) ≫= spaceToLineEnd.

(** [text.split(separator)]: the blocks between the matches.  The first
    block of the result is the one that starts at [s]; [lineStart] says
    whether [^] holds at [s], and [skip] counts the characters of a
    match still to pass. *)
Fixpoint splitFrom (s : string) (lineStart : bool) (skip : nat) : list string :=
  match s with
  | "" => [""]
  | String c s' =>
    match skip with
    | S k => splitFrom s' (isLineTerminator c) k
    | O =>
      match (if lineStart then matchSeparator s else None) with
      | Some rest =>
        "" :: splitFrom s' (isLineTerminator c)
                (Nat.pred (strlen s - strlen rest))
      | None =>
        match splitFrom s' (isLineTerminator c) 0 with
        | b :: bs => String c b :: bs
        | [] => [String c ""]
        end
      end
    end
  end.

Definition slideBlocks (processedMarkdown : string) : list string :=
  splitFrom processedMarkdown true 0.

(** The blocks that become slides: [parseAndBuild] passes over the
    blank ones. *)
Definition slides (processedMarkdown : string) : list string :=
  filter (fun b => isEmpty (trim b) = false) (slideBlocks processedMarkdown).

Definition totalSlides (processedMarkdown : string) : Z :=
  Z.of_nat (length (slides processedMarkdown)).

(** A slide body without a hyphen that starts and ends with a character
    other than white space, and a deck written with a separator line
    between the bodies. *)
Definition notHyphen (c : ascii) : bool := negb (Ascii.eqb c "-").

Fixpoint lastIs (p : ascii -> bool) (s : string) : bool :=
  match s with
  | "" => false
  | String c "" => p c
  | String _ s' => lastIs p s'
  end.

Definition notSpace (c : ascii) : bool := negb (isSpace c).

Definition plainBody (b : string) : Prop :=
  allChars notHyphen b = true /\ headIs notSpace b = true /\
  lastIs notSpace b = true.

Definition separatorLine : string := nl +:+ "---" +:+ nl.

Fixpoint joinSlides (bodies : list string) : string :=
  match bodies with
  | [] => ""
  | [b] => b
  | b :: l => b +:+ separatorLine +:+ joinSlides l
  end.

(** [a] put before the first block of [l]. *)
Definition consHead (a : string) (l : list string) : list string :=
  match l with
  | b :: bs => (a +:+ b) :: bs
  | [] => [a]
  end.

End Slides.

(* ===================================================================== *)
(** * Markdown: escaping *)
(* ===================================================================== *)

Module Markdown.

(** [_escapeHtml]: the five characters of the map are replaced by their
    entities. *)
Definition escapeChar (c : ascii) : string :=
  if Ascii.eqb c "&" then "&amp;"
  else if Ascii.eqb c "<" then "&lt;"
  else if Ascii.eqb c ">" then "&gt;"
  else if Ascii.eqb c dquote then "&quot;"
  else if Ascii.eqb c squote then "&#039;"
  else String c "".

Fixpoint escapeHtml (text : string) : string :=
  match text with
  | "" => ""
  | String c r => escapeChar c +:+ escapeHtml r
  end.

(** The characters [_escapeHtml] replaces. *)
Definition isSpecial (c : ascii) : bool :=
  Ascii.eqb c "&" || Ascii.eqb c "<" || Ascii.eqb c ">"
  || Ascii.eqb c dquote || Ascii.eqb c squote.

(** Reading the five entities back. *)
Fixpoint unescapeHtml (s : string) : string :=
  match s with
  | "" => ""
  | String c r =>
    let u := unescapeHtml r in
    if Ascii.eqb c "&" then
      match stripPrefix "amp;" u with
      | Some t => String "&" t
      | None =>
        match stripPrefix "lt;" u with
        | Some t => String "<" t
        | None =>
          match stripPrefix "gt;" u with
          | Some t => String ">" t
          | None =>
            match stripPrefix "quot;" u with
            | Some t => String dquote t
            | None =>
              match stripPrefix "#039;" u with
              | Some t => String squote t
              | None => String c u
              end
            end
          end
        end
      end
    else String c u
  end.

(** The characters that open or close markup or an attribute value. *)
Definition isMarkup (c : ascii) : bool :=
  Ascii.eqb c "<" || Ascii.eqb c ">" || Ascii.eqb c dquote || Ascii.eqb c squote.

(** ** The placeholder pass of [parse] (markdowmParse.js:51-66)

    [parse] is the last stage of the render callback that
    [parseAndRender] applies to each step text (matcha.js:181-192).  It
    trims the text and, with the default option [codeBlock], replaces
    each fenced block by a placeholder and keeps the markup of the
    block aside until the other rules have run.  The pattern is three
    backticks, a run of word characters (the language), a newline, the
    shortest text that is followed by three backticks (the code), and
    these three backticks.  A word character is no newline, so the run
    gives nothing back. *)
Definition notTick (c : ascii) : bool := negb (Ascii.eqb c "`").

Definition matchFence (s : string) : option ((string * string) * string) :=
  s1 ← stripPrefix "```" s;
  let '(lang, s2) := span isWord s1 in
  s3 ← stripPrefix nl s2;
  '(code, rest) ← findSub "```" s3;
  Some ((lang, code), rest).

(** [%%%MATCHA-CODE-BLOCK-n%%%], with [n] the number of blocks kept
    aside so far. *)
Definition placeholder (n : nat) : string :=
  "%%%MATCHA-CODE-BLOCK-" +:+ showZ (Z.of_nat n) +:+ "%%%".

(** The markup pushed on [codeBlocks]. *)
Definition codeBlock (lang code : string) : string :=
  "<pre><code class=" +:+ String dquote "language-"
  +:+ orStr (Some lang) "text" +:+ String dquote ">"
  +:+ escapeHtml (trim code) +:+ "</code></pre>".

(** The callback of the replacement: the text with the placeholders,
    and [codeBlocks]. *)
Fixpoint protectSegs (l : list (segment (string * string))) (n : nat)
  : string * list string :=
  match l with
  | [] => ("", [])
  | Lit c :: l' =>
    let '(html, codeBlocks) := protectSegs l' n in
    (String c html, codeBlocks)
  | Hit (lang, code) :: l' =>
    let '(html, codeBlocks) := protectSegs l' (S n) in
    (placeholder n +:+ html, codeBlock lang code :: codeBlocks)
  end.

Definition protectHtml (html : string) : string * list string :=
  protectSegs (scan matchFence html) 0.

Definition protectCode (text : string) : string * list string :=
  protectHtml (trim text).

End Markdown.

(* ===================================================================== *)
(** * Writing parameters out *)
(* ===================================================================== *)

Module Params.

Import Component.

(** A pair written as [key=] and the value in double quotes, and a
    list of pairs separated by a comma and a space. *)
Definition writePair (kv : string * string) : string :=
  kv.1 +:+ "=" +:+ String dquote "" +:+ kv.2 +:+ String dquote "".

Fixpoint writeParams (l : list (string * string)) : string :=
  match l with
  | [] => ""
  | [kv] => writePair kv
  | kv :: l' => writePair kv +:+ ", " +:+ writeParams l'
  end.

(** What a pair must satisfy to be written as [key=] and a quoted value. *)
Definition writable (kv : string * string) : Prop :=
  kv.1 <> "" /\ allChars isWordHyphen kv.1 = true /\
  allChars notDquote kv.2 = true.

(** A pair written as [key=value] without quotes, and a list of them
    separated by a comma and a space. *)
Definition writeBarePair (kv : string * string) : string :=
  kv.1 +:+ "=" +:+ kv.2.

Fixpoint writeBareParams (l : list (string * string)) : string :=
  match l with
  | [] => ""
  | [kv] => writeBarePair kv
  | kv :: l' => writeBarePair kv +:+ ", " +:+ writeBareParams l'
  end.

(** What a pair must satisfy to be written without quotes: the value
    is not empty, has no comma and no white space, and does not start
    with a quote. *)
Definition bareWritable (kv : string * string) : Prop :=
  kv.1 <> "" /\ allChars isWordHyphen kv.1 = true /\
  kv.2 <> "" /\ allChars notCommaSpace kv.2 = true /\
  headIs isQuote kv.2 = false.

End Params.

(* ===================================================================== *)
(** * Directives and templates as they are written *)
(* ===================================================================== *)

Module Markers.

(** The step marker with an effect name and a duration. *)
Definition stepMarker (e d : string) : string :=
  "<!-- step: " +:+ e +:+ ", duration=" +:+ d +:+ " -->".

(** A definition block with a position, as it is written. *)
Definition positionedBlock (nm p body : string) : string :=
  "<!-- define: " +:+ nm +:+ ", position=" +:+ p +:+ " -->" +:+ body
  +:+ "<!-- enddefine -->".

End Markers.

Module TemplateText.

Import Component.

(** A character other than the brace that opens every construct and
    every variable. *)
Definition notBrace (c : ascii) : bool := negb (Ascii.eqb c "{").

(** A character of the literal of a comparison: no line terminator and
    no closing brace. *)
Definition litChar (c : ascii) : bool :=
  negb (isLineTerminator c) && negb (Ascii.eqb c "}").

(** A variable name as it is written between the braces. *)
Definition varName (dollar : bool) (name : string) : string :=
  (if dollar then "$" else "") +:+ name.

(** The test of [_processIf] on the variable [cond]. *)
Definition condition (vars : gmap string value) (cond : string) : bool :=
  match vars !! cond with
  | Some v => truthy v
  | None => false
  end.

(** The number a [gt] or [lt] construct reads for a variable that is
    not set (0) or holds a number. *)
Definition numberOf (vars : gmap string value) (v : string) : option Z :=
  match vars !! v with
  | None => Some 0
  | Some (VNum a) => Some a
  | Some (VStr _) => None
  end.

(** A matcher of a construct: it needs the three characters that open
    every construct. *)
Definition opensConstruct {A} (m : string -> option (A * string)) : Prop :=
  forall s, stripPrefix "{{#" s = None -> m s = None.

End TemplateText.

(* ===================================================================== *)
(** * Properties of the text primitives *)
(* ===================================================================== *)

Local Arguments append : simpl nomatch.
Local Arguments Ascii.eqb : simpl never.

Section Text.

Implicit Types (s lit a b r : string) (c : ascii) (p : ascii -> bool).

Lemma sapp_assoc a b r : (a +:+ b) +:+ r = a +:+ (b +:+ r).
Proof. induction a as [|c a IH]; simpl; [done|]. by rewrite IH. Qed.

Lemma sapp_nil_r a : a +:+ "" = a.
Proof. induction a as [|c a IH]; simpl; [done|]. by rewrite IH. Qed.

Lemma sapp_length a b : strlen (a +:+ b) = (strlen a + strlen b)%nat.
Proof. induction a as [|c a IH]; simpl; [done|]. by rewrite IH. Qed.

Lemma isEmpty_true s : isEmpty s = true <-> s = "".
Proof. by destruct s. Qed.

Lemma isEmpty_false s : isEmpty s = false <-> s <> "".
Proof. by destruct s. Qed.

(** ** [span] *)

Lemma span_spec p s a b :
  span p s = (a, b) ->
  s = a +:+ b /\ allChars p a = true /\ headIs p b = false.
Proof.
  revert a b. induction s as [|c s IH]; intros a b; simpl.
  - by intros [= <- <-].
  - destruct (p c) eqn:Hp.
    + destruct (span p s) as [a' b'] eqn:E. intros [= <- <-].
      destruct (IH a' b' eq_refl) as (-> & Ha & Hb).
      simpl. by rewrite Hp, Ha.
    + intros [= <- <-]. simpl. by rewrite Hp.
Qed.

Lemma span_app p a b :
  allChars p a = true -> headIs p b = false -> span p (a +:+ b) = (a, b).
Proof.
  intros Ha Hb. induction a as [|c a IH]; simpl in *.
  - destruct b as [|c b]; simpl in *; [done|]. by rewrite Hb.
  - apply andb_true_iff in Ha as [-> Ha]. by rewrite IH.
Qed.

Lemma skipSpace_app a b :
  allChars isSpace a = true -> headIs isSpace b = false ->
  skipSpace (a +:+ b) = b.
Proof. intros Ha Hb. unfold skipSpace. by rewrite span_app. Qed.

(** ** [stripPrefix] *)

Lemma stripPrefix_Some lit s r : stripPrefix lit s = Some r <-> s = lit +:+ r.
Proof.
  revert s. induction lit as [|c lit IH]; intros s; simpl.
  - split; [by intros [= ->]|by intros ->].
  - destruct s as [|c' s].
    + split; [done|]. intros [=].
    + destruct (Ascii.eqb_spec c c') as [->|Hne].
      * rewrite IH. split; [by intros ->|]. by intros [= ->].
      * split; [done|]. intros [= ? ?]. done.
Qed.

Lemma stripPrefix_app lit r : stripPrefix lit (lit +:+ r) = Some r.
Proof. by apply stripPrefix_Some. Qed.

Lemma stripPrefix_head lit s c c' :
  c <> c' -> stripPrefix (String c lit) (String c' s) = None.
Proof. intros Hne. simpl. by destruct (Ascii.eqb_spec c c'). Qed.

(** ** [findSub]: the first occurrence *)

Lemma findSub_Some lit s b a :
  findSub lit s = Some (b, a) -> s = b +:+ lit +:+ a.
Proof.
  revert b. induction s as [|c s IH]; intros b; simpl.
  - destruct (stripPrefix lit "") as [r|] eqn:E; [|done].
    intros [= <- <-]. by apply stripPrefix_Some in E.
  - destruct (stripPrefix lit (String c s)) as [r|] eqn:E.
    + intros [= <- <-]. by apply stripPrefix_Some in E.
    + destruct (findSub lit s) as [[b' a']|] eqn:E'; [|done].
      intros [= <- <-]. simpl. f_equal. by apply IH.
Qed.

(** [findSub] finds the occurrence that starts first. *)
Lemma findSub_first lit s b a :
  findSub lit s = Some (b, a) ->
  forall b' a', s = b' +:+ lit +:+ a' -> (strlen b <= strlen b')%nat.
Proof.
  revert b. induction s as [|c s IH]; intros b; simpl.
  - destruct (stripPrefix lit "") as [r|] eqn:E; [|done].
    intros [= <- <-] b' a' _. simpl. lia.
  - destruct (stripPrefix lit (String c s)) as [r|] eqn:E.
    + intros [= <- <-] b' a' _. simpl. lia.
    + destruct (findSub lit s) as [[b0 a0]|] eqn:E'; [|done].
      intros [= <- <-] b' a' Hs. destruct b' as [|c' b'].
      * simpl in Hs. apply stripPrefix_Some in Hs. congruence.
      * simpl in Hs. injection Hs as -> ->. simpl.
        specialize (IH b0 eq_refl b' a' eq_refl). lia.
Qed.

Lemma findSub_None lit s b a : findSub lit s = None -> s <> b +:+ lit +:+ a.
Proof.
  revert b. induction s as [|c s IH]; intros b; simpl.
  - destruct (stripPrefix lit "") as [r|] eqn:E; [done|]. intros _ Hs.
    destruct b; simpl in Hs; [|done].
    apply stripPrefix_Some in Hs. congruence.
  - destruct (stripPrefix lit (String c s)) as [r|] eqn:E; [done|].
    destruct (findSub lit s) as [[b0 a0]|] eqn:E'; [done|]. intros _ Hs.
    destruct b as [|c' b]; simpl in Hs.
    + apply stripPrefix_Some in Hs. congruence.
    + injection Hs as -> ->. by eapply IH.
Qed.

(** Conversely, the first occurrence is what [findSub] returns. *)
Lemma findSub_intro lit b a :
  (forall b' a', b +:+ lit +:+ a = b' +:+ lit +:+ a' ->
                 (strlen b <= strlen b')%nat) ->
  findSub lit (b +:+ lit +:+ a) = Some (b, a).
Proof.
  intros Hmin.
  destruct (findSub lit (b +:+ lit +:+ a)) as [[b0 a0]|] eqn:E.
  - pose proof (findSub_Some _ _ _ _ E) as Hs.
    pose proof (findSub_first _ _ _ _ E b a eq_refl) as Hle.
    pose proof (Hmin b0 a0 Hs) as Hge.
    assert (strlen b0 = strlen b) as Hlen by lia.
    clear -Hs Hlen. revert b0 Hs Hlen.
    induction b as [|c b IH]; intros [|c0 b0] Hs Hlen; simpl in *; try done.
    + f_equal. apply (String.app_inj lit) in Hs. by subst.
    + injection Hs as -> Hs. injection Hlen as Hlen.
      apply IH in Hs as [= -> ->]; done.
  - exfalso. by eapply findSub_None.
Qed.


(** ** Global scans *)

Lemma scanFrom_skip {A} (m : string -> option (A * string)) x rest :
  scanFrom m (x +:+ rest) (strlen x) = scanFrom m rest 0.
Proof.
  induction x as [|c x IH]; simpl; [|done].
  destruct rest; done.
Qed.

Lemma scan_lit {A} (m : string -> option (A * string)) c s :
  m (String c s) = None -> scan m (String c s) = Lit c :: scan m s.
Proof. intros E. unfold scan. simpl. by rewrite E. Qed.

Lemma scan_hit {A} (m : string -> option (A * string)) s g x rest :
  m s = Some (g, rest) -> s = x +:+ rest -> x <> "" ->
  scan m s = Hit g :: scan m rest.
Proof.
  intros E -> Hx. destruct x as [|c x]; [done|].
  unfold scan. simpl in *. rewrite E. f_equal.
  rewrite sapp_length.
  replace (Nat.pred (S (strlen x + strlen rest) - strlen rest)) with (strlen x)
    by lia.
  apply scanFrom_skip.
Qed.

(** Where the matcher fails on every text starting with a character of
    [a], the characters of [a] are copied. *)
Lemma scan_copy {A} (m : string -> option (A * string)) p a b :
  (forall c s, p c = true -> m (String c s) = None) ->
  allChars p a = true ->
  scan m (a +:+ b)
  = (map Lit (list_ascii_of_string a) ++ scan m b)%list.
Proof.
  intros Hm. induction a as [|c a IH]; simpl; [done|].
  intros [Hc Ha]%andb_true_iff.
  rewrite scan_lit by by apply Hm. by rewrite IH.
Qed.

Lemma scan_copy_all {A} (m : string -> option (A * string)) p a :
  (forall c s, p c = true -> m (String c s) = None) ->
  allChars p a = true ->
  scan m a = map Lit (list_ascii_of_string a).
Proof.
  intros Hm Ha. rewrite <- (sapp_nil_r a) at 1.
  rewrite (scan_copy m p) by done. unfold scan. simpl. by rewrite app_nil_r.
Qed.

(** Every match of a scan is a match of the expression at some place of
    the text. *)
Lemma scanFrom_hits {A} (m : string -> option (A * string)) s k g :
  g ∈ hits (scanFrom m s k) ->
  exists pre s' rest, s = pre +:+ s' /\ m s' = Some (g, rest).
Proof.
  revert k. induction s as [|c s IH]; intros k; simpl.
  - by intros ?%elem_of_nil.
  - destruct k as [|k].
    + destruct (m (String c s)) as [[g' rest]|] eqn:E; simpl.
      * intros [->|Hin]%elem_of_cons.
        -- by exists "", (String c s), rest.
        -- apply IH in Hin as (pre & s' & r & -> & Hm).
           by exists (String c pre), s', r.
      * intros Hin. apply IH in Hin as (pre & s' & r & -> & Hm).
        by exists (String c pre), s', r.
    + intros Hin. apply IH in Hin as (pre & s' & r & -> & Hm).
      by exists (String c pre), s', r.
Qed.

Lemma pieces_copy {A} a (l : list (segment A)) :
  pieces (map Lit (list_ascii_of_string a) ++ l)%list
  = match pieces l with
    | ([], tl) => ([], a +:+ tl)
    | ((b, g) :: ps, tl) => ((a +:+ b, g) :: ps, tl)
    end.
Proof.
  induction a as [|c a IH]; simpl.
  - by destruct (pieces l) as [[|[b g] ps] tl].
  - rewrite IH. by destruct (pieces l) as [[|[b g] ps] tl].
Qed.

Lemma replaceSegs_copy {A} (f : A -> string) a (l : list (segment A)) :
  replaceSegs f (map Lit (list_ascii_of_string a) ++ l)%list
  = a +:+ replaceSegs f l.
Proof. induction a as [|c a IH]; simpl; [done|]. by rewrite IH. Qed.

Lemma hits_copy {A} a (l : list (segment A)) :
  hits (map Lit (list_ascii_of_string a) ++ l)%list = hits l.
Proof. induction a as [|c a IH]; simpl; done. Qed.

End Text.

(* ===================================================================== *)
(** * Directives in the text of a step *)
(* ===================================================================== *)

Import Fragment.

Section Directives.

Implicit Types (a b t : string) (c : ascii).

Lemma notLt_neq c : notLt c = true -> "<"%char <> c.
Proof. by intros H <-. Qed.

Lemma matchStep_needs_lt c s : notLt c = true -> matchStep (String c s) = None.
Proof.
  intros H. unfold matchStep. by rewrite stripPrefix_head by by apply notLt_neq.
Qed.

Lemma matchHighlight_needs_lt c s :
  notLt c = true -> matchHighlight (String c s) = None.
Proof.
  intros H. unfold matchHighlight.
  by rewrite stripPrefix_head by by apply notLt_neq.
Qed.

Lemma matchStep_plain b :
  matchStep ("<!-- step -->" +:+ b) = Some ((None, None), b).
Proof. reflexivity. Qed.

Lemma trim_nonempty a : trim a <> "" -> isEmpty a = false /\ isEmpty (trim a) = false.
Proof.
  intros H. split; [|by destruct (trim a)]. destruct a; [|done].
  by contradict H.
Qed.

Lemma pieces_one {A} a b (g : A) :
  pieces (map Lit (list_ascii_of_string a)
            ++ Hit g :: map Lit (list_ascii_of_string b))%list
  = ([(a, g)], b).
Proof.
  rewrite pieces_copy. cbn [pieces].
  rewrite <- (app_nil_r (map Lit (list_ascii_of_string b))), pieces_copy.
  cbn [pieces]. by rewrite !sapp_nil_r.
Qed.

Lemma splitSteps_marker a b :
  allChars notLt a = true -> allChars notLt b = true ->
  trim a <> "" -> trim b <> "" ->
  splitSteps defaultOptions (a +:+ "<!-- step -->" +:+ b)
  = [ {| content := a; effect := "none"; stepDuration := 0;
         nextEffect := Some "fade"; nextDuration := Some 500 |};
      {| content := b; effect := "fade"; stepDuration := 500;
         nextEffect := None; nextDuration := None |} ].
Proof.
  intros Ha Hb [Ea Eta]%trim_nonempty [Eb Etb]%trim_nonempty.
  unfold splitSteps.
  rewrite (scan_copy matchStep notLt) by (done || apply matchStep_needs_lt).
  rewrite (scan_hit matchStep _ _ "<!-- step -->" b (matchStep_plain b))
    by done.
  rewrite (scan_copy_all matchStep notLt) by (done || apply matchStep_needs_lt).
  rewrite pieces_one. cbn [fold_left]. unfold onMarker.
  rewrite Ea, Eta, Eb, Etb. cbn.
  by rewrite !decide_True by done.
Qed.

Lemma wrapSegs_copy a (l : list (segment string)) n :
  wrapSegs (map Lit (list_ascii_of_string a) ++ l)%list n
  = a +:+ wrapSegs l n.
Proof. induction a as [|c a IH]; simpl; [done|]. by rewrite IH. Qed.

Lemma lookahead_passes t r :
  t <> "" -> startsWith "/" t = false -> startsWith "!--" t = false ->
  startsWith "/" (t +:+ ">" +:+ r) || startsWith "!--" (t +:+ ">" +:+ r)
  = false.
Proof.
  intros Ht H1 H2. unfold startsWith in *.
  destruct t as [|c1 t]; [done|]. simpl in *.
  destruct (Ascii.eqb_spec "/" c1); [done|].
  destruct (Ascii.eqb_spec "!" c1); [|done]. simpl.
  destruct t as [|c2 t]; [done|]. simpl in *.
  destruct (Ascii.eqb_spec "-" c2); [|done].
  destruct t as [|c3 t]; [done|]. simpl in *.
  destruct (Ascii.eqb_spec "-" c3); done.
Qed.

Lemma matchHighlight_plain t b :
  t <> "" -> allChars notAngle t = true ->
  startsWith "/" t = false -> startsWith "!--" t = false ->
  matchHighlight ("<" +:+ t +:+ ">" +:+ b) = Some (t, b).
Proof.
  intros Ht Hall H1 H2. unfold matchHighlight.
  change ("<" +:+ t +:+ ">" +:+ b) with (String "<" (t +:+ ">" +:+ b)).
  cbn [stripPrefix]. rewrite Ascii.eqb_refl. cbn [mbind option_bind].
  rewrite lookahead_passes by done.
  rewrite span_app by done.
  destruct t; [done|]. reflexivity.
Qed.

End Directives.

(* ===================================================================== *)
(** * Parameters and templates *)
(* ===================================================================== *)

Import Component.

Section Parameters.

Implicit Types (s k v : string).

Lemma matchParam_inv s k v rest :
  matchParam s = Some ((k, v), rest) ->
  exists ws post,
    s = k +:+ ws +:+ "=" +:+ post /\ allChars isSpace ws = true /\
    k <> "" /\ allChars isWordHyphen k = true.
Proof.
  unfold matchParam, skipSpace. intros H.
  destruct (span isWordHyphen s) as [key s1] eqn:Ek.
  apply span_spec in Ek as (-> & Hk & _).
  destruct (isEmpty key) eqn:Ee; [done|]. apply isEmpty_false in Ee.
  destruct (span isSpace s1) as [ws s1'] eqn:Ews.
  apply span_spec in Ews as (-> & Hws & _). cbn [snd] in H.
  destruct (stripPrefix "=" s1') as [s2|] eqn:Eeq;
    cbn [mbind option_bind] in H; [|done].
  apply stripPrefix_Some in Eeq as ->.
  destruct (paramValue (span isSpace s2).2) as [[v' s3]|];
    cbn [mbind option_bind] in H; [|done].
  injection H as <- <- <-. by exists ws, s2.
Qed.

Lemma fold_jsSet_lookup (l : list (string * string)) (m : gmap string string) k v :
  fold_left (fun params '(key, v) => jsSet key v params) l m !! k = Some v ->
  m !! k = Some v \/ (k, v) ∈ l.
Proof.
  revert m. induction l as [|[k' v'] l IH]; intros m; simpl; [by left|].
  intros H. apply IH in H as [H|H]; [|right; by apply elem_of_cons; right].
  unfold jsSet in H. destruct (decide (k' = "__proto__")); [by left|].
  destruct (decide (k' = k)) as [->|Hne].
  - rewrite lookup_insert_eq in H. injection H as ->. right. by left.
  - rewrite lookup_insert_ne in H by done. by left.
Qed.

Lemma parseParams_key_spec s k v :
  parseParams s !! k = Some v ->
  exists pre ws post,
    s = pre +:+ k +:+ ws +:+ "=" +:+ post /\ allChars isSpace ws = true /\
    k <> "" /\ allChars isWordHyphen k = true.
Proof.
  unfold parseParams. intros [H|H]%fold_jsSet_lookup; [by rewrite lookup_empty in H|].
  apply scanFrom_hits in H as (pre & s' & rest & -> & Hm).
  apply matchParam_inv in Hm as (ws & post & -> & Hws & Hk & Hall).
  by exists pre, ws, post.
Qed.

(** C6 (as amended): a key is in the mapping only if it stands in the
    parameter string before optional white space and [=]; a key with no
    [=] after it is not recorded. *)
Theorem parseParams_keys_have_equals s k v :
  parseParams s !! k = Some v ->
  exists pre ws post,
    s = pre +:+ k +:+ ws +:+ "=" +:+ post /\ allChars isSpace ws = true /\
    k <> "" /\ allChars isWordHyphen k = true.
Proof. apply parseParams_key_spec. Qed.

(** A bare key next to a pair: only the pair is recorded. *)
Lemma bare_key_dropped :
  parseParams "autoplay, src=a.mp4" !! "autoplay" = None /\
  parseParams "autoplay, src=a.mp4" !! "src" = Some "a.mp4" /\
  parseParams "autoplay" = ∅.
Proof. vm_compute. done. Qed.

Lemma parseParams_keys_have_equals_witness :
  exists pre ws post,
    "autoplay, src = a.mp4" = pre +:+ "src" +:+ ws +:+ "=" +:+ post /\
    allChars isSpace ws = true /\ "src" <> "" /\
    allChars isWordHyphen "src" = true.
Proof.
  apply (parseParams_keys_have_equals "autoplay, src = a.mp4" "src" "a.mp4").
  vm_compute. reflexivity.
Defined.

End Parameters.

Section Templates.

Implicit Types (s t body : string) (vars : gmap string value).

Lemma scan_no_hits {A} (m : string -> option (A * string)) s :
  hits (scan m s) = [] -> scan m s = map Lit (list_ascii_of_string s).
Proof.
  unfold scan. induction s as [|c s IH]; simpl; [done|].
  destruct (m (String c s)) as [[g rest]|]; simpl; [done|].
  intros H. by rewrite IH.
Qed.

Lemma replaceM_lits {A} (f : A -> option string) s :
  replaceM f (map Lit (list_ascii_of_string s)) = Some s.
Proof. induction s as [|c s IH]; simpl; [done|]. by rewrite IH. Qed.

Lemma replaceSegs_lits {A} (f : A -> string) s :
  replaceSegs f (map Lit (list_ascii_of_string s)) = s.
Proof. induction s as [|c s IH]; simpl; [done|]. by rewrite IH. Qed.

(** A pass that finds no construct leaves the template as it is. *)
Lemma replaceM_scan_id {A} (m : string -> option (A * string))
    (f : A -> option string) s :
  hits (scan m s) = [] -> replaceM f (scan m s) = Some s.
Proof. intros H. rewrite scan_no_hits by done. apply replaceM_lits. Qed.

Lemma replaceSegs_scan_id {A} (m : string -> option (A * string))
    (f : A -> string) s :
  hits (scan m s) = [] -> replaceSegs f (scan m s) = s.
Proof. intros H. rewrite scan_no_hits by done. apply replaceSegs_lits. Qed.

(** The six construct passes on a template without construct. *)
Lemma constructs_id cs render t vars :
  hits (scan matchRepeat t) = [] ->
  hits (scan (matchCompare "eq") t) = [] ->
  hits (scan (matchCompare "neq") t) = [] ->
  hits (scan matchIf t) = [] ->
  hits (scan (matchOrder "gt") t) = [] ->
  hits (scan (matchOrder "lt") t) = [] ->
  renderPasses cs render t vars = Some (substituteVars t vars).
Proof.
  intros H1 H2 H3 H4 H5 H6.
  unfold renderPasses, processRepeat, processEq, processNeq, processIf,
    processGt, processLt.
  rewrite (replaceM_scan_id matchRepeat) by done. cbn [mbind option_bind].
  rewrite (replaceM_scan_id (matchCompare "eq")) by done. cbn [mbind option_bind].
  rewrite (replaceM_scan_id (matchCompare "neq")) by done. cbn [mbind option_bind].
  rewrite (replaceM_scan_id matchIf) by done. cbn [mbind option_bind].
  rewrite (replaceM_scan_id (matchOrder "gt")) by done. cbn [mbind option_bind].
  rewrite (replaceM_scan_id (matchOrder "lt")) by done. done.
Qed.

Lemma allVars_lookup idx total (g ps : gmap string value) k :
  allVars idx total g ps !! k
  = match ps !! k with
    | Some v => Some v
    | None =>
      match g !! k with
      | Some v => Some v
      | None => builtinVars idx total !! k
      end
    end.
Proof.
  unfold allVars. rewrite !lookup_union.
  destruct (ps !! k), (g !! k), (builtinVars idx total !! k); done.
Qed.

Lemma render_slideNumber cs fuel vars v :
  vars !! "$slideNumber" = Some v ->
  renderTemplate cs (S fuel) "{{$slideNumber}}" vars = Some (toString v).
Proof.
  intros Hv. cbn [renderTemplate].
  rewrite constructs_id by reflexivity.
  unfold substituteVars.
  change (scan matchVar "{{$slideNumber}}") with [@Hit string "$slideNumber"].
  cbn [replaceSegs]. by rewrite Hv, sapp_nil_r.
Qed.

(** C1 (as amended): the context of a usage is the built-in variables
    overwritten by the global variables overwritten by the parameters of
    the usage.  A usage whose parameters (or, failing that, a global
    variable) define [$slideNumber] is expanded with that value, and
    with the built-in one otherwise.  The parameters that
    [_parseParams] reads from a usage marker never have the name of a
    built-in, since a key has no [$]. *)
Theorem usage_params_take_precedence :
  (forall idx total (g ps : gmap string value) k,
     allVars idx total g ps !! k
     = match ps !! k with
       | Some v => Some v
       | None =>
         match g !! k with
         | Some v => Some v
         | None => builtinVars idx total !! k
         end
       end) /\
  (forall cs fuel comps (g : gmap string value) idx total u c,
     comps !! usageName u = Some c ->
     template c = "{{$slideNumber}}" ->
     renderComponents cs (S fuel) comps g idx total [u]
     = Some [(usageName u, usagePosition u,
              toString
                match params u !! "$slideNumber" with
                | Some v => v
                | None =>
                  match g !! "$slideNumber" with
                  | Some v => v
                  | None => VNum (idx + 1)
                  end
                end)]) /\
  (forall s k v,
     parseParams s !! k = Some v ->
     k <> "$slideIndex" /\ k <> "$slideNumber" /\ k <> "$totalSlides").
Proof.
  split; [apply allVars_lookup|]. split.
  - intros cs fuel comps g idx total u c Hc Ht.
    cbn [renderComponents]. rewrite Hc, Ht.
    erewrite render_slideNumber; [done|].
    rewrite allVars_lookup.
    destruct (params u !! "$slideNumber"); [done|].
    destruct (g !! "$slideNumber"); [done|]. done.
  - intros s k v H. apply parseParams_key_spec in H as (_ & _ & _ & _ & _ & _ & Hk).
    repeat split; intros ->; discriminate Hk.
Qed.

Lemma usage_params_take_precedence_witness :
  renderComponents nanCompare 1 pagerComponents ∅ 0 5 [spoofedUsage]
  = Some [("pager", "bottom-right", "99")].
Proof.
  destruct usage_params_take_precedence as (_ & H & _).
  apply (H nanCompare 0%nat pagerComponents ∅ 0 5 spoofedUsage
           {| name := "pager"; template := "{{$slideNumber}}";
              position := "bottom-right"; usageCount := 0 |});
    reflexivity.
Defined.

(** On the first of five slides the built-in [$slideNumber] is 1; a
    usage that passes [$slideNumber=99] is expanded to 99. *)
Lemma builtin_overridden_by_usage :
  builtinVars 0 5 !! "$slideNumber" = Some (VNum 1) /\
  params spoofedUsage !! "$slideNumber" = Some (VStr "99") /\
  renderComponents nanCompare 1 pagerComponents ∅ 0 5 [spoofedUsage]
  = Some [("pager", "bottom-right", "99")].
Proof. vm_compute. done. Qed.

End Templates.

Section Repeat.

Implicit Types (s t body : string) (vars : gmap string value) (c : ascii).

Lemma span_head_false (p : ascii -> bool) s :
  headIs p s = false -> span p s = ("", s).
Proof. destruct s as [|c s]; simpl; [done|]. by intros ->. Qed.

Lemma allChars_head (p q : ascii -> bool) s r :
  (forall c, p c = true -> q c = false) ->
  s <> "" -> allChars p s = true -> headIs q (s +:+ r) = false.
Proof.
  intros Hpq Hs Hall. destruct s as [|c s]; [done|]. simpl in *.
  apply andb_true_iff in Hall as [Hc _]. by apply Hpq.
Qed.

Lemma isWordDollar_not_space c : isWordDollar c = true -> isSpace c = false.
Proof. destruct c as [[] [] [] [] [] [] [] []]; vm_compute; done. Qed.

Lemma isDigit_not_space c : isDigit c = true -> isSpace c = false.
Proof. destruct c as [[] [] [] [] [] [] [] []]; vm_compute; done. Qed.

Lemma isDigit_value c :
  isDigit c = true ->
  digitValue c = Some (Z.of_N (code c) - 48) /\
  0 <= Z.of_N (code c) - 48 < 10.
Proof. destruct c as [[] [] [] [] [] [] [] []]; vm_compute; done. Qed.

Lemma isDigit_not_sign c :
  isDigit c = true ->
  Ascii.eqb c "-" = false /\ Ascii.eqb c "+" = false /\
  Ascii.eqb c "x" = false /\ Ascii.eqb c "X" = false.
Proof. destruct c as [[] [] [] [] [] [] [] []]; vm_compute; done. Qed.

Lemma matchRepeat_construct countExpr body rest :
  countExpr <> "" -> allChars isWordDollar countExpr = true ->
  (forall b' a',
     body +:+ "{{/repeat}}" +:+ rest = b' +:+ "{{/repeat}}" +:+ a' ->
     (strlen body <= strlen b')%nat) ->
  matchRepeat ("{{#repeat " +:+ countExpr +:+ "}}" +:+ body
               +:+ "{{/repeat}}" +:+ rest)
  = Some ((countExpr, body), rest).
Proof.
  intros Hne Hall Hmin. unfold matchRepeat.
  change ("{{#repeat " +:+ ?x) with ("{{#repeat" +:+ (" " +:+ x)).
  rewrite stripPrefix_app. cbn [mbind option_bind].
  rewrite (span_app isSpace " ") by
    (done || by apply (allChars_head isWordDollar), Hall; [apply isWordDollar_not_space|]).
  cbn [isEmpty].
  rewrite span_app by done.
  destruct (isEmpty countExpr) eqn:E; [by apply isEmpty_true in E|].
  rewrite stripPrefix_app. cbn [mbind option_bind].
  by rewrite findSub_intro.
Qed.


Lemma repeatLoop_spec (render : string -> gmap string value -> option string)
    body vars n i :
  repeatLoop render body vars n i
  = concatStrings <$> mapM (fun j => render body (loopVars vars j))
                           (seqZ i (Z.of_nat n)).
Proof.
  revert i. induction n as [|n IH]; intros i; [done|].
  rewrite seqZ_cons by lia. cbn [repeatLoop mapM].
  replace (Z.pred (Z.of_nat (S n))) with (Z.of_nat n) by lia.
  rewrite IH.
  replace (Z.succ i) with (i + 1) by lia.
  destruct (render body (loopVars vars i)) as [r|]; [|done].
  cbn [mbind option_bind].
  destruct (mapM _ _) as [rs|]; done.
Qed.

Lemma parseDigits_decimal s a :
  allChars isDigit s = true ->
  parseDigits 10 s (Some a)
  = Some (fold_left (fun acc c => acc * 10 + (Z.of_N (code c) - 48))
                    (list_ascii_of_string s) a).
Proof.
  revert a. induction s as [|c s IH]; intros a; simpl; [done|].
  intros [Hc Hs]%andb_true_iff.
  destruct (isDigit_value c Hc) as [-> Hr].
  destruct (Z.ltb_spec (Z.of_N (code c) - 48) 10); [|lia].
  by rewrite IH.
Qed.

Lemma fold_digits_nonneg s a :
  allChars isDigit s = true -> 0 <= a ->
  0 <= fold_left (fun acc c => acc * 10 + (Z.of_N (code c) - 48))
                 (list_ascii_of_string s) a.
Proof.
  revert a. induction s as [|c s IH]; intros a Hs Ha; [done|].
  apply andb_true_iff in Hs as [Hc Hs]. cbn [list_ascii_of_string fold_left].
  apply IH; [done|]. destruct (isDigit_value c Hc) as [_ Hr]. lia.
Qed.

Lemma decimalValue_nonneg s : allChars isDigit s = true -> 0 <= decimalValue s.
Proof. intros Hs. by apply fold_digits_nonneg. Qed.

Lemma roundToDouble_exact n :
  - 9007199254740992 <= n <= 9007199254740992 -> roundToDouble n = n.
Proof.
  intros Hn. unfold roundToDouble.
  destruct (Z.leb_spec (Z.abs n) 9007199254740992); [done|lia].
Qed.

Lemma parseInt_rounds :
  parseInt "9007199254740993" = Some 9007199254740992 /\
  parseInt "9007199254740995" = Some 9007199254740996 /\
  parseInt "-42" = Some (-42).
Proof. by vm_compute. Qed.

Lemma parseInt_decimal s :
  s <> "" -> allChars isDigit s = true ->
  decimalValue s <= 9007199254740992 ->
  parseInt s = Some (decimalValue s).
Proof.
  intros Hne Hall Hbound. pose proof (decimalValue_nonneg s Hall) as Hpos.
  destruct s as [|c s]; [done|].
  pose proof Hall as [Hc Hs]%andb_true_iff.
  unfold parseInt, trimStart, skipSpace.
  rewrite span_head_false by (simpl; by apply isDigit_not_space).
  cbn [snd]. unfold splitSign.
  destruct (isDigit_not_sign c Hc) as (-> & -> & _).
  assert (splitRadix (String c s) = (10, String c s)) as ->.
  { unfold splitRadix. destruct s as [|x r]; [done|]. simpl in Hs.
    apply andb_true_iff in Hs as [Hx _].
    destruct (isDigit_not_sign x Hx) as (_ & _ & -> & ->).
    by rewrite andb_false_r. }
  cbn [parseDigits].
  destruct (isDigit_value c Hc) as [-> Hr].
  destruct (Z.ltb_spec (Z.of_N (code c) - 48) 10); [|lia].
  rewrite parseDigits_decimal by done.
  unfold decimalValue in Hbound, Hpos.
  cbn [list_ascii_of_string fold_left] in Hbound, Hpos.
  rewrite Z.mul_0_l, Z.add_0_l in Hbound, Hpos.
  rewrite roundToDouble_exact by lia.
  unfold decimalValue. cbn [list_ascii_of_string fold_left]. done.
Qed.

Lemma render_loop_body cs fuel vars i :
  renderTemplate cs (S fuel) "#{{$i}} " (loopVars vars i)
  = Some ("#" +:+ showZ (i + 1) +:+ " ").
Proof.
  cbn [renderTemplate]. rewrite constructs_id by reflexivity.
  unfold substituteVars.
  change (scan matchVar "#{{$i}} ")
    with [@Lit string "#"%char; Hit "$i"; Lit " "%char].
  cbn [replaceSegs]. unfold loopVars.
  rewrite lookup_insert_ne by done. rewrite lookup_insert_eq. done.
Qed.

End Repeat.

(* ===================================================================== *)
(** * The global split and the definition phase *)
(* ===================================================================== *)

Import Matcha.

Section Backtracking.

Implicit Types (s a b rest : string) (c : ascii).

Lemma firstSome_app {A R} (f : A -> option R) l1 l2 :
  firstSome f (l1 ++ l2)
  = match firstSome f l1 with
    | Some r => Some r
    | None => firstSome f l2
    end.
Proof.
  induction l1 as [|x l1 IH]; simpl; [done|]. by destruct (f x).
Qed.

Lemma firstSome_map {A B R} (f : B -> option R) (g : A -> B) l :
  firstSome f (map g l) = firstSome (fun x => f (g x)) l.
Proof.
  induction l as [|x l IH]; simpl; [done|]. by destruct (f (g x)).
Qed.

Lemma firstSome_ext {A R} (f g : A -> option R) l :
  (forall x, f x = g x) -> firstSome f l = firstSome g l.
Proof.
  intros H. induction l as [|x l IH]; simpl; [done|]. by rewrite H, IH.
Qed.

Lemma firstSome_splits_none {R} (f : string * string -> option R) s :
  (forall s1 s2, s = s1 +:+ s2 -> f (s1, s2) = None) ->
  firstSome f (splits s) = None.
Proof.
  revert f. induction s as [|c s IH]; intros f H; simpl.
  - by rewrite (H "" "").
  - rewrite firstSome_app, firstSome_map.
    rewrite (IH (fun x => f (let '(a, b) := x in (String c a, b)))).
    + simpl. by rewrite (H "" (String c s)).
    + intros s1 s2 ->. by apply (H (String c s1) s2).
Qed.

(** When every cut that takes more than [a] fails, the cut at [a] is
    the one that decides. *)
Lemma firstSome_splits_at {R} (f : string * string -> option R) a b res :
  (forall b1 b2, b = b1 +:+ b2 -> b1 <> "" -> f (a +:+ b1, b2) = None) ->
  f (a, b) = Some res ->
  firstSome f (splits (a +:+ b)) = Some res.
Proof.
  revert f. induction a as [|c a IH]; intros f Hfail Hok.
  - simpl in *. destruct b as [|c b]; simpl; [by rewrite Hok|].
    rewrite firstSome_app, firstSome_map.
    rewrite (firstSome_splits_none
               (fun x => f (let '(a, b0) := x in (String c a, b0)))).
    + simpl. by rewrite Hok.
    + intros s1 s2 ->. by apply (Hfail (String c s1) s2).
  - simpl. rewrite firstSome_app, firstSome_map.
    rewrite (IH (fun x => f (let '(a0, b0) := x in (String c a0, b0)))); [done| |done].
    intros b1 b2 -> Hb1. by apply (Hfail b1 b2).
Qed.

(** A greedy run whose continuation accepts the cut at [a] and rejects
    every longer one. *)
Lemma greedy_at {R} atLeastOne a b rest (k : string -> string -> option R) res :
  (forall b1 b2, b = b1 +:+ b2 -> b1 <> "" ->
                 k (a +:+ b1) (b2 +:+ rest) = None) ->
  (atLeastOne = true -> a <> "") ->
  k a (b +:+ rest) = Some res ->
  greedy atLeastOne (a +:+ b) rest k = Some res.
Proof.
  intros Hfail Hne Hok. unfold greedy. apply firstSome_splits_at.
  - intros b1 b2 Hb Hb1. rewrite Hfail by done.
    by destruct (atLeastOne && isEmpty (a +:+ b1)).
  - destruct atLeastOne; simpl; [|done].
    destruct a; [by destruct (Hne eq_refl)|done].
Qed.

Lemma greedy_whole {R} atLeastOne run rest (k : string -> string -> option R) res :
  (atLeastOne = true -> run <> "") ->
  k run rest = Some res ->
  greedy atLeastOne run rest k = Some res.
Proof.
  intros Hne Hok. rewrite <- (sapp_nil_r run).
  apply greedy_at; [by intros [|] ? [=]|done|done].
Qed.

Lemma greedy_none {R} atLeastOne run rest (k : string -> string -> option R) :
  (forall s1 s2, run = s1 +:+ s2 -> k s1 (s2 +:+ rest) = None) ->
  greedy atLeastOne run rest k = None.
Proof.
  intros H. unfold greedy. apply firstSome_splits_none.
  intros s1 s2 Hs. rewrite (H s1 s2 Hs).
  by destruct (atLeastOne && isEmpty s1).
Qed.

End Backtracking.

Section GlobalSplit.

Implicit Types (s pre after rest ws tail : string) (c : ascii).

Lemma allChars_app (p : ascii -> bool) a b :
  allChars p (a +:+ b) = allChars p a && allChars p b.
Proof. induction a as [|c a IH]; simpl; [done|]. by rewrite IH, andb_assoc. Qed.

Lemma allChars_impl (p q : ascii -> bool) s :
  (forall c, p c = true -> q c = true) ->
  allChars p s = true -> allChars q s = true.
Proof.
  intros H. induction s as [|c s IH]; simpl; [done|].
  intros [Hc Hs]%andb_true_iff. by rewrite (H c Hc), IH.
Qed.

Lemma isLineTerminator_space c : isLineTerminator c = true -> isSpace c = true.
Proof. destruct c as [[] [] [] [] [] [] [] []]; vm_compute; done. Qed.

Lemma isBlank_space c : isBlank c = true -> isSpace c = true.
Proof. unfold isBlank. by intros [? _]%andb_true_iff. Qed.

Lemma isBlank_not_terminator c :
  isBlank c = true -> isLineTerminator c = false.
Proof. unfold isBlank. intros [_ H]%andb_true_iff. by apply negb_true_iff. Qed.

Lemma not_space_not_terminator c :
  isSpace c = false -> isLineTerminator c = false.
Proof.
  intros H. destruct (isLineTerminator c) eqn:E; [|done].
  apply isLineTerminator_space in E. congruence.
Qed.

Lemma spaceToLineEnd_unfold s :
  spaceToLineEnd s
  = let '(ws, r) := span isSpace s in greedy false ws r (fun _ => lineEnd).
Proof. done. Qed.

Lemma spaceToLineEnd_end ws :
  allChars isSpace ws = true -> spaceToLineEnd ws = Some "".
Proof.
  intros H. rewrite spaceToLineEnd_unfold.
  rewrite <- (sapp_nil_r ws) at 1. rewrite span_app by done.
  by apply greedy_whole.
Qed.

Lemma spaceToLineEnd_line ws c ws2 r2 :
  allChars isSpace ws = true -> isLineTerminator c = true ->
  allChars isBlank ws2 = true -> headIs isSpace r2 = false -> r2 <> "" ->
  spaceToLineEnd (ws +:+ String c (ws2 +:+ r2)) = Some (String c (ws2 +:+ r2)).
Proof.
  intros Hws Hc Hws2 Hr2 Hne. rewrite spaceToLineEnd_unfold.
  replace (ws +:+ String c (ws2 +:+ r2)) with ((ws +:+ String c ws2) +:+ r2)
    by by rewrite sapp_assoc.
  rewrite span_app; [|rewrite allChars_app; simpl;
      rewrite Hws, (isLineTerminator_space c Hc);
      by rewrite (allChars_impl isBlank isSpace ws2 isBlank_space)|done].
  apply greedy_at; [|done|simpl; by rewrite Hc].
  intros b1 b2 Hb Hb1. destruct b1 as [|c1 b1]; [done|].
  simpl in Hb. injection Hb as <- ->.
  rewrite allChars_app in Hws2. apply andb_true_iff in Hws2 as [_ Hb2].
  destruct b2 as [|c2 b2]; simpl.
  - destruct r2 as [|x r2]; [done|]. simpl in *.
    by rewrite (not_space_not_terminator x Hr2).
  - simpl in Hb2. apply andb_true_iff in Hb2 as [Hc2 _].
    by rewrite (isBlank_not_terminator c2 Hc2).
Qed.

Lemma spaceToLineEnd_text ws x tail :
  allChars isBlank ws = true -> isSpace x = false ->
  spaceToLineEnd (ws +:+ String x tail) = None.
Proof.
  intros Hws Hx. rewrite spaceToLineEnd_unfold.
  rewrite span_app;
    [|by apply (allChars_impl isBlank isSpace ws isBlank_space)|done].
  apply greedy_none. intros s1 s2 ->.
  rewrite allChars_app in Hws. apply andb_true_iff in Hws as [_ Hs2].
  destruct s2 as [|c2 s2]; simpl.
  - by rewrite (not_space_not_terminator x Hx).
  - simpl in Hs2. apply andb_true_iff in Hs2 as [Hc2 _].
    by rewrite (isBlank_not_terminator c2 Hc2).
Qed.

Lemma globalMatch_unfold s :
  globalMatch s
  = match stripPrefix "---global" s ≫= spaceToLineEnd with
    | Some rest => Some ("", rest)
    | None =>
      match s with
      | "" => None
      | String c s' =>
        match globalMatch s' with
        | Some (g, r) => Some (String c g, r)
        | None => None
        end
      end
    end.
Proof. by destruct s. Qed.

(** The match stops at the first occurrence of the marker that the end
    of a line follows. *)
Lemma globalMatch_first pre after rest :
  (forall p a,
     pre +:+ "---global" +:+ after = p +:+ "---global" +:+ a ->
     (strlen p < strlen pre)%nat -> spaceToLineEnd a = None) ->
  spaceToLineEnd after = Some rest ->
  globalMatch (pre +:+ "---global" +:+ after) = Some (pre, rest).
Proof.
  intros Hearlier Hok. induction pre as [|c pre IH].
  - change ("" +:+ ?x) with x.
    rewrite globalMatch_unfold, stripPrefix_app. cbn [mbind option_bind].
    by rewrite Hok.
  - change (String c pre +:+ ?x) with (String c (pre +:+ x)).
    cbn [globalMatch].
    destruct (stripPrefix "---global" (String c (pre +:+ "---global" +:+ after)))
      as [a|] eqn:E.
    + apply stripPrefix_Some in E. cbn [mbind option_bind].
      rewrite (Hearlier "" a) by (done || simpl; lia).
      rewrite IH; [done|].
      intros p a' Hp Hlt. apply (Hearlier (String c p) a'); [|simpl; lia].
      exact (f_equal (String c) Hp).
    + cbn [mbind option_bind]. rewrite IH; [done|].
      intros p a' Hp Hlt. apply (Hearlier (String c p) a'); [|simpl; lia].
      exact (f_equal (String c) Hp).
Qed.

Lemma globalMatch_rejects s :
  (forall p a, s = p +:+ "---global" +:+ a -> spaceToLineEnd a = None) ->
  globalMatch s = None.
Proof.
  induction s as [|c s IH]; intros H.
  - done.
  - cbn [globalMatch].
    assert (stripPrefix "---global" (String c s) ≫= spaceToLineEnd = None) as ->.
    { destruct (stripPrefix "---global" (String c s)) as [a|] eqn:E; [|done].
      apply stripPrefix_Some in E. by apply (H "" a). }
    rewrite IH; [done|]. intros p a ->. by apply (H (String c p) a).
Qed.

(** C8 (as amended): the document is split at the first occurrence of
    [---global] that only white space follows up to the end of its
    line.  For such an occurrence at the start of a line, the
    definitions region is the text before it, and the slides region is
    the text from the last line terminator of the white space after the
    marker (empty when only white space follows).  An occurrence that
    other text follows on its line is passed over, and a document with
    no other occurrence is not split: the definitions region is empty
    and the slides region is the whole text. *)
Theorem global_split :
  (forall pre after rest,
     atLineStart pre = true ->
     (forall p a,
        pre +:+ "---global" +:+ after = p +:+ "---global" +:+ a ->
        (strlen p < strlen pre)%nat -> spaceToLineEnd a = None) ->
     spaceToLineEnd after = Some rest ->
     splitGlobal (pre +:+ "---global" +:+ after) = (pre, rest)) /\
  (forall ws, allChars isSpace ws = true -> spaceToLineEnd ws = Some "") /\
  (forall ws c ws2 r2,
     allChars isSpace ws = true -> isLineTerminator c = true ->
     allChars isBlank ws2 = true -> headIs isSpace r2 = false -> r2 <> "" ->
     spaceToLineEnd (ws +:+ String c (ws2 +:+ r2))
     = Some (String c (ws2 +:+ r2))) /\
  (forall ws x tail,
     allChars isBlank ws = true -> isSpace x = false ->
     spaceToLineEnd (ws +:+ String x tail) = None) /\
  (forall md,
     (forall p a, md = p +:+ "---global" +:+ a -> spaceToLineEnd a = None) ->
     splitGlobal md = ("", md)).
Proof.
  split; [|split; [|split; [|split]]].
  - intros pre after rest _ Hearlier Hok. unfold splitGlobal.
    by rewrite (globalMatch_first pre after rest).
  - apply spaceToLineEnd_end.
  - apply spaceToLineEnd_line.
  - apply spaceToLineEnd_text.
  - intros md H. unfold splitGlobal. by rewrite globalMatch_rejects.
Qed.

Lemma global_split_witness :
  splitGlobal (("defs" +:+ nl) +:+ "---global" +:+ (nl +:+ "# Slide"))
  = ("defs" +:+ nl, nl +:+ "# Slide") /\
  spaceToLineEnd " x" = None.
Proof.
  destruct global_split as (H1 & _ & _ & H4 & _). split.
  - apply (H1 ("defs" +:+ nl) (nl +:+ "# Slide") (nl +:+ "# Slide"));
      [reflexivity | | reflexivity].
    intros p a E Hlt.
    assert (findSub "---global"
              (("defs" +:+ nl) +:+ "---global" +:+ (nl +:+ "# Slide"))
            = Some ("defs" +:+ nl, nl +:+ "# Slide")) as F by reflexivity.
    pose proof (findSub_first _ _ _ _ F p a E) as Hle.
    change (strlen ("defs" +:+ nl)) with 5%nat in *. lia.
  - apply (H4 " " "x"%char ""); reflexivity.
Defined.

(** A marker line with trailing blanks, and a marker after other text
    on its line, both split the document. *)
Lemma global_split_not_exact_line :
  splitGlobal ("a" +:+ nl +:+ "---global  " +:+ nl +:+ "b")
  = ("a" +:+ nl, nl +:+ "b") /\
  splitGlobal ("title ---global" +:+ nl +:+ "b") = ("title ", nl +:+ "b").
Proof. vm_compute. done. Qed.

End GlobalSplit.

Section Definitions.

Implicit Types (s pre nm body post : string) (c : ascii)
  (comps : gmap string ComponentDef).

Lemma isWordHyphen_not_space c : isWordHyphen c = true -> isSpace c = false.
Proof. destruct c as [[] [] [] [] [] [] [] []]; vm_compute; done. Qed.

Lemma trimEnd_id s :
  allChars (fun c => negb (isSpace c)) s = true -> trimEnd s = s.
Proof.
  induction s as [|c s IH]; simpl; [done|].
  intros [Hc Hs]%andb_true_iff. rewrite IH by done.
  apply negb_true_iff in Hc. by rewrite Hc, andb_false_r.
Qed.

Lemma trim_name nm : allChars isWordHyphen nm = true -> trim nm = nm.
Proof.
  intros H. unfold trim, trimStart, skipSpace.
  destruct nm as [|c nm]; [done|].
  pose proof H as [Hc _]%andb_true_iff.
  rewrite span_head_false by (simpl; by apply isWordHyphen_not_space).
  cbn [snd]. apply trimEnd_id.
  apply (allChars_impl isWordHyphen); [|done].
  intros x Hx. by rewrite isWordHyphen_not_space.
Qed.

Lemma matchEndDefine_needs_lt c s :
  notLt c = true -> matchEndDefine (String c s) = None.
Proof.
  intros H. unfold matchEndDefine.
  by rewrite stripPrefix_head by by apply notLt_neq.
Qed.

Lemma matchDefine_needs_lt c s :
  notLt c = true -> matchDefine (String c s) = None.
Proof.
  intros H. unfold matchDefine.
  by rewrite stripPrefix_head by by apply notLt_neq.
Qed.

Lemma findEndDefine_unfold s :
  findEndDefine s
  = match matchEndDefine s with
    | Some r => Some ("", r)
    | None =>
      match s with
      | "" => None
      | String c s' =>
        match findEndDefine s' with
        | Some (b, r) => Some (String c b, r)
        | None => None
        end
      end
    end.
Proof. by destruct s. Qed.

Lemma findEndDefine_body body post :
  allChars notLt body = true ->
  findEndDefine (body +:+ "<!-- enddefine -->" +:+ post) = Some (body, post).
Proof.
  induction body as [|c body IH]; intros H.
  - change ("" +:+ ?x) with x. rewrite findEndDefine_unfold. reflexivity.
  - simpl in H. apply andb_true_iff in H as [Hc Hb].
    change (String c body +:+ ?x) with (String c (body +:+ x)).
    rewrite findEndDefine_unfold, matchEndDefine_needs_lt by done.
    by rewrite IH.
Qed.

Lemma matchDefine_block nm body post :
  nm <> "" -> allChars isWordHyphen nm = true ->
  allChars notLt body = true ->
  matchDefine (defineBlock nm body +:+ post) = Some ((nm, None, body), post).
Proof.
  intros Hne Hnm Hbody. unfold matchDefine, defineBlock.
  rewrite !sapp_assoc.
  change ("<!-- define: " +:+ ?x) with ("<!--" +:+ (" " +:+ ("define:" +:+ (" " +:+ x)))).
  rewrite stripPrefix_app. cbn [mbind option_bind].
  rewrite (skipSpace_app " ") by done.
  rewrite stripPrefix_app. cbn [mbind option_bind].
  rewrite (skipSpace_app " ") by
    (done || by apply (allChars_head isWordHyphen), Hnm;
                 [apply isWordHyphen_not_space|]).
  rewrite span_app by done.
  apply greedy_whole; [done|].
  change (" -->" +:+ ?x) with (" " +:+ ("-->" +:+ x)).
  rewrite (skipSpace_app " ") by done.
  change (stripPrefix "," ("-->" +:+ ?x)) with (@None string).
  rewrite stripPrefix_app. cbn [mbind option_bind].
  by rewrite findEndDefine_body.
Qed.


Lemma register_plain comps nm body :
  allChars isWordHyphen nm = true -> nm <> "__proto__" ->
  register comps (nm, None, body) = <[nm := plainDef nm body]> comps.
Proof.
  intros Hnm Hproto. unfold register, definitionOf. cbn [name].
  rewrite trim_name by done.
  unfold jsSet. by rewrite decide_False by done.
Qed.

(** [extractDefinitions] on a text that holds a definition block after a
    text without [<]: the block is registered, then the blocks of the
    text after it; the block is removed and the text after it is
    treated in the same way. *)
Lemma extractDefinitions_block comps pre nm body post :
  allChars notLt pre = true ->
  nm <> "" -> allChars isWordHyphen nm = true -> nm <> "__proto__" ->
  allChars notLt body = true ->
  extractDefinitions comps (pre +:+ defineBlock nm body +:+ post)
  = (fold_left register (hits (scan matchDefine post))
               (<[nm := plainDef nm body]> comps),
     pre +:+ removeDefinitions post).
Proof.
  intros Hpre Hne Hnm Hproto Hbody.
  unfold extractDefinitions, removeDefinitions.
  rewrite (scan_copy matchDefine notLt) by (done || apply matchDefine_needs_lt).
  rewrite (scan_hit matchDefine _ (nm, None, body) (defineBlock nm body) post);
    [|by apply matchDefine_block|done|done].
  rewrite hits_copy, replaceSegs_copy. cbn [hits fold_left replaceSegs].
  by rewrite register_plain.
Qed.

Lemma fold_register_other (l : list (string * option string * string)) comps nm :
  (forall m, m ∈ l -> trim m.1.1 <> nm) ->
  fold_left register l comps !! nm = comps !! nm.
Proof.
  revert comps. induction l as [|[[n ps] b] l IH]; intros comps H; [done|].
  cbn [fold_left]. rewrite IH by (intros m Hm; apply H; by right).
  unfold register, jsSet, definitionOf. cbn [name].
  destruct (decide (trim n = "__proto__")); [done|].
  apply lookup_insert_ne. apply (H (n, ps, b)). by left.
Qed.

Lemma buildDefinitions_store comps md :
  (buildDefinitions comps md).1.1
  = fold_left register
      (hits (scan matchDefine (splitGlobal md).1)
         ++ hits (scan matchDefine (splitGlobal md).2))%list
      comps.
Proof.
  unfold buildDefinitions, extractDefinitions.
  destruct (splitGlobal md) as [g sl]. cbn [fst snd].
  by rewrite fold_left_app.
Qed.

(** C10: [extractDefinitions] runs on the definitions region and then,
    with the store it leaves, on the slides region.  Of all the blocks
    the pattern finds in the two regions, the last one of a name is the
    one the store holds under that name.  A definition block of the
    slides region is registered on top of the store of the definitions
    region, the blocks after it on top of it, and the text that goes on
    to the split into slides has the block removed; a block of the
    definitions region is registered before the slides region is read. *)
Theorem definitions_from_both_regions :
  (forall comps md l1 m l2,
     (hits (scan matchDefine (splitGlobal md).1)
        ++ hits (scan matchDefine (splitGlobal md).2))%list
     = (l1 ++ m :: l2)%list ->
     trim m.1.1 <> "__proto__" ->
     (forall m', m' ∈ l2 -> trim m'.1.1 <> trim m.1.1) ->
     (buildDefinitions comps md).1.1 !! trim m.1.1 = Some (definitionOf m)) /\
  (forall comps md pre nm body post,
     allChars notLt pre = true ->
     nm <> "" -> allChars isWordHyphen nm = true -> nm <> "__proto__" ->
     allChars notLt body = true ->
     (splitGlobal md).2 = pre +:+ defineBlock nm body +:+ post ->
     buildDefinitions comps md
     = (fold_left register (hits (scan matchDefine post))
          (<[nm := plainDef nm body]>
             (extractDefinitions comps (splitGlobal md).1).1),
        removeDefinitions (splitGlobal md).1,
        pre +:+ removeDefinitions post)) /\
  (forall comps md pre nm body post,
     allChars notLt pre = true ->
     nm <> "" -> allChars isWordHyphen nm = true -> nm <> "__proto__" ->
     allChars notLt body = true ->
     (splitGlobal md).1 = pre +:+ defineBlock nm body +:+ post ->
     buildDefinitions comps md
     = (fold_left register (hits (scan matchDefine (splitGlobal md).2))
          (fold_left register (hits (scan matchDefine post))
             (<[nm := plainDef nm body]> comps)),
        pre +:+ removeDefinitions post,
        removeDefinitions (splitGlobal md).2)).
Proof.
  split; [|split].
  - intros comps md l1 m l2 Hl Hproto Hlater.
    rewrite buildDefinitions_store, Hl, fold_left_app. cbn [fold_left].
    rewrite fold_register_other.
    + unfold register, jsSet. destruct m as [[n ps] b]. cbn [fst] in *.
      unfold definitionOf at 1. cbn [name].
      rewrite decide_False by done.
      unfold definitionOf at 1. cbn [name]. apply lookup_insert_eq.
    + intros m' Hm'. by apply Hlater.
  - intros comps md pre nm body post Hpre Hne Hnm Hproto Hbody Hs.
    unfold buildDefinitions. destruct (splitGlobal md) as [g sl].
    cbn [fst snd] in *. subst sl.
    destruct (extractDefinitions comps g) as [c1 pg] eqn:Eg.
    rewrite extractDefinitions_block by done.
    unfold extractDefinitions in Eg. by injection Eg as <- <-.
  - intros comps md pre nm body post Hpre Hne Hnm Hproto Hbody Hg.
    unfold buildDefinitions. destruct (splitGlobal md) as [g sl].
    cbn [fst snd] in *. subst g.
    by rewrite extractDefinitions_block by done.
Qed.

Lemma definitions_from_both_regions_witness :
  buildDefinitions ∅
    ("---global" +:+ nl +:+ "# One" +:+ defineBlock "foot" " page {{n}} "
     +:+ "text")
  = (<["foot" := plainDef "foot" " page {{n}} "]> ∅, "",
     (nl +:+ "# One") +:+ "text").
Proof.
  destruct definitions_from_both_regions as (_ & H & _).
  apply (H ∅ ("---global" +:+ nl +:+ "# One"
              +:+ defineBlock "foot" " page {{n}} " +:+ "text")
           (nl +:+ "# One") "foot" " page {{n}} " "text");
    [reflexivity | discriminate | reflexivity | discriminate
    | reflexivity | reflexivity].
Defined.

End Definitions.

(* ===================================================================== *)
(** * Properties of the disclosure state machine *)
(* ===================================================================== *)

Import Disclosure.

Section CanonicalOrder.

Implicit Types (hs : list Z) (c h : Z) (k : nat).

Local Arguments chunkPairs : simpl never.

Lemma chunkPairs_length c h : length (chunkPairs c h) = S (Z.to_nat h).
Proof. unfold chunkPairs. by rewrite length_map, length_seq. Qed.

Lemma chunkPairs_lookup c h k :
  (k <= Z.to_nat h)%nat -> chunkPairs c h !! k = Some (c, Z.of_nat k).
Proof.
  intros Hk. unfold chunkPairs.
  rewrite list_lookup_fmap, lookup_seq_lt by lia. done.
Qed.

Lemma canonicalFrom_length hs c c' :
  length (canonicalFrom hs c) = length (canonicalFrom hs c').
Proof.
  revert c c'. induction hs as [|h hs IH]; intros c c'; cbn [canonicalFrom]; [done|].
  rewrite !length_app, !chunkPairs_length. by rewrite (IH (c + 1) (c' + 1)).
Qed.

Lemma canonicalFrom_app hs1 hs2 c :
  canonicalFrom (hs1 ++ hs2) c
  = (canonicalFrom hs1 c ++ canonicalFrom hs2 (c + Z.of_nat (length hs1)))%list.
Proof.
  revert c. induction hs1 as [|h hs1 IH]; intros c; cbn [canonicalFrom app length].
  - by rewrite Z.add_0_r.
  - rewrite IH, <- app_assoc. do 3 f_equal. lia.
Qed.

(** A position of the ordering holds the pair [(c, h)] exactly when [c]
    is a chunk, [h] is between 0 and its highlight count, and the
    position counts the pairs of the chunks before and the highlights
    before [h]. *)
Lemma canonicalFrom_lookup hs c0 k c h :
  Forall (fun x => 0 <= x) hs ->
  canonicalFrom hs c0 !! k = Some (c, h) <->
  exists H1 hc H2,
    hs = (H1 ++ hc :: H2)%list /\ c = c0 + Z.of_nat (length H1) /\
    0 <= h <= hc /\
    k = (length (canonicalFrom H1 c0) + Z.to_nat h)%nat.
Proof.
  intros Hnn. revert c0 k. induction Hnn as [|h0 hs Hh0 Hnn IH]; intros c0 k.
  - cbn [canonicalFrom]. split; [done|]. intros (H1 & hc & H2 & E & _). by destruct H1.
  - cbn [canonicalFrom]. split.
    + intros Hk. destruct (decide (k <= Z.to_nat h0)%nat) as [Hle|Hgt].
      * rewrite lookup_app_l in Hk by (rewrite chunkPairs_length; lia).
        rewrite chunkPairs_lookup in Hk by done. simplify_eq.
        exists [], h0, hs. cbn [canonicalFrom app length]. repeat split; lia.
      * rewrite lookup_app_r in Hk by (rewrite chunkPairs_length; lia).
        rewrite chunkPairs_length in Hk.
        apply IH in Hk as (H1 & hc & H2 & -> & -> & Hr & Hk).
        exists (h0 :: H1), hc, H2. cbn [canonicalFrom app length].
        rewrite length_app, chunkPairs_length.
        repeat split; try lia.
    + intros (H1 & hc & H2 & E & -> & Hr & ->).
      destruct H1 as [|h1 H1]; cbn [canonicalFrom app length] in *; simplify_eq.
      * rewrite lookup_app_l by (rewrite chunkPairs_length; lia).
        rewrite chunkPairs_lookup by lia. f_equal. f_equal; lia.
      * rewrite length_app, chunkPairs_length.
        rewrite lookup_app_r by (rewrite chunkPairs_length; lia).
        rewrite chunkPairs_length.
        apply IH. exists H1, hc, H2. repeat split; try lia.
Qed.

End CanonicalOrder.

Section Machine.

Implicit Types (s : SlideState) (k : nat).

Ltac bool_to_Z :=
  repeat match goal with
  | H : (_ <? _) = true |- _ => apply Z.ltb_lt in H
  | H : (_ <? _) = false |- _ => apply Z.ltb_ge in H
  | H : (_ <=? _) = true |- _ => apply Z.leb_le in H
  | H : (_ <=? _) = false |- _ => apply Z.leb_gt in H
  end.

Lemma arrayGet_Some {A} (a : list A) (i : Z) :
  0 <= i < Z.of_nat (length a) -> is_Some (arrayGet a i).
Proof.
  intros Hi. unfold arrayGet. destruct (Z.ltb_spec i 0); [lia|].
  apply lookup_lt_is_Some. lia.
Qed.

Lemma highlightsAt_nonneg hs i :
  Forall (fun h => 0 <= h) hs -> 0 <= highlightsAt hs i.
Proof.
  intros Hnn. unfold highlightsAt, arrayGet.
  destruct (i <? 0); [done|].
  destruct (hs !! Z.to_nat i) as [h|] eqn:E; [|done].
  eapply Forall_lookup_1 in Hnn; eauto.
Qed.

Lemma chunkHighlights_nonneg s :
  Forall (fun h => 0 <= h) (highlightsPerStep s) ->
  Forall (fun h => 0 <= h) (chunkHighlights s).
Proof.
  intros Hnn. unfold chunkHighlights. apply Forall_fmap, Forall_forall.
  intros i _. by apply highlightsAt_nonneg.
Qed.

Lemma chunkHighlights_length s :
  length (chunkHighlights s) = Z.to_nat (totalSteps s).
Proof. unfold chunkHighlights. by rewrite length_map, length_seq. Qed.

Lemma chunkHighlights_split s (H1 H2 : list Z) hc :
  chunkHighlights s = (H1 ++ hc :: H2)%list ->
  highlightsAt (highlightsPerStep s) (Z.of_nat (length H1)) = hc /\
  totalSteps s = Z.of_nat (length H1) + 1 + Z.of_nat (length H2).
Proof.
  intros E. split.
  - assert (chunkHighlights s !! length H1 = Some hc) as Hl.
    { rewrite E. by apply list_lookup_middle. }
    unfold chunkHighlights in Hl. rewrite list_lookup_fmap in Hl.
    destruct (seq 0 (Z.to_nat (totalSteps s)) !! length H1) as [i|] eqn:Es;
      [|done].
    apply lookup_seq in Es as [-> _]. simpl in Hl. by simplify_eq.
  - pose proof (chunkHighlights_length s) as Hlen. rewrite E in Hlen.
    rewrite length_app in Hlen. simpl in Hlen. lia.
Qed.

Lemma ranked_at_pos s :
  Forall (fun h => 0 <= h) (highlightsPerStep s) ->
  ranked s <->
  1 <= currentMicroStep s /\ at_pos s (Z.to_nat (currentMicroStep s - 1)).
Proof.
  intros Hnn. unfold ranked, at_pos, canonical, cursor.
  rewrite canonicalFrom_lookup by by apply chunkHighlights_nonneg.
  done.
Qed.

Lemma canonical_snoc_length (H1 : list Z) hc :
  length (canonical (H1 ++ [hc])) = (length (canonical H1) + S (Z.to_nat hc))%nat.
Proof.
  unfold canonical. rewrite canonicalFrom_app, length_app.
  cbn [canonicalFrom]. rewrite length_app, chunkPairs_length. simpl. lia.
Qed.

Lemma canonical_split_length (H1 H2 : list Z) hc :
  length (canonical (H1 ++ hc :: H2))
  = (length (canonical H1) + S (Z.to_nat hc) + length (canonical H2))%nat.
Proof.
  unfold canonical. rewrite canonicalFrom_app, length_app.
  cbn [canonicalFrom]. rewrite length_app, chunkPairs_length.
  rewrite (canonicalFrom_length H2 _ 1). lia.
Qed.

Lemma canonical_nil_length (H : list Z) :
  length (canonical H) = 0%nat -> H = [].
Proof.
  destruct H as [|h H]; [done|]. unfold canonical. cbn [canonicalFrom].
  rewrite length_app, chunkPairs_length. lia.
Qed.

(** A forward step from position [k] that is not the last one leads to
    position [k + 1] and adds one to [currentMicroStep]. *)
Lemma nextStep_at_pos s k :
  initialised s -> at_pos s k ->
  (S k < length (canonical (chunkHighlights s)))%nat ->
  at_pos (nextStep s).1 (S k) /\
  currentMicroStep (nextStep s).1 = currentMicroStep s + 1 /\
  chunkHighlights (nextStep s).1 = chunkHighlights s.
Proof.
  intros [(bl & Hbl & Htot) Hnn] (H1 & hc & H2 & E & Hc & Hh & ->) Hlt.
  destruct (chunkHighlights_split _ _ _ _ E) as [Hat Htotal].
  rewrite E, canonical_split_length in Hlt.
  unfold nextStep. rewrite Hbl.
  replace (currentStep s - 1) with (Z.of_nat (length H1)) by lia.
  rewrite Hat.
  destruct (Z.ltb_spec (currentHighlight s) hc) as [Hlt'|Hge].
  - assert (at_pos (setCursor s (currentStep s) (currentHighlight s + 1)
                              (currentMicroStep s + 1))
                   (S (length (canonical H1) + Z.to_nat (currentHighlight s)))).
    { exists H1, hc, H2. simpl. repeat split; try done; try lia. }
    destruct (arrayGet bl (Z.of_nat (length H1))); simpl; done.
  - assert (currentHighlight s = hc) as Hhc by lia.
    destruct H2 as [|h2 H2].
    { simpl in Hlt. lia. }
    simpl in Htotal.
    destruct (Z.leb_spec (totalSteps s) (currentStep s)); [lia|].
    destruct (arrayGet_Some bl (currentStep s)) as [b ->]; [lia|].
    simpl. split; [|done].
    exists (H1 ++ [hc])%list, h2, H2. simpl.
    rewrite <- app_assoc. simpl. rewrite length_app, canonical_snoc_length.
    simpl.
    assert (0 <= h2).
    { pose proof (chunkHighlights_nonneg s Hnn) as Hall. rewrite E in Hall.
      apply Forall_app in Hall as [_ Hall].
      apply Forall_cons in Hall as [_ Hall]. by apply Forall_cons in Hall as [? _]. }
    repeat split; try done; lia.
Qed.

(** At the last position a forward step changes nothing and reports
    that there is no further step. *)
Lemma nextStep_last s k :
  initialised s -> at_pos s k ->
  S k = length (canonical (chunkHighlights s)) ->
  nextStep s = (s, Ret false).
Proof.
  intros [(bl & Hbl & Htot) Hnn] (H1 & hc & H2 & E & Hc & Hh & ->) Hlast.
  destruct (chunkHighlights_split _ _ _ _ E) as [Hat Htotal].
  rewrite E, canonical_split_length in Hlast.
  assert (H2 = []) as -> by (apply canonical_nil_length; lia).
  simpl in Htotal.
  unfold nextStep. rewrite Hbl.
  replace (currentStep s - 1) with (Z.of_nat (length H1)) by lia.
  rewrite Hat.
  destruct (Z.ltb_spec (currentHighlight s) hc); [lia|].
  destruct (Z.leb_spec (totalSteps s) (currentStep s)); [done|lia].
Qed.

Lemma at_pos_bound s k :
  at_pos s k -> (k < length (canonical (chunkHighlights s)))%nat.
Proof.
  intros (H1 & hc & H2 & E & Hc & Hh & ->).
  rewrite E, canonical_split_length. lia.
Qed.

(** A backward step from a position other than the first leads to the
    position before and subtracts one from [currentMicroStep]. *)
Lemma prevStep_at_pos s k :
  initialised s -> at_pos s (S k) ->
  at_pos (prevStep s).1 k /\
  currentMicroStep (prevStep s).1 = currentMicroStep s - 1.
Proof.
  intros [(bl & Hbl & Htot) Hnn] (H1 & hc & H2 & E & Hc & Hh & Hk).
  destruct (chunkHighlights_split _ _ _ _ E) as [Hat Htotal].
  unfold prevStep. rewrite Hbl.
  destruct (Z.ltb_spec 0 (currentHighlight s)) as [Hpos|Hzero].
  - cbn [currentHighlight setCursor currentStep].
    assert (at_pos (setCursor s (currentStep s) (currentHighlight s - 1)
                              (currentMicroStep s - 1)) k).
    { exists H1, hc, H2. simpl. repeat split; try done; lia. }
    destruct (0 <? currentHighlight s - 1); simpl; done.
  - assert (currentHighlight s = 0) as Hz by lia. rewrite Hz in Hk.
    destruct (list_eq_nil_dec H1) as [->|Hne]; [simpl in Hk; lia|].
    destruct (exists_last Hne) as (H1' & hp & ->).
    rewrite length_app in Hc, Htotal. simpl in Hc, Htotal.
    rewrite canonical_snoc_length in Hk.
    destruct (Z.leb_spec (currentStep s) 1); [lia|].
    destruct (arrayGet_Some bl (currentStep s - 1)) as [b ->]; [lia|].
    cbn [currentHighlight setCursor currentStep highlightsPerStep currentMicroStep].
    rewrite <- app_assoc in E. simpl in E.
    destruct (chunkHighlights_split _ _ _ _ E) as [Hat' _].
    replace (currentStep s - 1 - 1) with (Z.of_nat (length H1')) by lia.
    rewrite Hat'.
    assert (0 <= hp).
    { pose proof (chunkHighlights_nonneg s Hnn) as Hall. rewrite E in Hall.
      apply Forall_app in Hall as [_ Hall]. by apply Forall_cons in Hall as [? _]. }
    destruct (Z.ltb_spec 0 hp) as [Hp|Hp]; simpl; (split; [|done]).
    + exists H1', hp, (hc :: H2). simpl. repeat split; try done; lia.
    + exists H1', hp, (hc :: H2). simpl. repeat split; try done; lia.
Qed.


Lemma nextStep_frame s :
  highlightsPerStep (nextStep s).1 = highlightsPerStep s /\
  totalSteps (nextStep s).1 = totalSteps s /\
  totalMicroSteps (nextStep s).1 = totalMicroSteps s /\
  blocks (nextStep s).1 = blocks s.
Proof.
  unfold nextStep. repeat case_match; simpl; repeat split; congruence.
Qed.

Lemma prevStep_frame s :
  highlightsPerStep (prevStep s).1 = highlightsPerStep s /\
  totalSteps (prevStep s).1 = totalSteps s /\
  totalMicroSteps (prevStep s).1 = totalMicroSteps s /\
  blocks (prevStep s).1 = blocks s.
Proof.
  unfold prevStep. repeat case_match; simpl; repeat split; congruence.
Qed.

Lemma initialised_frame s s' :
  highlightsPerStep s' = highlightsPerStep s ->
  totalSteps s' = totalSteps s ->
  blocks s' = blocks s ->
  initialised s -> initialised s'.
Proof. unfold initialised. by intros -> -> ->. Qed.

Lemma chunkHighlights_frame s s' :
  highlightsPerStep s' = highlightsPerStep s ->
  totalSteps s' = totalSteps s ->
  chunkHighlights s' = chunkHighlights s.
Proof. unfold chunkHighlights. by intros -> ->. Qed.

Lemma initialised_nextStep s : initialised s -> initialised (nextStep s).1.
Proof.
  destruct (nextStep_frame s) as (? & ? & ? & ?). by apply initialised_frame.
Qed.

Lemma initialised_prevStep s : initialised s -> initialised (prevStep s).1.
Proof.
  destruct (prevStep_frame s) as (? & ? & ? & ?). by apply initialised_frame.
Qed.

(** At the first position a backward step changes nothing. *)
Lemma prevStep_first s :
  initialised s -> at_pos s 0 -> prevStep s = (s, Ret false).
Proof.
  intros [(bl & Hbl & Htot) Hnn] (H1 & hc & H2 & E & Hc & Hh & Hk).
  assert (H1 = []) as -> by (apply canonical_nil_length; lia).
  simpl in Hc. unfold prevStep. rewrite Hbl.
  destruct (Z.ltb_spec 0 (currentHighlight s)); [lia|].
  destruct (Z.leb_spec (currentStep s) 1); [done|lia].
Qed.

Lemma at_pos_first s :
  Forall (fun h => 0 <= h) (highlightsPerStep s) ->
  chunkHighlights s <> [] ->
  currentStep s = 1 -> currentHighlight s = 0 -> at_pos s 0.
Proof.
  intros Hnn Hne Hc Hh.
  destruct (chunkHighlights s) as [|h0 H] eqn:E; [done|].
  exists [], h0, H. rewrite Hh. repeat split; try done.
  pose proof (chunkHighlights_nonneg s Hnn) as Hall. rewrite E in Hall.
  by apply Forall_cons in Hall as [? _].
Qed.

(** C3 (as amended): [nextStep], [prevStep] and [resetSlide] keep
    [currentMicroStep] equal to the 1-based rank of the cursor in the
    canonical ordering.  [showAllSteps] puts the cursor on the content
    of the last chunk and [currentMicroStep] on [totalMicroSteps]: when
    that is the number of micro-steps, the result is ranked exactly if
    the last chunk has no highlight. *)
Theorem rank_preserved s :
  initialised s -> ranked s ->
  ranked (nextStep s).1 /\
  ranked (prevStep s).1 /\
  ranked (resetSlide s) /\
  (totalMicroSteps s = Z.of_nat (length (canonical (chunkHighlights s))) ->
   (ranked (showAllSteps s) <->
    highlightsAt (highlightsPerStep s) (totalSteps s - 1) = 0)).
Proof.
  intros Hinit Hr. pose proof Hinit as [(bl & Hbl & Htot) Hnn].
  apply ranked_at_pos in Hr as [Hm Hat]; [|done].
  pose proof (at_pos_bound _ _ Hat) as Hb.
  split; [|split; [|split]].
  - (* nextStep *)
    destruct (nextStep_frame s) as (Hhs & Hts & _ & _).
    apply ranked_at_pos; [by rewrite Hhs|].
    destruct (decide (S (Z.to_nat (currentMicroStep s - 1))
                      < length (canonical (chunkHighlights s)))%nat) as [Hlt|Hge].
    + destruct (nextStep_at_pos _ _ Hinit Hat Hlt) as (Hat' & Hm' & _).
      rewrite Hm'. split; [lia|].
      replace (Z.to_nat (currentMicroStep s + 1 - 1))
        with (S (Z.to_nat (currentMicroStep s - 1))) by lia. done.
    + rewrite (nextStep_last _ _ Hinit Hat) by lia. done.
  - (* prevStep *)
    destruct (prevStep_frame s) as (Hhs & Hts & _ & _).
    apply ranked_at_pos; [by rewrite Hhs|].
    destruct (Z.to_nat (currentMicroStep s - 1)) as [|k] eqn:Ek.
    + rewrite (prevStep_first _ Hinit Hat). simpl. by rewrite Ek.
    + destruct (prevStep_at_pos _ _ Hinit Hat) as (Hat' & Hm').
      rewrite Hm'. split; [lia|].
      replace (Z.to_nat (currentMicroStep s - 1 - 1)) with k by lia. done.
  - (* resetSlide *)
    unfold resetSlide. rewrite Hbl.
    apply ranked_at_pos; [done|]. simpl. split; [lia|].
    apply at_pos_first; try done.
    destruct Hat as (H1 & hc & H2 & E & _).
    change (chunkHighlights s <> []). rewrite E. by destruct H1.
  - (* showAllSteps *)
    intros Htm. unfold showAllSteps. rewrite Hbl.
    rewrite ranked_at_pos by done. simpl.
    destruct Hat as (H1 & hc & H2 & E & _).
    assert (chunkHighlights s <> []) as Hne by (rewrite E; by destruct H1).
    destruct (exists_last Hne) as (Hinit' & hl & El).
    destruct (chunkHighlights_split s Hinit' [] hl El) as [Hat0 Htotal].
    simpl in Htotal.
    replace (totalSteps s - 1) with (Z.of_nat (length Hinit')) by lia.
    rewrite Hat0.
    assert (0 <= hl) as Hhl.
    { pose proof (chunkHighlights_nonneg s Hnn) as Hall. rewrite El in Hall.
      apply Forall_app in Hall as [_ Hall]. by apply Forall_cons in Hall as [? _]. }
    pose proof (canonical_snoc_length Hinit' hl) as Hlen.
    rewrite <- El in Hlen.
    split.
    + intros [_ (G1 & gc & G2 & EG & Hc & Hh & Hk)].
      change (chunkHighlights s = (G1 ++ gc :: G2)%list) in EG.
      destruct (chunkHighlights_split s G1 G2 gc EG) as [_ Htotal'].
      assert (G2 = []) as -> by (destruct G2; [done|simpl in *; lia]).
      rewrite El in EG. apply app_inj_tail in EG as [-> ->].
      simpl in Hk. rewrite Htm in Hk. lia.
    + intros ->. split; [lia|].
      exists Hinit', 0, []. simpl. rewrite Htm.
      repeat split; try done; lia.
Qed.


Lemma rank_preserved_witness :
  ranked (nextStep oneHighlightSlide).1 /\
  ranked (prevStep oneHighlightSlide).1 /\
  ranked (resetSlide oneHighlightSlide).
Proof.
  destruct (rank_preserved oneHighlightSlide) as (H1 & H2 & H3 & _).
  - split; [exists [1%nat]; split; reflexivity | repeat constructor; lia].
  - split; [unfold oneHighlightSlide; simpl; lia | reflexivity].
  - exact (conj H1 (conj H2 H3)).
Defined.

(** [showAllSteps] on a slide whose only chunk has one highlight: the
    cursor is (1, 0), of rank 1, and [currentMicroStep] is 2. *)
Lemma showAllSteps_breaks_rank :
  initialised oneHighlightSlide /\ ranked oneHighlightSlide /\
  cursor (showAllSteps oneHighlightSlide) = (1, 0) /\
  currentMicroStep (showAllSteps oneHighlightSlide) = 2 /\
  ~ ranked (showAllSteps oneHighlightSlide).
Proof.
  split; [split; [exists [1%nat]; split; reflexivity | repeat constructor; lia]|].
  split; [split; [unfold oneHighlightSlide; simpl; lia | reflexivity]|].
  split; [reflexivity|]. split; [reflexivity|].
  intros [_ H]. vm_compute in H. discriminate H.
Qed.

(** ** Micro-step completeness *)

Lemma chunkHighlights_consistent s :
  totalSteps s = Z.of_nat (length (highlightsPerStep s)) ->
  chunkHighlights s = highlightsPerStep s.
Proof.
  intros Hlen. apply list_eq. intros i. unfold chunkHighlights.
  rewrite list_lookup_fmap, Hlen, Nat2Z.id.
  destruct (decide (i < length (highlightsPerStep s))%nat) as [Hlt|Hge].
  - rewrite lookup_seq_lt by done. simpl.
    unfold highlightsAt, arrayGet.
    destruct (Z.ltb_spec (Z.of_nat i) 0); [lia|]. rewrite Nat2Z.id.
    destruct (lookup_lt_is_Some_2 _ _ Hlt) as [h ->]. done.
  - rewrite lookup_seq_ge by lia. simpl.
    symmetry. apply lookup_ge_None. lia.
Qed.

Lemma canonicalFrom_total hs c :
  Forall (fun h => 0 <= h) hs ->
  foldr (fun h acc => 1 + h + acc) 0 hs
  = Z.of_nat (length (canonicalFrom hs c)).
Proof.
  intros Hnn. revert c. induction Hnn as [|h hs Hh _ IH]; intros c; [done|].
  cbn [foldr canonicalFrom]. rewrite length_app, chunkPairs_length, (IH (c + 1)).
  lia.
Qed.

Lemma at_pos_cursor s k :
  Forall (fun h => 0 <= h) (highlightsPerStep s) ->
  at_pos s k -> canonical (chunkHighlights s) !! k = Some (cursor s).
Proof.
  intros Hnn Hat. unfold canonical, cursor.
  apply canonicalFrom_lookup; [by apply chunkHighlights_nonneg|]. done.
Qed.

(** From position [k], [n] forward steps that stay inside the ordering
    visit the next [n] positions one after the other. *)
Lemma advance_visits n : forall s k,
  initialised s -> at_pos s k -> currentMicroStep s = Z.of_nat k + 1 ->
  (k + n < length (canonical (chunkHighlights s)))%nat ->
  map cursor (advance n s)
  = take (S n) (drop k (canonical (chunkHighlights s))) /\
  map currentMicroStep (advance n s) = map Z.of_nat (seq (S k) (S n)) /\
  exists s', last (advance n s) = Some s' /\ initialised s' /\
             at_pos s' (k + n) /\ chunkHighlights s' = chunkHighlights s.
Proof.
  induction n as [|n IH]; intros s k Hinit Hat Hm Hlt.
  - pose proof Hinit as [_ Hnn].
    pose proof (at_pos_cursor _ _ Hnn Hat) as Hc.
    cbn [advance map]. rewrite (drop_S _ _ _ Hc). cbn [take seq map].
    rewrite take_0. split; [done|]. split; [by rewrite Hm; f_equal; lia|].
    exists s. rewrite Nat.add_0_r. done.
  - pose proof Hinit as [_ Hnn].
    pose proof (at_pos_cursor _ _ Hnn Hat) as Hc.
    destruct (nextStep_at_pos s k Hinit Hat) as (Hat' & Hm' & Hch); [lia|].
    destruct (IH (nextStep s).1 (S k)) as (IH1 & IH2 & s' & IH3 & IH4 & IH5 & IH6).
    { by apply initialised_nextStep. }
    { done. }
    { lia. }
    { rewrite Hch. lia. }
    cbn [advance map]. rewrite (drop_S _ _ _ Hc).
    rewrite IH1, IH2, Hch. split; [done|]. split.
    { cbn [seq map]. f_equal. lia. }
    exists s'. split; [|split; [done|split]].
    + cbn [advance]. destruct n; exact IH3.
    + by replace (k + S n)%nat with (S k + n)%nat by lia.
    + by rewrite IH6.
Qed.

Lemma canonical_NoDup hs :
  Forall (fun h => 0 <= h) hs -> NoDup (canonical hs).
Proof.
  intros Hnn. apply NoDup_alt. intros i j [c h] Hi Hj.
  apply (canonicalFrom_lookup _ _ _ _ _ Hnn) in Hi
    as (H1 & hc & H2 & E & Hc & _ & ->).
  apply (canonicalFrom_lookup _ _ _ _ _ Hnn) in Hj
    as (G1 & gc & G2 & E' & Hc' & _ & ->).
  assert (length H1 = length G1) as Hlen by lia.
  rewrite E in E'. apply app_inj_1 in E' as [-> _]; done.
Qed.

Lemma canonical_elem_of hs c h :
  Forall (fun x => 0 <= x) hs ->
  (c, h) ∈ canonical hs <->
  exists hc, 1 <= c /\ hs !! Z.to_nat (c - 1) = Some hc /\ 0 <= h <= hc.
Proof.
  intros Hnn. rewrite list_elem_of_lookup. split.
  - intros [k Hk].
    apply (canonicalFrom_lookup _ _ _ _ _ Hnn) in Hk
      as (H1 & hc & H2 & -> & -> & Hh & _).
    exists hc. split; [lia|]. split; [|done].
    replace (Z.to_nat (1 + Z.of_nat (length H1) - 1)) with (length H1) by lia.
    by apply list_lookup_middle.
  - intros (hc & Hc & Hl & Hh).
    apply list_elem_of_split_length in Hl as (H1 & H2 & -> & Hlen).
    exists (length (canonical H1) + Z.to_nat h)%nat.
    apply (canonicalFrom_lookup _ _ _ _ _ Hnn).
    exists H1, hc, H2. repeat split; try done; lia.
Qed.

(** ** Advance and retreat *)

Lemma initSlide_initialised st dom :
  (forall s, st = Some s -> Forall (fun h => 0 <= h) (highlightsPerStep s)) ->
  initialised (initSlide st dom).
Proof.
  intros Hst. split; [by exists dom|]. simpl.
  destruct st as [s|]; simpl.
  - specialize (Hst s eq_refl).
    destruct (highlightsPerStep s) eqn:E; [|done].
    apply Forall_fmap, Forall_forall. intros; simpl; lia.
  - apply Forall_fmap, Forall_forall. intros; simpl; lia.
Qed.

Lemma reachable_inBounds s : reachable s -> inBounds s.
Proof.
  induction 1 as [hs dom Hnn|dom|s _ IH|s _ IH|s _ IH|s _ IH].
  - split; [apply initSlide_initialised; by intros ? [= <-]|].
    simpl. repeat split; try lia.
    apply highlightsAt_nonneg. destruct hs; [|done].
    apply Forall_fmap, Forall_forall. intros; simpl; lia.
  - split; [apply initSlide_initialised; by intros ? [=]|].
    simpl. repeat split; try lia.
    apply highlightsAt_nonneg, Forall_fmap, Forall_forall. intros; simpl; lia.
  - destruct IH as (Hinit & Hh & Hc0 & Hc1 & Hc2).
    split; [by apply initialised_nextStep|].
    destruct Hinit as [(bl & Hbl & Htot) Hnn].
    unfold nextStep. rewrite Hbl.
    repeat case_match; simpl; repeat split; try lia;
      try (apply highlightsAt_nonneg; done).
  - destruct IH as (Hinit & Hh & Hc0 & Hc1 & Hc2).
    split; [by apply initialised_prevStep|].
    destruct Hinit as [(bl & Hbl & Htot) Hnn].
    unfold prevStep. rewrite Hbl.
    repeat case_match; bool_to_Z; simpl in *; repeat split; try lia.
    pose proof (highlightsAt_nonneg (highlightsPerStep s)
                  (currentStep s - 1 - 1) Hnn). lia.
  - destruct IH as (Hinit & Hh & Hc0 & Hc1 & Hc2).
    pose proof Hinit as [(bl & Hbl & Htot) Hnn].
    unfold resetSlide. rewrite Hbl.
    split; [split; [by exists bl|done]|]. simpl.
    repeat split; try lia. by apply highlightsAt_nonneg.
  - destruct IH as (Hinit & Hh & Hc0 & Hc1 & Hc2).
    pose proof Hinit as [(bl & Hbl & Htot) Hnn].
    unfold showAllSteps. rewrite Hbl.
    split; [split; [by exists bl|done]|]. simpl.
    repeat split; try lia. by apply highlightsAt_nonneg.
Qed.

Lemma setCursor_id s :
  setCursor s (currentStep s) (currentHighlight s) (currentMicroStep s) = s.
Proof. by destruct s. Qed.

Lemma setCursor_setCursor s a b c a' b' c' :
  setCursor (setCursor s a b c) a' b' c' = setCursor s a' b' c'.
Proof. done. Qed.

(** C5: from a reachable state that has a next step, [nextStep] followed
    by [prevStep] gives the state back, cursor and [currentMicroStep]
    included; and a backward step from the content of a chunk moves to
    the chunk before with all its highlights shown. *)
Theorem advance_retreat_inverse s :
  reachable s ->
  (hasNextStep s = true ->
   let s2 := (prevStep (nextStep s).1).1 in
   cursor s2 = cursor s /\ s2 = s) /\
  (currentHighlight s = 0 -> 1 < currentStep s ->
   cursor (prevStep s).1
   = (currentStep s - 1,
      highlightsAt (highlightsPerStep s) (currentStep s - 2))).
Proof.
  intros Hr. apply reachable_inBounds in Hr
    as ([(bl & Hbl & Htot) Hnn] & Hh & Hc0 & Hc1 & Hc2).
  destruct s as [c h t hs tm m b].
  simpl in Hbl, Htot, Hnn, Hh, Hc0, Hc1, Hc2. subst b.
  split.
  - intros Hnext s2. enough (s2 = mkState c h t hs tm m (Some bl)) as -> by done.
    subst s2. unfold hasNextStep in Hnext. unfold nextStep. simpl in *.
    destruct (Z.ltb_spec h (highlightsAt hs (c - 1))) as [Hlt|Hge].
    + assert (forall o : outcome bool,
                (prevStep (mkState c (h + 1) t hs tm (m + 1) (Some bl), o).1).1
                = mkState c h t hs tm m (Some bl)) as Hgoal.
      { intros o. unfold prevStep. simpl.
        destruct (Z.ltb_spec 0 (h + 1)); [|lia].
        replace (h + 1 - 1) with h by lia. replace (m + 1 - 1) with m by lia.
        by destruct (0 <? h). }
      unfold setCursor. simpl. destruct (arrayGet bl (c - 1)); apply Hgoal.
    + apply Z.ltb_lt in Hnext.
      destruct (Z.leb_spec t c); [lia|].
      destruct (arrayGet_Some bl c) as [b' Eb]; [lia|]. rewrite Eb.
      unfold prevStep, setCursor. simpl.
      destruct (Z.leb_spec (c + 1) 1); [lia|].
      replace (c + 1 - 1) with c by lia. rewrite Eb. simpl.
      replace (m + 1 - 1) with m by lia.
      destruct (Z.ltb_spec 0 (highlightsAt hs (c - 1))); simpl;
        f_equal; lia.
  - simpl. intros -> Hc. unfold prevStep, cursor, setCursor. simpl.
    destruct (Z.leb_spec c 1); [lia|].
    destruct (arrayGet_Some bl (c - 1)) as [b' ->]; [lia|]. simpl.
    replace (c - 1 - 1) with (c - 2) by lia.
    pose proof (highlightsAt_nonneg hs (c - 2) Hnn).
    destruct (Z.ltb_spec 0 (highlightsAt hs (c - 2))); simpl; f_equal; lia.
Qed.

Lemma advance_retreat_inverse_witness :
  (prevStep (nextStep (nextStep (nextStep twoChunkSlide).1).1).1).1
  = (nextStep (nextStep twoChunkSlide).1).1 /\
  cursor (prevStep (nextStep (nextStep (nextStep twoChunkSlide).1).1).1).1
  = (1, 2).
Proof.
  destruct (advance_retreat_inverse (nextStep (nextStep twoChunkSlide).1).1)
    as [H1 _].
  - do 2 apply reach_next. apply reach_parsed. repeat constructor; lia.
  - destruct (H1 eq_refl) as [Hc Hs]. split; [exact Hs | exact Hc].
Defined.

(** C9: [nextStep] returns true whenever it shows a highlight, and the
    value of [hasNextStep] on the new state whenever it shows a chunk.
    So it returns true on the step that reaches the last micro-step by a
    highlight, and false on the step that reaches it by a chunk, though
    that step changes the state. *)
Theorem nextStep_result :
  (forall s, reachable s -> 1 <= currentStep s <= totalSteps s ->
     currentHighlight s
       < highlightsAt (highlightsPerStep s) (currentStep s - 1) ->
     nextStep s
     = (setCursor s (currentStep s) (currentHighlight s + 1)
                  (currentMicroStep s + 1), Ret true)) /\
  (forall s, reachable s ->
     currentHighlight s
       = highlightsAt (highlightsPerStep s) (currentStep s - 1) ->
     currentStep s < totalSteps s ->
     let s' := setCursor s (currentStep s + 1) 0 (currentMicroStep s + 1) in
     nextStep s = (s', Ret (hasNextStep s'))) /\
  (exists s, reachable s /\ (nextStep s).2 = Ret true /\
             hasNextStep (nextStep s).1 = false) /\
  (exists s, reachable s /\ (nextStep s).2 = Ret false /\
             (nextStep s).1 <> s).
Proof.
  split; [|split; [|split]].
  - intros s Hr Hc Hlt. apply reachable_inBounds in Hr
      as ([(bl & Hbl & Htot) Hnn] & Hh & Hc0 & Hc1 & Hc2).
    unfold nextStep. rewrite Hbl.
    destruct (Z.ltb_spec (currentHighlight s)
                (highlightsAt (highlightsPerStep s) (currentStep s - 1)));
      [|lia].
    destruct (arrayGet_Some bl (currentStep s - 1)) as [b ->]; [lia|]. done.
  - intros s Hr Heq Hlt s'. apply reachable_inBounds in Hr
      as ([(bl & Hbl & Htot) Hnn] & Hh & Hc0 & Hc1 & Hc2).
    unfold nextStep. rewrite Hbl.
    destruct (Z.ltb_spec (currentHighlight s)
                (highlightsAt (highlightsPerStep s) (currentStep s - 1)));
      [lia|].
    destruct (Z.leb_spec (totalSteps s) (currentStep s)); [lia|].
    destruct (arrayGet_Some bl (currentStep s)) as [b ->]; [lia|]. done.
  - exists (initSlide (Some (parsedState [1])) [1%nat]).
    split; [apply reach_parsed; repeat constructor; lia|]. done.
  - exists (initSlide (Some (parsedState [0; 0])) [0%nat; 0%nat]).
    split; [apply reach_parsed; repeat constructor; lia|]. done.
Qed.

Lemma nextStep_result_witness :
  nextStep oneHighlightSlide
  = (setCursor oneHighlightSlide 1 1 2, Ret true) /\
  nextStep (nextStep (nextStep twoChunkSlide).1).1
  = (setCursor twoChunkSlide 2 0 4, Ret false).
Proof.
  destruct nextStep_result as (H1 & H2 & _). split.
  - apply (H1 oneHighlightSlide).
    + apply reach_parsed. repeat constructor; lia.
    + unfold oneHighlightSlide; simpl; lia.
    + reflexivity.
  - apply (H2 (nextStep (nextStep twoChunkSlide).1).1).
    + do 2 apply reach_next. apply reach_parsed. repeat constructor; lia.
    + reflexivity.
    + unfold twoChunkSlide; simpl; lia.
Defined.

End Machine.

(* ===================================================================== *)
(** * Further properties: navigation, texts, templates, slides *)
(* ===================================================================== *)

Import Fragment Component Matcha Disclosure.
Import Navigation Slides Markdown Params Markers TemplateText.


Section Moves.

Implicit Types (s : SlideState).

Ltac to_Z :=
  repeat match goal with
  | H : (_ <? _) = true |- _ => apply Z.ltb_lt in H
  | H : (_ <? _) = false |- _ => apply Z.ltb_ge in H
  | H : (_ <=? _) = true |- _ => apply Z.leb_le in H
  | H : (_ <=? _) = false |- _ => apply Z.leb_gt in H
  | H : (_ && _) = false |- _ => apply andb_false_iff in H
  end.

Lemma reachableFrom_reachable s0 s :
  reachable s0 -> reachableFrom s0 s -> reachable s.
Proof. intros H0. induction 1; [done|by constructor..]. Qed.

Lemma reachableFrom_domAgrees s0 s :
  domAgrees s0 -> reachableFrom s0 s -> domAgrees s.
Proof.
  intros H0. induction 1 as [|s _ IH|s _ IH|s _ IH|s _ IH]; [done|..];
    destruct IH as (bl & Hbl & Hhs); exists bl.
  - destruct (nextStep_frame s) as (-> & _ & _ & ->). done.
  - destruct (prevStep_frame s) as (-> & _ & _ & ->). done.
  - unfold resetSlide. rewrite Hbl. done.
  - unfold showAllSteps. rewrite Hbl. done.
Qed.

Lemma arrayGet_map_pos (bl : list nat) i :
  0 < highlightsAt (map Z.of_nat bl) i ->
  exists n, arrayGet bl i = Some n /\ highlightsAt (map Z.of_nat bl) i = Z.of_nat n.
Proof.
  unfold highlightsAt, arrayGet. destruct (i <? 0); [lia|].
  rewrite list_lookup_fmap. destruct (bl !! Z.to_nat i) as [n|]; simpl; [|lia].
  intros _. by exists n.
Qed.

(** X1: Moving over a slide never raises when the step blocks of the slide
    element hold the highlight spans the record counts. *)
Theorem navigation_never_throws s0 s :
  reachable s0 -> domAgrees s0 -> reachableFrom s0 s ->
  (nextStep s).2 <> Throw /\ (prevStep s).2 <> Throw.
Proof.
  intros Hr0 Hd0 Hfrom.
  pose proof (reachableFrom_reachable _ _ Hr0 Hfrom) as Hr.
  destruct (reachableFrom_domAgrees _ _ Hd0 Hfrom) as (bl & Hbl & Hhs).
  destruct (reachable_inBounds _ Hr) as (Hinit & Hh & Hc0 & Hc1 & Hc2).
  destruct Hinit as [(bl' & Hbl' & Htot) Hnn].
  assert (bl' = bl) as -> by congruence.
  split.
  - unfold nextStep. rewrite Hbl.
    destruct (currentHighlight s <? _) eqn:E1; to_Z.
    + rewrite Hhs in E1.
      destruct (arrayGet_map_pos bl (currentStep s - 1)) as (n & -> & _); [lia|done].
    + repeat case_match; done.
  - unfold prevStep. rewrite Hbl.
    destruct (0 <? currentHighlight s) eqn:E1; to_Z.
    + simpl. destruct (0 <? currentHighlight s - 1) eqn:E2; to_Z; [|done].
      rewrite Hhs in Hh.
      destruct (arrayGet_map_pos bl (currentStep s - 1)) as (n & -> & Hn); [lia|].
      unfold activate.
      destruct (Z.leb_spec 0 (currentHighlight s - 1 - 1)); [|lia].
      destruct (Z.ltb_spec (currentHighlight s - 1 - 1) (Z.of_nat n)); [done|lia].
    + destruct (currentStep s <=? 1) eqn:E2; [done|].
      destruct (arrayGet bl (currentStep s - 1)) eqn:E3; [|done].
      simpl. destruct (0 <? highlightsAt _ _) eqn:E4; [|done]. to_Z.
      simpl. rewrite Hhs in E4 |- *.
      destruct (arrayGet_map_pos bl (currentStep s - 1 - 1)) as (m & -> & Hm); [lia|].
      unfold activate. rewrite Hm.
      destruct (Z.leb_spec 0 (Z.of_nat m - 1)); [|lia].
      destruct (Z.ltb_spec (Z.of_nat m - 1) (Z.of_nat m)); [done|lia].
Qed.

Lemma navigation_never_throws_witness :
  (nextStep (nextStep oneHighlightSlide).1).2 <> Throw /\
  (prevStep (nextStep oneHighlightSlide).1).2 <> Throw.
Proof.
  apply (navigation_never_throws oneHighlightSlide).
  - apply reach_parsed. repeat constructor; lia.
  - exists [1%nat]. split; reflexivity.
  - apply from_next, from_start.
Defined.

(** X2: [hasNextStep] and [hasPrevStep] tell what the step operations do. *)
Theorem has_step_decides_move s :
  reachable s ->
  (hasNextStep s = true ->
   currentMicroStep (nextStep s).1 = currentMicroStep s + 1 /\
   cursor (nextStep s).1 <> cursor s) /\
  (hasNextStep s = false -> nextStep s = (s, Ret false)) /\
  (hasPrevStep s = true ->
   currentMicroStep (prevStep s).1 = currentMicroStep s - 1 /\
   cursor (prevStep s).1 <> cursor s) /\
  (hasPrevStep s = false -> prevStep s = (s, Ret false)).
Proof.
  intros Hr.
  destruct (reachable_inBounds _ Hr) as (Hinit & Hh & Hc0 & Hc1 & Hc2).
  destruct Hinit as [(bl & Hbl & Htot) Hnn].
  unfold hasNextStep, hasPrevStep, nextStep, prevStep, cursor. rewrite Hbl.
  split; [|split; [|split]].
  - destruct (currentHighlight s <? _) eqn:E1.
    + intros _. destruct (arrayGet bl (currentStep s - 1)); simpl;
        (split; [done|intros [=]; lia]).
    + intros E2. to_Z. destruct (Z.leb_spec (totalSteps s) (currentStep s)); [lia|].
      destruct (arrayGet_Some bl (currentStep s)) as [b ->]; [lia|].
      simpl. split; [done|intros [=]; lia].
  - destruct (currentHighlight s <? _) eqn:E1; [done|].
    intros E2. to_Z. destruct (Z.leb_spec (totalSteps s) (currentStep s)); [done|lia].
  - destruct (0 <? currentHighlight s) eqn:E1.
    + intros _. simpl. destruct (0 <? currentHighlight s - 1); simpl;
        (split; [done|intros [=]; lia]).
    + intros E2. to_Z. destruct (Z.leb_spec (currentStep s) 1); [lia|].
      destruct (arrayGet_Some bl (currentStep s - 1)) as [b ->]; [lia|].
      simpl. destruct (0 <? highlightsAt _ _); simpl;
        (split; [done|intros [=]; lia]).
  - destruct (0 <? currentHighlight s) eqn:E1; [done|].
    intros E2. to_Z. destruct (Z.leb_spec (currentStep s) 1); [done|lia].
Qed.

Lemma has_step_decides_move_witness :
  currentMicroStep (nextStep oneHighlightSlide).1 = 2 /\
  nextStep (nextStep oneHighlightSlide).1
  = ((nextStep oneHighlightSlide).1, Ret false) /\
  prevStep oneHighlightSlide = (oneHighlightSlide, Ret false).
Proof.
  assert (reachable oneHighlightSlide) as H0
    by (apply reach_parsed; repeat constructor; lia).
  pose proof (has_step_decides_move oneHighlightSlide H0) as (Hn & _ & _ & Hp).
  pose proof (has_step_decides_move _ (reach_next _ H0)) as (_ & Hn' & _).
  split; [apply Hn; reflexivity|].
  split; [apply Hn'; reflexivity|apply Hp; reflexivity].
Defined.

(** X3: A step back followed by a step forward gives the state back. *)
Theorem retreat_advance_inverse s :
  reachable s -> hasPrevStep s = true ->
  (nextStep (prevStep s).1).1 = s.
Proof.
  intros Hr.
  destruct (reachable_inBounds _ Hr) as (Hinit & Hh & Hc0 & Hc1 & Hc2).
  destruct Hinit as [(bl & Hbl & Htot) Hnn].
  destruct s as [c h t hs tm m b]. simpl in *. subst b.
  unfold hasPrevStep, prevStep, nextStep, setCursor; simpl.
  destruct (0 <? h) eqn:E1; to_Z.
  - intros _.
    assert (Hs : (if 0 <? h - 1
             then (mkState c (h - 1) t hs tm (m - 1) (Some bl),
                   activate (arrayGet bl (c - 1)) (h - 1 - 1) true)
             else (mkState c (h - 1) t hs tm (m - 1) (Some bl), Ret true)).1
            = mkState c (h - 1) t hs tm (m - 1) (Some bl))
      by (by destruct (0 <? h - 1)).
    rewrite Hs. simpl.
    destruct (Z.ltb_spec (h - 1) (highlightsAt hs (c - 1))); [|lia].
    replace (h - 1 + 1) with h by lia. replace (m - 1 + 1) with m by lia.
    by destruct (arrayGet bl (c - 1)).
  - intros E2. to_Z. destruct (Z.leb_spec c 1); [lia|].
    destruct (arrayGet_Some bl (c - 1)) as [b Hb]; [lia|]. rewrite Hb.
    assert (h = 0) as -> by lia.
    destruct (0 <? highlightsAt hs (c - 1 - 1)) eqn:E3; simpl.
    + rewrite Z.ltb_irrefl.
      destruct (Z.leb_spec t (c - 1)); [lia|]. rewrite Z.sub_add, Hb. simpl.
      by rewrite !Z.sub_add.
    + rewrite E3. destruct (Z.leb_spec t (c - 1)); [lia|]. rewrite Z.sub_add, Hb. simpl.
      by rewrite !Z.sub_add.
Qed.

Lemma retreat_advance_inverse_witness :
  (nextStep (prevStep (nextStep oneHighlightSlide).1).1).1
  = (nextStep oneHighlightSlide).1.
Proof.
  apply retreat_advance_inverse; [|reflexivity].
  apply reach_next, reach_parsed. repeat constructor; lia.
Defined.

(** X4: [hasSteps] on a slide as parsed: more than one micro-step exactly
    when the slide, at its start, has a next step. *)
Theorem hasSteps_parsed hs dom :
  Forall (fun h => 0 <= h) hs -> length dom = length hs ->
  let s0 := initSlide (Some (parsedState hs)) dom in
  hasSteps (Some s0) = hasNextStep (resetSlide s0).
Proof.
  intros Hnn Hlen. simpl. unfold hasSteps, hasNextStep, resetSlide. simpl.
  rewrite Hlen.
  destruct hs as [|h hs]; simpl.
  - by destruct dom.
  - apply Forall_cons in Hnn as [Hh Hnn].
    unfold highlightsAt, arrayGet. simpl.
    pose proof (canonicalFrom_total hs 2 Hnn) as ->.
    destruct (Z.ltb_spec 0 h).
    + apply Z.ltb_lt. lia.
    + destruct hs as [|h' hs]; [simpl; apply Z.ltb_ge; lia|].
      cbn [canonicalFrom length].
      transitivity true; [apply Z.ltb_lt|symmetry; apply Z.ltb_lt]; [|lia].
        rewrite length_app, chunkPairs_length. lia.
Qed.

Lemma hasSteps_parsed_witness :
  hasSteps (Some oneHighlightSlide) = hasNextStep (resetSlide oneHighlightSlide).
Proof. apply (hasSteps_parsed [1] [1%nat]); [repeat constructor; lia|reflexivity]. Defined.

End Moves.

Section DeckMoves.

Implicit Types (s : SlideState) (d : Deck).

Lemma onSlide_count d i f : slideCount (onSlide d i f) = slideCount d.
Proof.
  unfold slideCount, onSlide. simpl. destruct (i <? 0); [done|].
  by rewrite length_alter.
Qed.

Lemma goto_count d i dir : slideCount (goto d i dir) = slideCount d.
Proof.
  unfold goto. destruct (_ || _); [done|].
  destruct (String.eqb dir "forward"); by rewrite onSlide_count.
Qed.

Lemma goto_index d i dir :
  0 <= i < slideCount d -> currentSlideIndex (goto d i dir) = i.
Proof.
  intros Hi. unfold goto.
  destruct (Z.ltb_spec i 0); [lia|].
  destruct (Z.leb_spec (slideCount d) i); [lia|]. simpl.
  by destruct (String.eqb dir "forward").
Qed.

Lemma goto_index_range d i dir :
  0 <= currentSlideIndex d < slideCount d ->
  0 <= currentSlideIndex (goto d i dir) < slideCount d.
Proof.
  intros Hd. unfold goto.
  destruct (Z.ltb_spec i 0); [done|].
  destruct (Z.leb_spec (slideCount d) i); [done|]. simpl.
  destruct (String.eqb dir "forward"); simpl; lia.
Qed.

(** X5: The current index never leaves the deck, and no operation adds or
    removes a slide. *)
Theorem deck_index_in_range d :
  0 <= currentSlideIndex d < slideCount d ->
  (forall i dir,
     slideCount (goto d i dir) = slideCount d /\
     0 <= currentSlideIndex (goto d i dir) < slideCount d) /\
  (slideCount (next d).1 = slideCount d /\
   0 <= currentSlideIndex (next d).1 < slideCount d) /\
  (slideCount (prev d).1 = slideCount d /\
   0 <= currentSlideIndex (prev d).1 < slideCount d).
Proof.
  intros Hd. split; [|split].
  - intros i dir. split; [apply goto_count|by apply goto_index_range].
  - unfold next.
    destruct (arrayGet _ _) as [s|]; [destruct (hasNextStep s)|];
      try destruct (_ <? _); simpl;
      rewrite ?onSlide_count, ?goto_count; (split; [done|]);
      try done; by apply goto_index_range.
  - unfold prev.
    destruct (arrayGet _ _) as [s|]; [destruct (hasPrevStep s)|];
      try destruct (_ <? _); simpl;
      rewrite ?onSlide_count, ?goto_count; (split; [done|]);
      try done; by apply goto_index_range.
Qed.


Lemma deck_index_in_range_witness :
  slideCount (next twoSlides).1 = 2 /\
  0 <= currentSlideIndex (next twoSlides).1 < 2.
Proof.
  assert (0 <= currentSlideIndex twoSlides < slideCount twoSlides) as H
    by (unfold twoSlides, slideCount; simpl; lia).
  exact (proj1 (proj2 (deck_index_in_range twoSlides H))).
Defined.

Lemma arrayGet_alter_eq {A} (f : A -> A) (l : list A) i :
  0 <= i -> arrayGet (alter f (Z.to_nat i) l) i = f <$> arrayGet l i.
Proof.
  intros Hi. unfold arrayGet. destruct (Z.ltb_spec i 0); [lia|].
  rewrite list_lookup_alter. by rewrite decide_True.
Qed.

Lemma arrayGet_alter_ne {A} (f : A -> A) (l : list A) i j :
  0 <= i -> 0 <= j -> i <> j ->
  arrayGet (alter f (Z.to_nat i) l) j = arrayGet l j.
Proof.
  intros Hi Hj Hne. unfold arrayGet. destruct (Z.ltb_spec j 0); [lia|].
  rewrite list_lookup_alter. rewrite decide_False; [done|lia].
Qed.

Lemma arrayGet_range {A} (l : list A) i x :
  arrayGet l i = Some x -> 0 <= i < Z.of_nat (length l).
Proof.
  unfold arrayGet. destruct (Z.ltb_spec i 0); [done|].
  intros Hl%lookup_lt_Some. lia.
Qed.

(** X6: Leaving a finished slide forwards shows the next slide from its
    start; coming back shows the slide left with all its steps and no
    highlight, whatever highlight it was left on. *)
Theorem next_then_prev_across_slides d s s' :
  let i := currentSlideIndex d in
  arrayGet (slideStates d) i = Some s ->
  arrayGet (slideStates d) (i + 1) = Some s' ->
  is_Some (blocks s) -> is_Some (blocks s') ->
  hasNextStep s = false ->
  let d1 := (next d).1 in
  let d2 := (prev d1).1 in
  currentSlideIndex d1 = i + 1 /\
  arrayGet (slideStates d1) (i + 1) = Some (resetSlide s') /\
  cursor (resetSlide s') = (1, 0) /\
  currentSlideIndex d2 = i /\
  arrayGet (slideStates d2) i = Some (showAllSteps s) /\
  cursor (showAllSteps s) = (totalSteps s, 0) /\
  arrayGet (slideStates d2) (i + 1) = Some (resetSlide s').
Proof.
  intros i Hs Hs' [bl Hbl] [bl' Hbl'] Hno d1 d2.
  pose proof (arrayGet_range _ _ _ Hs) as Hi.
  pose proof (arrayGet_range _ _ _ Hs') as Hi'.
  assert (Hd1 : d1 = {| currentSlideIndex := i + 1;
                        slideStates := alter resetSlide (Z.to_nat (i + 1))
                                             (slideStates d) |}).
  { unfold d1, next. fold i. rewrite Hs, Hno.
    unfold slideCount.
    destruct (Z.ltb_spec i (Z.of_nat (length (slideStates d)) - 1)); [|lia].
    simpl. unfold goto, slideCount.
    destruct (Z.ltb_spec (i + 1) 0); [lia|].
    destruct (Z.leb_spec (Z.of_nat (length (slideStates d))) (i + 1)); [lia|].
    simpl. unfold onSlide. simpl.
    destruct (Z.ltb_spec (i + 1) 0); [lia|]. done. }
  clearbody d1. subst d1.
  assert (Hc : cursor (resetSlide s') = (1, 0))
    by (unfold resetSlide; by rewrite Hbl').
  set (l1 := alter resetSlide (Z.to_nat (i + 1)) (slideStates d)) in *.
  assert (Hg1 : arrayGet l1 (i + 1) = Some (resetSlide s')).
  { unfold l1. rewrite arrayGet_alter_eq by lia. by rewrite Hs'. }
  assert (Hg0 : arrayGet l1 i = Some s).
  { unfold l1. rewrite arrayGet_alter_ne by lia. done. }
  assert (Hl1 : length l1 = length (slideStates d)) by apply length_alter.
  assert (Hd2 : d2 = {| currentSlideIndex := i;
                        slideStates := alter showAllSteps (Z.to_nat i) l1 |}).
  { unfold d2, prev. cbn [currentSlideIndex slideStates]. rewrite Hg1.
    assert (hasPrevStep (resetSlide s') = false) as ->.
    { unfold hasPrevStep, resetSlide. by rewrite Hbl'. }
    destruct (Z.ltb_spec 0 (i + 1)); [|lia]. cbn [fst].
    replace (i + 1 - 1) with i by lia.
    unfold goto, slideCount. cbn [currentSlideIndex slideStates].
    destruct (Z.ltb_spec i 0); [lia|]. rewrite Hl1.
    destruct (Z.leb_spec (Z.of_nat (length (slideStates d))) i); [lia|].
    simpl. unfold onSlide. simpl.
    destruct (Z.ltb_spec i 0); [lia|]. done. }
  clearbody d2. subst d2. cbn [currentSlideIndex slideStates].
  split; [done|]. split; [done|]. split; [done|]. split; [done|].
  split; [rewrite arrayGet_alter_eq by lia; by rewrite Hg0|].
  split; [unfold showAllSteps; by rewrite Hbl|].
  rewrite arrayGet_alter_ne by lia. done.
Qed.

Lemma next_then_prev_across_slides_witness :
  currentSlideIndex (next twoSlides).1 = 1 /\
  arrayGet (slideStates (prev (next twoSlides).1).1) 0
  = Some (showAllSteps (nextStep oneHighlightSlide).1).
Proof.
  pose proof (next_then_prev_across_slides twoSlides
    (nextStep oneHighlightSlide).1 twoChunkSlide
    eq_refl eq_refl (ex_intro _ _ eq_refl) (ex_intro _ _ eq_refl) eq_refl) as H.
  simpl in H. split; apply H.
Defined.

End DeckMoves.

Section StepText.

Implicit Types (a b e d text : string) (opts : Options).

Lemma isSpace_notLt c : isSpace c = true -> notLt c = true.
Proof. destruct c as [[] [] [] [] [] [] [] []]; vm_compute; done. Qed.

Lemma trimEnd_blank s : trimEnd s = "" <-> allChars isSpace s = true.
Proof.
  induction s as [|c s IH]; [done|]. simpl.
  destruct (trimEnd s) as [|x t] eqn:E; simpl.
  - destruct (isSpace c); simpl; [|split; done].
    split; [intros _; by apply IH|done].
  - split; [done|]. intros [_ H]%andb_true_iff. apply IH in H. done.
Qed.

Lemma trim_blank s : trim s = "" <-> allChars isSpace s = true.
Proof.
  unfold trim, trimStart, skipSpace.
  destruct (span isSpace s) as [x y] eqn:E.
  apply span_spec in E as (-> & Hx & Hy). cbn [snd].
  rewrite trimEnd_blank, allChars_app, Hx. done.
Qed.

Lemma scan_plain {A} (m : string -> option (A * string)) p text :
  (forall c s, p c = true -> m (String c s) = None) ->
  allChars p text = true ->
  pieces (scan m text) = ([], text) /\ hits (scan m text) = [].
Proof.
  intros Hm Hp. rewrite (scan_copy_all m p) by done.
  split.
  - rewrite <- (app_nil_r (map _ _)), pieces_copy. simpl. by rewrite sapp_nil_r.
  - rewrite <- (app_nil_r (map _ _)), hits_copy. done.
Qed.

Lemma countHighlights_plain text :
  allChars notLt text = true -> countHighlights text = 0.
Proof.
  intros H. unfold countHighlights.
  by rewrite (proj2 (scan_plain matchHighlight notLt text
                       matchHighlight_needs_lt H)).
Qed.

Lemma parseHighlights_plain text :
  allChars notLt text = true -> parseHighlights text = text.
Proof.
  intros H. unfold parseHighlights.
  rewrite (scan_copy_all matchHighlight notLt)
    by (done || apply matchHighlight_needs_lt).
  rewrite <- (app_nil_r (map _ _)), wrapSegs_copy. simpl. apply sapp_nil_r.
Qed.

(** X7: A slide text without a directive is one block, shown from the
    start with the default effect; a blank text gives no block. *)
Theorem plain_text_one_block opts renderFn text :
  (allChars notLt text = true -> trim text <> "" ->
   parseAndRender opts renderFn text
   = (parsedState [0],
      [ {| stepNum := 1; visible := true;
           blockEffect := defaultEffect opts; highlights := 0;
           blockDuration := duration opts; inner := renderFn text |} ])) /\
  (trim text = "" ->
   parseAndRender opts renderFn text = (parsedState [], [])).
Proof.
  split.
  - intros Hlt [E1 E2]%trim_nonempty.
    unfold parseAndRender, splitSteps.
    rewrite (proj1 (scan_plain matchStep notLt text matchStep_needs_lt Hlt)).
    cbn [fold_left]. rewrite E1, E2. cbn [app lastStep last mbind option_bind].
    cbn [filter list_filter content]. rewrite E2.
    rewrite decide_True by done. cbn [list_filter filter].
    cbn [map imap content effect stepDuration].
    rewrite countHighlights_plain, parseHighlights_plain by done.
    unfold orStr, orNum. cbn.
    by destruct (duration opts =? 0) eqn:E; [apply Z.eqb_eq in E as ->|].
  - intros Hb. pose proof Hb as Hsp%trim_blank.
    assert (Hlt : allChars notLt text = true)
      by (apply (allChars_impl isSpace); [apply isSpace_notLt|done]).
    unfold parseAndRender, splitSteps.
    rewrite (proj1 (scan_plain matchStep notLt text matchStep_needs_lt Hlt)).
    cbn [fold_left]. rewrite Hb. cbn [isEmpty].
    destruct (isEmpty text); cbn [filter list_filter content];
      rewrite Hb; by rewrite decide_False.
Qed.

Lemma plain_text_one_block_witness :
  parseAndRender defaultOptions (fun x => x) "# Title"
  = (parsedState [0],
     [ {| stepNum := 1; visible := true; blockEffect := "fade";
          highlights := 0; blockDuration := 500; inner := "# Title" |} ]).
Proof.
  apply (proj1 (plain_text_one_block defaultOptions (fun x => x) "# Title"));
    [reflexivity|discriminate].
Defined.

Lemma isWordHyphen_not_comma c : isWordHyphen c = true -> Ascii.eqb c "," = false.
Proof. destruct c as [[] [] [] [] [] [] [] []]; vm_compute; done. Qed.



Lemma stepTail_duration d b :
  d <> "" -> allChars isDigit d = true ->
  stepTail (", duration=" +:+ d +:+ " -->" +:+ b) = Some (Some d, b).
Proof.
  intros Hd Hdig. unfold stepTail.
  change (skipSpace (", duration=" +:+ d +:+ " -->" +:+ b))
    with (", duration=" +:+ d +:+ " -->" +:+ b).
  change (stripPrefix "," (", duration=" +:+ d +:+ " -->" +:+ b))
    with (Some (" duration=" +:+ d +:+ " -->" +:+ b)).
  cbn beta iota.
  change (skipSpace (" duration=" +:+ d +:+ " -->" +:+ b))
    with ("duration=" +:+ d +:+ " -->" +:+ b).
  change (stripPrefix "duration" ("duration=" +:+ d +:+ " -->" +:+ b))
    with (Some ("=" +:+ d +:+ " -->" +:+ b)).
  cbn [mbind option_bind].
  change (skipSpace ("=" +:+ d +:+ " -->" +:+ b))
    with ("=" +:+ d +:+ " -->" +:+ b).
  change (stripPrefix "=" ("=" +:+ d +:+ " -->" +:+ b))
    with (Some (d +:+ " -->" +:+ b)).
  cbn [mbind option_bind].
  assert (skipSpace (d +:+ " -->" +:+ b) = d +:+ " -->" +:+ b) as ->.
  { unfold skipSpace. rewrite span_head_false; [done|].
    apply (allChars_head isDigit); [apply isDigit_not_space|done..]. }
  rewrite (span_app isDigit d (" -->" +:+ b)) by done.
  destruct d; [done|]. cbn [isEmpty]. reflexivity.
Qed.

Lemma matchStep_marker e d b :
  e <> "" -> allChars isWordHyphen e = true ->
  d <> "" -> allChars isDigit d = true ->
  matchStep (stepMarker e d +:+ b) = Some ((Some e, Some d), b).
Proof.
  intros He Hw Hd Hdig. unfold stepMarker, matchStep.
  rewrite !sapp_assoc.
  change (stripPrefix "<!--" ("<!-- step: " +:+ e +:+ ", duration=" +:+ d +:+ " -->" +:+ b))
    with (Some (" step: " +:+ e +:+ ", duration=" +:+ d +:+ " -->" +:+ b)).
  cbn [mbind option_bind].
  change (skipSpace (" step: " +:+ e +:+ ", duration=" +:+ d +:+ " -->" +:+ b))
    with ("step: " +:+ e +:+ ", duration=" +:+ d +:+ " -->" +:+ b).
  change (stripPrefix "step" ("step: " +:+ e +:+ ", duration=" +:+ d +:+ " -->" +:+ b))
    with (Some (": " +:+ e +:+ ", duration=" +:+ d +:+ " -->" +:+ b)).
  cbn [mbind option_bind].
  change (stripPrefix ":" (": " +:+ e +:+ ", duration=" +:+ d +:+ " -->" +:+ b))
    with (Some (" " +:+ e +:+ ", duration=" +:+ d +:+ " -->" +:+ b)).
  cbn beta iota.
  assert (skipSpace (" " +:+ e +:+ ", duration=" +:+ d +:+ " -->" +:+ b)
          = e +:+ ", duration=" +:+ d +:+ " -->" +:+ b) as ->.
  { apply (skipSpace_app " "); [done|].
    apply (allChars_head isWordHyphen); [apply isWordHyphen_not_space|done..]. }
  rewrite (span_app isWordHyphen e) by done.
  apply greedy_whole; [done|].
  by rewrite stepTail_duration.
Qed.

Lemma stepMarker_nonempty e d : stepMarker e d <> "".
Proof. done. Qed.

(** X8: A marker with an effect name and a duration gives both to the
    step after it; a duration of 0 is replaced by the default one, and
    a marker before any text leaves no block of its own.  The duration
    is at most 2^53, so that [parseInt] returns it exactly. *)
Theorem marker_effect_and_duration opts a e d b :
  allChars notLt a = true -> allChars notLt b = true -> trim b <> "" ->
  e <> "" -> allChars isWordHyphen e = true ->
  d <> "" -> allChars isDigit d = true ->
  decimalValue d <= 9007199254740992 ->
  let after :=
    {| content := b; effect := e;
       stepDuration :=
         if decimalValue d =? 0 then duration opts else decimalValue d;
       nextEffect := None; nextDuration := None |} in
  splitSteps opts (a +:+ stepMarker e d +:+ b)
  = if isEmpty (trim a) then [after]
    else [ {| content := a; effect := "none"; stepDuration := 0;
              nextEffect := Some e;
              nextDuration := Some (decimalValue d) |}; after ].
Proof.
  intros Ha Hb [Eb Etb]%trim_nonempty He Hw Hd Hdig Hbound after.
  unfold splitSteps.
  rewrite (scan_copy matchStep notLt) by (done || apply matchStep_needs_lt).
  rewrite (scan_hit matchStep _ _ (stepMarker e d) b
             (matchStep_marker e d b He Hw Hd Hdig)) by done.
  rewrite (scan_copy_all matchStep notLt) by (done || apply matchStep_needs_lt).
  rewrite pieces_one. cbn [fold_left]. unfold onMarker.
  cbn [fst snd]. rewrite parseInt_decimal by done.
  assert (Hor : orStr (Some e) (defaultEffect opts) = e)
    by (destruct e; done).
  rewrite Hor.
  destruct (isEmpty (trim a)) eqn:Eta.
  - assert ((if isEmpty a then [] else @nil Step) = []) as ->
      by (by destruct (isEmpty a)).
    cbn [lastStep last]. rewrite Eb, Etb.
    cbn [app lastStep last mbind option_bind nextEffect nextDuration].
    rewrite Hor. cbn [filter list_filter content].
    change (trim "") with "". cbn [isEmpty].
    rewrite decide_False by done. rewrite Etb.
    rewrite decide_True by done. cbn [list_filter filter]. done.
  - assert (isEmpty a = false) as ->.
    { destruct a; [done|done]. }
    cbn [lastStep last app removelast content effect stepDuration].
    rewrite Eb, Etb.
    cbn [app last mbind option_bind nextEffect nextDuration].
    rewrite Hor. cbn [filter list_filter content]. rewrite Eta, Etb.
    rewrite !decide_True by done. done.
Qed.

Lemma marker_effect_and_duration_witness :
  splitSteps defaultOptions ("one" +:+ stepMarker "zoom" "0" +:+ "two")
  = [ {| content := "one"; effect := "none"; stepDuration := 0;
         nextEffect := Some "zoom"; nextDuration := Some 0 |};
      {| content := "two"; effect := "zoom"; stepDuration := 500;
         nextEffect := None; nextDuration := None |} ].
Proof.
  apply (marker_effect_and_duration defaultOptions "one" "zoom" "0" "two");
    done.
Defined.

End StepText.

Section HighlightText.

Implicit Types (h ws body t : string).

Lemma isHash_not_space c : isHash c = true -> isSpace c = false.
Proof. destruct c as [[] [] [] [] [] [] [] []]; vm_compute; done. Qed.

Lemma isSpace_not_hash c : isSpace c = true -> isHash c = false.
Proof. destruct c as [[] [] [] [] [] [] [] []]; vm_compute; done. Qed.

Lemma mdMarker_hashes h ws body :
  h <> "" -> allChars isHash h = true ->
  ws <> "" -> allChars isSpace ws = true ->
  mdMarker (h +:+ ws +:+ body)
  = if (strlen h <=? 6)%nat then Some (h, ws +:+ body) else None.
Proof.
  intros Hh Hhash Hws Hsp.
  destruct h as [|c h]; [done|]. cbn [append mdMarker].
  pose proof Hhash as [Hc Hrest]%andb_true_iff. rewrite Hc.
  change (String c (h +:+ ws +:+ body)) with (String c h +:+ ws +:+ body).
  rewrite (span_app isHash (String c h) (ws +:+ body)); [done|done|].
  apply (allChars_head isSpace); [apply isSpace_not_hash|done..].
Qed.

(** X9: A highlight that starts with a heading prefix keeps the prefix
    outside the span, so that the heading is still seen by the Markdown
    pass; with more than six hashes there is no heading and the whole
    text goes inside. *)
Theorem heading_prefix_outside_span index h ws body :
  h <> "" -> allChars isHash h = true ->
  ws <> "" -> allChars isSpace ws = true ->
  body <> "" -> headIs isSpace body = false ->
  wrapHighlight index (h +:+ ws +:+ body)
  = if (strlen h <=? 6)%nat
    then h +:+ ws +:+ spanOpen index +:+ body +:+ "</span>"
    else spanOpen index +:+ (h +:+ ws +:+ body) +:+ "</span>".
Proof.
  intros Hh Hhash Hws Hsp Hb Hhead.
  unfold wrapHighlight, mdPrefixMatch.
  rewrite span_head_false.
  2:{ rewrite <- (sapp_nil_r h), sapp_assoc.
      apply (allChars_head isHash); [apply isHash_not_space|done..]. }
  rewrite mdMarker_hashes by done.
  destruct (strlen h <=? 6)%nat; cbn [mbind option_bind]; [|done].
  rewrite (span_app isSpace ws body) by done.
  erewrite greedy_whole; [|done|].
  2:{ cbn beta. destruct body; [done|]. cbn [isEmpty]. reflexivity. }
  cbn [append]. by rewrite !sapp_assoc.
Qed.

Lemma heading_prefix_outside_span_witness :
  wrapHighlight 0 "## Tea"
  = "## " +:+ spanOpen 0 +:+ "Tea" +:+ "</span>" /\
  wrapHighlight 0 "####### Tea"
  = spanOpen 0 +:+ "####### Tea" +:+ "</span>".
Proof.
  split.
  - apply (heading_prefix_outside_span 0 "##" " " "Tea"); done.
  - apply (heading_prefix_outside_span 0 "#######" " " "Tea"); done.
Defined.

End HighlightText.

Section WrittenParameters.

Implicit Types (k v rest : string) (l : list (string * string)).


Lemma matchParam_written k v rest :
  k <> "" -> allChars isWordHyphen k = true -> allChars notDquote v = true ->
  matchParam (writePair (k, v) +:+ rest) = Some ((k, v), rest).
Proof.
  intros Hk Hw Hv. unfold writePair, matchParam. cbn [fst snd].
  rewrite !sapp_assoc.
  rewrite (span_app isWordHyphen k) by done.
  destruct k as [|c k]; [done|]. cbn [isEmpty].
  change (skipSpace ("=" +:+ String dquote "" +:+ v +:+ String dquote "" +:+ rest))
    with ("=" +:+ String dquote "" +:+ v +:+ String dquote "" +:+ rest).
  change (stripPrefix "=" ("=" +:+ String dquote "" +:+ v +:+ String dquote "" +:+ rest))
    with (Some (String dquote (v +:+ String dquote rest))).
  cbn [mbind option_bind].
  change (skipSpace (String dquote (v +:+ String dquote rest)))
    with (String dquote (v +:+ String dquote rest)).
  unfold paramValue, quoted. cbn [stripPrefix].
  rewrite Ascii.eqb_refl. cbn [mbind option_bind].
  rewrite (span_app (fun c => negb (Ascii.eqb c dquote)) v (String dquote rest));
    [|done|by vm_compute].
  cbn [stripPrefix]. rewrite Ascii.eqb_refl. done.
Qed.

Lemma writePair_nonempty kv : writePair kv <> "".
Proof.
  unfold writePair. destruct kv as [[|c k] v]; done.
Qed.

Lemma scan_written l :
  Forall writable l -> hits (scan matchParam (writeParams l)) = l.
Proof.
  induction 1 as [|[k v] l (Hk & Hw & Hv) Hl IH]; [done|].
  cbn [fst snd] in *.
  destruct l as [|kv' l].
  - cbn [writeParams]. rewrite <- (sapp_nil_r (writePair (k, v))).
    rewrite (scan_hit matchParam _ _ (writePair (k, v)) ""
               (matchParam_written k v "" Hk Hw Hv));
      [done|done|apply writePair_nonempty].
  - cbn [writeParams]. cbn [writeParams] in IH.
    rewrite (scan_hit matchParam _ _ (writePair (k, v)) _
               (matchParam_written k v _ Hk Hw Hv));
      [|done|apply writePair_nonempty].
    cbn [hits]. f_equal.
    change (", " +:+ ?x) with (String "," (String " " x)).
    rewrite !scan_lit by done. cbn [hits]. exact IH.
Qed.

(** X10: Parameters written as [key=] and a quoted value, separated by commas,
    are read back as they were written: each pair is stored in order, a
    later pair replacing an earlier one with the same key. *)
Theorem parseParams_reads_written l :
  Forall writable l ->
  parseParams (writeParams l)
  = fold_left (fun params '(key, v) => jsSet key v params) l ∅.
Proof. intros Hl. unfold parseParams. by rewrite scan_written. Qed.

Lemma parseParams_reads_written_witness :
  parseParams (writeParams [("src", "a,b.png"); ("src", "c d.png")])
  = <["src" := "c d.png"]> (<["src" := "a,b.png"]> ∅).
Proof.
  apply (parseParams_reads_written [("src", "a,b.png"); ("src", "c d.png")]).
  repeat apply Forall_cons_2; try apply Forall_nil; by repeat split.
Defined.

End WrittenParameters.


Section Passes.

Variable render : string -> gmap string value -> option string.

Implicit Types (pre post body v cond lit : string) (vars : gmap string value).

Lemma notBrace_neq c : notBrace c = true -> "{"%char <> c.
Proof.
  unfold notBrace. intros H <-. by rewrite Ascii.eqb_refl in H.
Qed.

Lemma needs_brace lit c r :
  notBrace c = true -> stripPrefix (String "{" lit) (String c r) = None.
Proof. intros H. apply stripPrefix_head. by apply notBrace_neq. Qed.

Lemma matchIf_needs_brace c s : notBrace c = true -> matchIf (String c s) = None.
Proof. intros H. unfold matchIf. by rewrite needs_brace. Qed.

Lemma matchCompare_needs_brace tag c s :
  notBrace c = true -> matchCompare tag (String c s) = None.
Proof. intros H. unfold matchCompare. cbn [append]. by rewrite needs_brace. Qed.

Lemma matchOrder_needs_brace tag c s :
  notBrace c = true -> matchOrder tag (String c s) = None.
Proof. intros H. unfold matchOrder. cbn [append]. by rewrite needs_brace. Qed.

Lemma isWordDollar_not_brace c : isWordDollar c = true -> notBrace c = true.
Proof. destruct c as [[] [] [] [] [] [] [] []]; vm_compute; done. Qed.

Lemma sapp_cons x a b : String x a +:+ b = String x (a +:+ b).
Proof. done. Qed.

Lemma findSub_unfold lit s :
  findSub lit s
  = match stripPrefix lit s with
    | Some rest => Some ("", rest)
    | None =>
      match s with
      | "" => None
      | String c s' =>
        match findSub lit s' with
        | Some (b, a) => Some (String c b, a)
        | None => None
        end
      end
    end.
Proof. by destruct s. Qed.

(** The text up to a closing tag, when the text has no brace. *)
Lemma findSub_plain lit body post :
  allChars notBrace body = true ->
  findSub (String "{" lit) (body +:+ String "{" lit +:+ post)
  = Some (body, post).
Proof.
  intros Hb. induction body as [|x body IH].
  - rewrite findSub_unfold.
    change ("" +:+ String "{" lit +:+ post) with (String "{" lit +:+ post).
    by rewrite stripPrefix_app.
  - apply andb_true_iff in Hb as [Hx Hb]. rewrite (sapp_cons x body).
    rewrite findSub_unfold, needs_brace by done.
    by rewrite IH.
Qed.

Lemma ifBody_unfold s :
  ifBody s
  = match stripPrefix "{{#else}}" s ≫= findSub "{{/if}}" with
    | Some (f, r) => Some (("", Some f), r)
    | None =>
      match stripPrefix "{{/if}}" s with
      | Some r => Some (("", None), r)
      | None =>
        match s with
        | "" => None
        | String c s' =>
          match ifBody s' with
          | Some ((t, f), r) => Some ((String c t, f), r)
          | None => None
          end
        end
      end
    end.
Proof. by destruct s. Qed.

Lemma ifBody_plain A tail res :
  allChars notBrace A = true ->
  ifBody tail = Some (("", res.1), res.2) ->
  ifBody (A +:+ tail) = Some ((A, res.1), res.2).
Proof.
  intros HA Ht. induction A as [|x A IH]; [done|].
  apply andb_true_iff in HA as [Hx HA]. rewrite (sapp_cons x A).
  rewrite ifBody_unfold, !needs_brace by done. cbn [mbind option_bind].
  by rewrite IH.
Qed.

Lemma ifBody_else A B post :
  allChars notBrace A = true -> allChars notBrace B = true ->
  ifBody (A +:+ "{{#else}}" +:+ B +:+ "{{/if}}" +:+ post)
  = Some ((A, Some B), post).
Proof.
  intros HA HB. apply (ifBody_plain A _ (Some B, post)); [done|].
  rewrite ifBody_unfold.
  rewrite (stripPrefix_app "{{#else}}"). cbn [mbind option_bind].
  by rewrite (findSub_plain "{/if}}" B post).
Qed.

Lemma ifBody_no_else A post :
  allChars notBrace A = true ->
  ifBody (A +:+ "{{/if}}" +:+ post) = Some ((A, None), post).
Proof.
  intros HA. apply (ifBody_plain A _ (None, post)); [done|].
  rewrite ifBody_unfold.
  change (stripPrefix "{{#else}}" ("{{/if}}" +:+ post)) with (@None string).
  cbn [mbind option_bind]. by rewrite (stripPrefix_app "{{/if}}").
Qed.

Lemma open_tag cond tail :
  cond <> "" -> allChars isWordDollar cond = true ->
  headIs isWordDollar tail = false ->
  span isSpace (" " +:+ cond +:+ tail) = (" ", cond +:+ tail) /\
  span isWordDollar (cond +:+ tail) = (cond, tail).
Proof.
  intros Hc Hw Ht. split.
  - apply (span_app isSpace " "); [done|].
    apply (allChars_head isWordDollar); [apply isWordDollar_not_space|done..].
  - by apply span_app.
Qed.

Lemma matchIf_open cond tail :
  cond <> "" -> allChars isWordDollar cond = true ->
  matchIf ("{{#if " +:+ cond +:+ "}}" +:+ tail)
  = '((t, f), s5) ← ifBody tail; Some ((cond, t, f), s5).
Proof.
  intros Hc Hw.
  destruct (open_tag cond ("}}" +:+ tail) Hc Hw eq_refl) as (E2 & E3).
  unfold matchIf.
  change ("{{#if " +:+ cond +:+ "}}" +:+ tail)
    with ("{{#if" +:+ " " +:+ cond +:+ "}}" +:+ tail).
  rewrite stripPrefix_app. cbn [mbind option_bind]. rewrite E2. cbn [isEmpty].
  rewrite E3. destruct cond; [done|]. cbn [isEmpty].
  by rewrite (stripPrefix_app "}}").
Qed.

Lemma matchIf_else cond A B post :
  cond <> "" -> allChars isWordDollar cond = true ->
  allChars notBrace A = true -> allChars notBrace B = true ->
  matchIf ("{{#if " +:+ cond +:+ "}}" +:+ A +:+ "{{#else}}" +:+ B +:+ "{{/if}}" +:+ post)
  = Some ((cond, A, Some B), post).
Proof.
  intros Hc Hw HA HB. rewrite matchIf_open by done. by rewrite ifBody_else.
Qed.

Lemma matchIf_no_else cond A post :
  cond <> "" -> allChars isWordDollar cond = true ->
  allChars notBrace A = true ->
  matchIf ("{{#if " +:+ cond +:+ "}}" +:+ A +:+ "{{/if}}" +:+ post)
  = Some ((cond, A, None), post).
Proof.
  intros Hc Hw HA. rewrite matchIf_open by done. by rewrite ifBody_no_else.
Qed.

(** One construct between two texts without a brace: the pass replaces
    the construct by what its callback returns. *)
Lemma replaceM_one {A} (m : string -> option (A * string))
    (f : A -> option string) pre construct post g :
  (forall c s, notBrace c = true -> m (String c s) = None) ->
  allChars notBrace pre = true -> allChars notBrace post = true ->
  construct <> "" ->
  m (construct +:+ post) = Some (g, post) ->
  replaceM f (scan m (pre +:+ construct +:+ post))
  = r ← f g; Some (pre +:+ r +:+ post).
Proof.
  intros Hm Hpre Hpost Hne Hhit.
  rewrite (scan_copy m notBrace) by done.
  rewrite (scan_hit m _ g construct post Hhit) by done.
  rewrite (scan_copy_all m notBrace post) by done.
  induction pre as [|x pre IH].
  - cbn [list_ascii_of_string map app replaceM append].
    rewrite replaceM_lits. destruct (f g); cbn [mbind option_bind]; done.
  - apply andb_true_iff in Hpre as [_ Hpre].
    cbn [list_ascii_of_string map app replaceM append].
    rewrite IH by done. destruct (f g); cbn [mbind option_bind]; done.
Qed.


(** X11: [_processIf]: the first text is rendered when the variable is set
    to a value other than 0, [false] and the empty string, the text
    after [else] (or the empty text) otherwise. *)
Theorem if_else_pass vars pre cond A B post :
  allChars notBrace pre = true -> allChars notBrace post = true ->
  cond <> "" -> allChars isWordDollar cond = true ->
  allChars notBrace A = true -> allChars notBrace B = true ->
  processIf render
    (pre +:+ ("{{#if " +:+ cond +:+ "}}" +:+ A +:+ "{{#else}}" +:+ B +:+ "{{/if}}")
     +:+ post) vars
  = (r ← render (if condition vars cond then A else B) vars;
     Some (pre +:+ r +:+ post)) /\
  processIf render
    (pre +:+ ("{{#if " +:+ cond +:+ "}}" +:+ A +:+ "{{/if}}") +:+ post) vars
  = (r ← render (if condition vars cond then A else "") vars;
     Some (pre +:+ r +:+ post)).
Proof.
  intros Hpre Hpost Hc Hw HA HB. unfold processIf, condition. split.
  - rewrite (replaceM_one matchIf _ pre _ post (cond, A, Some B));
      [|apply matchIf_needs_brace|done|done|done|].
    + by destruct (vars !! cond) as [x|]; [destruct (truthy x)|].
    + rewrite !sapp_assoc. by apply matchIf_else.
  - rewrite (replaceM_one matchIf _ pre _ post (cond, A, None));
      [|apply matchIf_needs_brace|done|done|done|].
    + by destruct (vars !! cond) as [x|]; [destruct (truthy x)|].
    + rewrite !sapp_assoc. by apply matchIf_no_else.
Qed.

Lemma lazyDotUntil_lit lit rest :
  lit <> "" -> allChars litChar lit = true ->
  lazyDotUntil "}}" (lit +:+ "}}" +:+ rest) = Some (lit, rest).
Proof.
  intros Hne Hl. induction lit as [|x lit IH]; [done|].
  apply andb_true_iff in Hl as [Hx Hl].
  apply andb_true_iff in Hx as [Hx1 Hx2].
  rewrite (sapp_cons x lit). cbn [lazyDotUntil].
  destruct (isLineTerminator x); [done|].
  destruct lit as [|y lit].
  - change ("" +:+ "}}" +:+ rest) with ("}}" +:+ rest).
    by rewrite stripPrefix_app.
  - rewrite (sapp_cons y lit).
    pose proof Hl as [Hy _]%andb_true_iff.
    apply andb_true_iff in Hy as [_ Hy].
    rewrite stripPrefix_head.
    2:{ intros <-. by rewrite Ascii.eqb_refl in Hy. }
    rewrite <- (sapp_cons y lit). by rewrite IH.
Qed.

Lemma findSub_close tag body post :
  allChars notBrace body = true ->
  findSub ("{{/" +:+ tag +:+ "}}") (body +:+ ("{{/" +:+ tag +:+ "}}") +:+ post)
  = Some (body, post).
Proof. intros Hb. by apply (findSub_plain ("{/" +:+ tag +:+ "}}")). Qed.

Lemma matchCompare_construct tag v lit body post :
  v <> "" -> allChars isWordDollar v = true ->
  lit <> "" -> allChars litChar lit = true -> headIs isSpace lit = false ->
  allChars notBrace body = true ->
  matchCompare tag
    (("{{#" +:+ tag) +:+ " " +:+ v +:+ " " +:+ lit +:+ "}}" +:+ body
     +:+ ("{{/" +:+ tag +:+ "}}") +:+ post)
  = Some ((v, lit, body), post).
Proof.
  intros Hv Hw Hne Hl Hh Hb.
  destruct (open_tag v (" " +:+ lit +:+ "}}" +:+ body
                        +:+ ("{{/" +:+ tag +:+ "}}") +:+ post)
              Hv Hw eq_refl) as (E2 & E3).
  unfold matchCompare. rewrite stripPrefix_app. cbn [mbind option_bind].
  rewrite E2. cbn [isEmpty]. rewrite E3. destruct v; [done|]. cbn [isEmpty].
  rewrite (span_app isSpace " ") by (done || by destruct lit).
  apply greedy_whole; [done|]. cbn beta.
  rewrite lazyDotUntil_lit by done. cbn [mbind option_bind].
  rewrite findSub_close by done. done.
Qed.

(** X12: [_processEq] and [_processNeq]: the body is rendered when the
    text of the variable (the empty text if it is not set) is, or is
    not, the literal without its quotes. *)
Theorem eq_neq_pass vars pre v lit body post :
  allChars notBrace pre = true -> allChars notBrace post = true ->
  v <> "" -> allChars isWordDollar v = true ->
  lit <> "" -> allChars litChar lit = true -> headIs isSpace lit = false ->
  allChars notBrace body = true ->
  let same := String.eqb (actualValue vars v) (stripQuotes (trim lit)) in
  processEq render
    (pre +:+ ("{{#eq " +:+ v +:+ " " +:+ lit +:+ "}}" +:+ body +:+ "{{/eq}}")
     +:+ post) vars
  = (if same then r ← render body vars; Some (pre +:+ r +:+ post)
     else Some (pre +:+ post)) /\
  processNeq render
    (pre +:+ ("{{#neq " +:+ v +:+ " " +:+ lit +:+ "}}" +:+ body +:+ "{{/neq}}")
     +:+ post) vars
  = (if same then Some (pre +:+ post)
     else r ← render body vars; Some (pre +:+ r +:+ post)).
Proof.
  intros Hpre Hpost Hv Hw Hne Hl Hh Hb same. unfold processEq, processNeq.
  split.
  - rewrite (replaceM_one (matchCompare "eq") _ pre _ post (v, lit, body));
      [|apply matchCompare_needs_brace|done|done|done|].
    + fold same. by destruct same.
    + rewrite !sapp_assoc.
      by apply (matchCompare_construct "eq" v lit body post).
  - rewrite (replaceM_one (matchCompare "neq") _ pre _ post (v, lit, body));
      [|apply matchCompare_needs_brace|done|done|done|].
    + fold same. by destruct same.
    + rewrite !sapp_assoc.
      by apply (matchCompare_construct "neq" v lit body post).
Qed.

Lemma parseDigits_value digits :
  digits <> "" -> allChars isDigit digits = true ->
  parseDigits 10 digits None = Some (decimalValue digits).
Proof.
  intros Hne Hd. destruct digits as [|x digits]; [done|].
  apply andb_true_iff in Hd as [Hx Hd].
  destruct (isDigit_value x Hx) as [Hv Hr].
  cbn [parseDigits]. rewrite Hv.
  destruct (Z.ltb_spec (Z.of_N (code x) - 48) 10); [|lia].
  rewrite parseDigits_decimal by done.
  unfold decimalValue. cbn [list_ascii_of_string fold_left]. done.
Qed.

Lemma matchOrder_construct tag v digits body post :
  v <> "" -> allChars isWordDollar v = true ->
  digits <> "" -> allChars isDigit digits = true ->
  allChars notBrace body = true ->
  matchOrder tag
    (("{{#" +:+ tag) +:+ " " +:+ v +:+ " " +:+ digits +:+ "}}" +:+ body
     +:+ ("{{/" +:+ tag +:+ "}}") +:+ post)
  = Some ((v, digits, body), post).
Proof.
  intros Hv Hw Hne Hd Hb.
  destruct (open_tag v (" " +:+ digits +:+ "}}" +:+ body
                        +:+ ("{{/" +:+ tag +:+ "}}") +:+ post)
              Hv Hw eq_refl) as (E2 & E3).
  unfold matchOrder. rewrite stripPrefix_app. cbn [mbind option_bind].
  rewrite E2. cbn [isEmpty]. rewrite E3. destruct v; [done|]. cbn [isEmpty].
  rewrite (span_app isSpace " ");
    [|done|apply (allChars_head isDigit); [apply isDigit_not_space|done..]].
  cbn [isEmpty]. rewrite (span_app isDigit digits) by done.
  assert (isEmpty digits = false) as -> by (by destruct digits).
  rewrite (stripPrefix_app "}}"). cbn [mbind option_bind].
  rewrite findSub_close by done. done.
Qed.


Lemma compareVar_number cs vars v digits a :
  digits <> "" -> allChars isDigit digits = true ->
  numberOf vars v = Some a ->
  compareVar cs vars v digits = Some (a ?= decimalValue digits).
Proof.
  intros Hne Hd Ha. unfold compareVar, numberOf in *.
  rewrite parseDigits_value by done.
  destruct (vars !! v) as [[x|x]|]; congruence.
Qed.

(** X13: [_processGt] and [_processLt] on a variable that holds a number or
    is not set, which then counts as 0: the body is rendered when the
    number is greater, or less, than the literal. *)
Theorem order_pass cs vars pre v digits body post a :
  allChars notBrace pre = true -> allChars notBrace post = true ->
  v <> "" -> allChars isWordDollar v = true ->
  digits <> "" -> allChars isDigit digits = true ->
  decimalValue digits <= 9007199254740992 ->
  allChars notBrace body = true ->
  numberOf vars v = Some a ->
  processGt cs render
    (pre +:+ ("{{#gt " +:+ v +:+ " " +:+ digits +:+ "}}" +:+ body +:+ "{{/gt}}")
     +:+ post) vars
  = (if decimalValue digits <? a
     then r ← render body vars; Some (pre +:+ r +:+ post)
     else Some (pre +:+ post)) /\
  processLt cs render
    (pre +:+ ("{{#lt " +:+ v +:+ " " +:+ digits +:+ "}}" +:+ body +:+ "{{/lt}}")
     +:+ post) vars
  = (if a <? decimalValue digits
     then r ← render body vars; Some (pre +:+ r +:+ post)
     else Some (pre +:+ post)).
Proof.
  intros Hpre Hpost Hv Hw Hne Hd _ Hb Ha. unfold processGt, processLt.
  split.
  - rewrite (replaceM_one (matchOrder "gt") _ pre _ post (v, digits, body));
      [|apply matchOrder_needs_brace|done|done|done|].
    + rewrite (compareVar_number cs vars v digits a) by done.
      rewrite Z.ltb_antisym, Z.leb_compare.
      by destruct (a ?= decimalValue digits).
    + rewrite !sapp_assoc.
      by apply (matchOrder_construct "gt" v digits body post).
  - rewrite (replaceM_one (matchOrder "lt") _ pre _ post (v, digits, body));
      [|apply matchOrder_needs_brace|done|done|done|].
    + rewrite (compareVar_number cs vars v digits a) by done.
      unfold Z.ltb. by destruct (a ?= decimalValue digits).
    + rewrite !sapp_assoc.
      by apply (matchOrder_construct "lt" v digits body post).
Qed.

End Passes.

Lemma if_else_pass_witness :
  processIf (renderTemplate nanCompare 1)
    ("<b>" +:+ ("{{#if " +:+ "draft" +:+ "}}" +:+ "DRAFT" +:+ "{{#else}}"
                +:+ "final" +:+ "{{/if}}") +:+ "</b>")
    (<["draft" := VStr "false"]> ∅)
  = Some "<b>final</b>".
Proof.
  apply (proj1 (if_else_pass (renderTemplate nanCompare 1)
                  (<["draft" := VStr "false"]> ∅) "<b>" "draft" "DRAFT" "final"
                  "</b>" eq_refl eq_refl ltac:(done) eq_refl eq_refl eq_refl)).
Defined.

Lemma eq_neq_pass_witness :
  processEq (renderTemplate nanCompare 1)
    ("" +:+ ("{{#eq " +:+ "kind" +:+ " " +:+ "'a'" +:+ "}}" +:+ "A" +:+ "{{/eq}}")
     +:+ "") (<["kind" := VStr "a"]> ∅)
  = Some "A".
Proof.
  apply (proj1 (eq_neq_pass (renderTemplate nanCompare 1)
                  (<["kind" := VStr "a"]> ∅) "" "kind" "'a'" "A" ""
                  eq_refl eq_refl ltac:(done) eq_refl ltac:(done) eq_refl
                  eq_refl eq_refl)).
Defined.

Lemma order_pass_witness :
  processGt nanCompare (renderTemplate nanCompare 1)
    ("" +:+ ("{{#gt " +:+ "$slideNumber" +:+ " " +:+ "1" +:+ "}}" +:+ "back"
             +:+ "{{/gt}}") +:+ "") (builtinVars 0 5)
  = Some "".
Proof.
  apply (proj1 (order_pass (renderTemplate nanCompare 1) nanCompare
                  (builtinVars 0 5) "" "$slideNumber" "1" "back" "" 1
                  eq_refl eq_refl ltac:(done) eq_refl ltac:(done) eq_refl
                  ltac:(done) eq_refl eq_refl)).
Defined.



Section Variables.

Implicit Types (pre post name : string) (vars : gmap string value).



Lemma isWordHyphen_plain c :
  isWordHyphen c = true ->
  notBrace c = true /\ Ascii.eqb c "#" = false /\ Ascii.eqb c "$" = false /\
  Ascii.eqb c "}" = false.
Proof. destruct c as [[] [] [] [] [] [] [] []]; vm_compute; done. Qed.


Lemma stripPrefix_longer lit ext s :
  stripPrefix lit s = None -> stripPrefix (lit +:+ ext) s = None.
Proof.
  revert s. induction lit as [|a lit IH]; intros s; [done|].
  destruct s as [|b s]; [done|]. cbn [append stripPrefix].
  destruct (Ascii.eqb a b); [apply IH|done].
Qed.

Lemma matchRepeat_opens : opensConstruct matchRepeat.
Proof.
  intros s H. unfold matchRepeat.
  pose proof (stripPrefix_longer "{{#" "repeat" s H) as H'.
  change ("{{#" +:+ "repeat") with "{{#repeat" in H'. by rewrite H'.
Qed.

Lemma matchCompare_opens tag : opensConstruct (matchCompare tag).
Proof.
  intros s H. unfold matchCompare.
  by rewrite (stripPrefix_longer "{{#" tag s H).
Qed.

Lemma matchIf_opens : opensConstruct matchIf.
Proof.
  intros s H. unfold matchIf.
  pose proof (stripPrefix_longer "{{#" "if" s H) as H'.
  change ("{{#" +:+ "if") with "{{#if" in H'. by rewrite H'.
Qed.

Lemma matchOrder_opens tag : opensConstruct (matchOrder tag).
Proof.
  intros s H. unfold matchOrder.
  by rewrite (stripPrefix_longer "{{#" tag s H).
Qed.

Lemma varName_head dollar name tail :
  name <> "" -> allChars isWordHyphen name = true ->
  exists x r, varName dollar name +:+ tail = String x r /\
              Ascii.eqb x "#" = false /\ notBrace x = true.
Proof.
  intros Hne Hw. destruct name as [|y name]; [done|].
  apply andb_true_iff in Hw as [Hy _].
  destruct (isWordHyphen_plain y Hy) as (? & ? & _).
  destruct dollar; eexists _, _; (split; [reflexivity|done]).
Qed.

Lemma varName_plain dollar name :
  allChars isWordHyphen name = true ->
  allChars notBrace (varName dollar name) = true.
Proof.
  intros Hw. unfold varName. rewrite allChars_app.
  apply andb_true_iff. split; [by destruct dollar|].
  apply (allChars_impl isWordHyphen); [|done].
  intros c Hc. by apply isWordHyphen_plain.
Qed.

Lemma no_construct {A} (m : string -> option (A * string)) pre dollar name post :
  opensConstruct m ->
  allChars notBrace pre = true -> allChars notBrace post = true ->
  name <> "" -> allChars isWordHyphen name = true ->
  hits (scan m (pre +:+ "{{" +:+ varName dollar name +:+ "}}" +:+ post)) = [].
Proof.
  intros Hm Hpre Hpost Hne Hw.
  assert (Hb : forall c s, notBrace c = true -> m (String c s) = None).
  { intros c s Hc. apply Hm. apply stripPrefix_head. by apply notBrace_neq. }
  rewrite (scan_copy m notBrace) by done. rewrite hits_copy.
  destruct (varName_head dollar name ("}}" +:+ post) Hne Hw)
    as (x & r & E & Hx1 & Hx2).
  change ("{{" +:+ varName dollar name +:+ "}}" +:+ post)
    with (String "{" (String "{" (varName dollar name +:+ "}}" +:+ post))).
  rewrite scan_lit.
  2:{ apply Hm. rewrite E. cbn [stripPrefix]. rewrite !Ascii.eqb_refl.
      rewrite Ascii.eqb_sym. by rewrite Hx1. }
  rewrite scan_lit.
  2:{ apply Hm. rewrite E. cbn [stripPrefix]. rewrite !Ascii.eqb_refl.
      unfold notBrace in Hx2. rewrite Ascii.eqb_sym.
      by destruct (Ascii.eqb x "{"). }
  cbn [hits].
  rewrite (scan_copy_all m notBrace); [|done|].
  - rewrite <- (app_nil_r (map _ _)). by rewrite hits_copy.
  - rewrite !allChars_app, varName_plain, Hpost by done. done.
Qed.

Lemma matchVar_name dollar name post :
  name <> "" -> allChars isWordHyphen name = true ->
  matchVar ("{{" +:+ varName dollar name +:+ "}}" +:+ post)
  = Some (varName dollar name, post).
Proof.
  intros Hne Hw. unfold matchVar. rewrite (stripPrefix_app "{{").
  cbn [mbind option_bind].
  assert (span isWordHyphen (name +:+ "}}" +:+ post) = (name, "}}" +:+ post))
    as Hspan by (by apply span_app).
  assert (isEmpty name = false) as Hemp by (by destruct name).
  destruct dollar; unfold varName.
  - change (stripPrefix "$" (("$" +:+ name) +:+ "}}" +:+ post))
      with (Some (name +:+ "}}" +:+ post)).
    cbn beta iota. rewrite Hspan, Hemp, (stripPrefix_app "}}"). done.
  - change ("" +:+ name) with name.
    assert (stripPrefix "$" (name +:+ "}}" +:+ post) = None) as ->.
    { destruct name as [|y name]; [done|].
      apply andb_true_iff in Hw as [Hy _].
      destruct (isWordHyphen_plain y Hy) as (_ & _ & Hd & _).
      rewrite (sapp_cons y name). apply stripPrefix_head.
      intros <-. by rewrite Ascii.eqb_refl in Hd. }
    cbn beta iota. rewrite Hspan, Hemp, (stripPrefix_app "}}"). done.
Qed.

(** X14: A variable between two texts without a brace is replaced by the
    text of its value, as it is; a variable that is not set is left as
    written. *)
Theorem variable_substitution cs fuel vars pre dollar name post :
  allChars notBrace pre = true -> allChars notBrace post = true ->
  name <> "" -> allChars isWordHyphen name = true ->
  let written := "{{" +:+ varName dollar name +:+ "}}" in
  renderTemplate cs (S fuel) (pre +:+ written +:+ post) vars
  = Some (pre +:+ match vars !! varName dollar name with
                  | Some v => toString v
                  | None => written
                  end +:+ post).
Proof.
  intros Hpre Hpost Hne Hw written. unfold written.
  cbn [renderTemplate]. rewrite !sapp_assoc.
  rewrite constructs_id;
    try (apply no_construct; try done;
         first [apply matchRepeat_opens | apply matchCompare_opens
               | apply matchIf_opens | apply matchOrder_opens]).
  f_equal. unfold substituteVars.
  assert (Hb : forall c s, notBrace c = true -> matchVar (String c s) = None).
  { intros c s Hc. unfold matchVar. rewrite stripPrefix_head; [done|].
    by apply notBrace_neq. }
  rewrite (scan_copy matchVar notBrace) by done.
  rewrite replaceSegs_copy.
  rewrite (scan_hit matchVar _ _ ("{{" +:+ varName dollar name +:+ "}}") post
             (matchVar_name dollar name post Hne Hw));
    [|by rewrite !sapp_assoc|done].
  cbn [replaceSegs].
  rewrite (scan_copy_all matchVar notBrace post) by done.
  rewrite replaceSegs_lits. done.
Qed.

Lemma variable_substitution_witness :
  renderTemplate nanCompare 1 ("Page " +:+ "{{$slideNumber}}" +:+ " of 5")
                 (<["$slideNumber" := VStr "{{n}}"]> ∅)
  = Some ("Page " +:+ "{{n}}" +:+ " of 5").
Proof.
  pose proof (variable_substitution nanCompare 0
                (<["$slideNumber" := VStr "{{n}}"]> ∅)
                "Page " true "slideNumber" " of 5"
                eq_refl eq_refl ltac:(done) eq_refl) as H.
  cbn zeta in H. unfold varName in H.
  change ("$" +:+ "slideNumber") with "$slideNumber" in H.
  rewrite lookup_insert in H. exact H.
Defined.

End Variables.


Section GlobalParts.

Lemma firstSome_splits_Some {R} (f : string * string -> option R) s res :
  firstSome f (splits s) = Some res ->
  exists a b, s = a +:+ b /\ f (a, b) = Some res.
Proof.
  revert f. induction s as [|c s IH]; intros f.
  - simpl. destruct (f ("", "")) eqn:E; [|done]. intros [= <-]. by exists "", "".
  - cbn [splits]. rewrite firstSome_app, firstSome_map.
    destruct (firstSome _ (splits s)) as [r|] eqn:E.
    + intros [= <-]. apply IH in E as (a & b & -> & E).
      exists (String c a), b. done.
    + simpl. destruct (f ("", String c s)) eqn:E2; [|done].
      intros [= <-]. by exists "", (String c s).
Qed.

Lemma spaceToLineEnd_sound s r :
  spaceToLineEnd s = Some r ->
  exists ws, s = ws +:+ r /\ allChars isSpace ws = true /\ lineEnd r = Some r.
Proof.
  rewrite spaceToLineEnd_unfold.
  destruct (span isSpace s) as [ws r0] eqn:E.
  apply span_spec in E as (-> & Hws & _).
  unfold greedy. intros (a & b & -> & H)%firstSome_splits_Some.
  cbn [andb] in H.
  assert (r = b +:+ r0) as ->.
  { unfold lineEnd in H. destruct (b +:+ r0) as [|c t]; [congruence|].
    destruct (isLineTerminator c); congruence. }
  exists a. rewrite sapp_assoc. split; [done|].
  rewrite allChars_app in Hws. apply andb_true_iff in Hws as [Ha _]. done.
Qed.

Lemma globalMatch_sound s g r :
  globalMatch s = Some (g, r) ->
  exists ws, s = g +:+ "---global" +:+ ws +:+ r /\
             allChars isSpace ws = true /\ lineEnd r = Some r.
Proof.
  revert g. induction s as [|c s IH]; intros g; rewrite globalMatch_unfold.
  - destruct (stripPrefix "---global" "" ≫= spaceToLineEnd) eqn:E; [|done].
    done.
  - destruct (stripPrefix "---global" (String c s) ≫= spaceToLineEnd) as [r'|] eqn:E.
    + intros [= <- <-].
      destruct (stripPrefix "---global" (String c s)) as [t|] eqn:E1; [|done].
      cbn [mbind option_bind] in E.
      apply stripPrefix_Some in E1.
      apply spaceToLineEnd_sound in E as (ws & -> & Hws & Hr).
      exists ws. by rewrite E1.
    + destruct (globalMatch s) as [[g' r']|] eqn:E2; [|done].
      intros [= <- <-].
      destruct (IH g' eq_refl) as (ws & -> & Hws & Hr).
      exists ws. done.
Qed.

(** X15: Whatever the text, the split keeps everything but the marker and
    the white space after it: either there is no split and the whole
    text is the slides region, or the text is the definitions region,
    the marker, white space, and the slides region, which is empty or
    starts at the end of a line. *)
Theorem global_split_keeps_text md :
  (globalMatch md = None /\ splitGlobal md = ("", md)) \/
  (exists ws,
     md = (splitGlobal md).1 +:+ "---global" +:+ ws +:+ (splitGlobal md).2 /\
     allChars isSpace ws = true /\
     ((splitGlobal md).2 = "" \/
      headIs isLineTerminator (splitGlobal md).2 = true)).
Proof.
  unfold splitGlobal. destruct (globalMatch md) as [[g r]|] eqn:E.
  - right. apply globalMatch_sound in E as (ws & -> & Hws & Hr).
    exists ws. split; [done|]. split; [done|]. cbn [snd].
    destruct r as [|c r]; [by left|right]. simpl in *.
    by destruct (isLineTerminator c).
  - by left.
Qed.

End GlobalParts.

Section SlideSplit.




Lemma splitFrom_lit c s (ls : bool) :
  (if ls then matchSeparator (String c s) else None) = None ->
  splitFrom (String c s) ls 0
  = consHead (String c "") (splitFrom s (isLineTerminator c) 0).
Proof.
  intros H. cbn [splitFrom]. rewrite H.
  by destruct (splitFrom s (isLineTerminator c) 0).
Qed.

Lemma notSpace_spec c : notSpace c = true <-> isSpace c = false.
Proof. unfold notSpace. by destruct (isSpace c). Qed.

Lemma lastIs_cons p c s : s <> "" -> lastIs p (String c s) = lastIs p s.
Proof. by destruct s. Qed.

Lemma separator_needs_hyphen a rest :
  allChars notHyphen a = true -> lastIs notSpace a = true ->
  matchSeparator (a +:+ rest) = None.
Proof.
  intros Hh Hl. unfold matchSeparator.
  assert (stripPrefix "---" (skipSpace (a +:+ rest)) = None) as ->; [|done].
  induction a as [|c a IH]; [done|].
  apply andb_true_iff in Hh as [Hc Hh]. rewrite sapp_cons.
  unfold skipSpace. cbn [span].
  destruct (isSpace c) eqn:Ec.
  - destruct a as [|c' a].
    { simpl in Hl. apply notSpace_spec in Hl. congruence. }
    rewrite lastIs_cons in Hl by done.
    specialize (IH Hh Hl). unfold skipSpace in IH.
    by destruct (span isSpace (String c' a +:+ rest)).
  - cbn [snd]. apply stripPrefix_head. intros <-. done.
Qed.

Lemma consHead_app a b l :
  consHead (String a "") (consHead b l) = consHead (String a b) l.
Proof. by destruct l. Qed.

Lemma splitFrom_plain a rest ls :
  allChars notHyphen a = true -> lastIs notSpace a = true ->
  splitFrom (a +:+ rest) ls 0 = consHead a (splitFrom rest false 0).
Proof.
  revert ls. induction a as [|c a IH]; intros ls Hh Hl; [done|].
  rewrite sapp_cons. rewrite splitFrom_lit.
  2:{ destruct ls; [|done]. rewrite <- sapp_cons.
      by apply separator_needs_hyphen. }
  pose proof Hh as [Hc Hh']%andb_true_iff.
  destruct a as [|c' a].
  - simpl in Hl. apply notSpace_spec in Hl.
    rewrite (not_space_not_terminator c Hl). done.
  - rewrite lastIs_cons in Hl by done.
    rewrite IH by done. apply consHead_app.
Qed.

Lemma matchSeparator_line b more :
  headIs notSpace b = true ->
  matchSeparator ("---" +:+ nl +:+ b +:+ more) = Some (nl +:+ b +:+ more).
Proof.
  intros Hb. unfold matchSeparator.
  change (skipSpace ("---" +:+ nl +:+ b +:+ more))
    with ("---" +:+ nl +:+ b +:+ more).
  rewrite stripPrefix_app. cbn [mbind option_bind].
  destruct b as [|x b]; [done|]. simpl in Hb. apply notSpace_spec in Hb.
  apply (spaceToLineEnd_line "" "010"%char "" (String x b +:+ more)); done.
Qed.

Lemma splitFrom_separator b more :
  headIs notSpace b = true ->
  splitFrom (separatorLine +:+ b +:+ more) false 0
  = nl :: consHead nl (splitFrom (b +:+ more) true 0).
Proof.
  intros Hb. unfold separatorLine. rewrite !sapp_assoc.
  change (nl +:+ "---" +:+ nl +:+ b +:+ more)
    with (String "010" ("---" +:+ nl +:+ b +:+ more)).
  rewrite splitFrom_lit by done.
  change (isLineTerminator "010") with true.
  change ("---" +:+ nl +:+ b +:+ more)
    with (String "-" (String "-" (String "-" (nl +:+ b +:+ more)))) at 1.
  cbn [splitFrom].
  change (String "-" (String "-" (String "-" (nl +:+ b +:+ more))))
    with ("---" +:+ nl +:+ b +:+ more).
  rewrite matchSeparator_line by done.
  rewrite sapp_length.
  replace (Nat.pred (strlen "---" + strlen (nl +:+ b +:+ more)
                     - strlen (nl +:+ b +:+ more))) with 2%nat
    by (change (strlen "---") with 3%nat; lia).
  change (nl +:+ b +:+ more) with (String "010" (b +:+ more)).
  change (isLineTerminator "-") with false.
  assert (splitFrom (String "010" (b +:+ more)) false 0
          = consHead nl (splitFrom (b +:+ more) true 0)) as ->
    by (by rewrite splitFrom_lit).
  done.
Qed.

Lemma trimEnd_plain b ws :
  lastIs notSpace b = true -> allChars isSpace ws = true ->
  trimEnd (b +:+ ws) = b.
Proof.
  intros Hl Hws. induction b as [|c b IH]; [done|].
  rewrite sapp_cons. cbn [trimEnd].
  destruct b as [|c' b].
  - simpl in Hl. apply notSpace_spec in Hl.
    change ("" +:+ ws) with ws. rewrite (proj2 (trimEnd_blank ws) Hws).
    simpl. by rewrite Hl.
  - rewrite lastIs_cons in Hl by done. rewrite IH by done. done.
Qed.

Lemma trim_framed b ws1 ws2 :
  headIs notSpace b = true -> lastIs notSpace b = true ->
  allChars isSpace ws1 = true -> allChars isSpace ws2 = true ->
  trim (ws1 +:+ b +:+ ws2) = b.
Proof.
  intros Hh Hl H1 H2. unfold trim, trimStart.
  rewrite skipSpace_app; [by apply trimEnd_plain|done|].
  destruct b as [|c b]; [done|]. simpl in *. by apply notSpace_spec.
Qed.

Lemma joinSlides_head b l :
  exists more, joinSlides (b :: l) = b +:+ more.
Proof.
  destruct l; [exists ""; simpl; by rewrite sapp_nil_r|].
  by eexists.
Qed.

Lemma map_trim_consHead ws l :
  allChars isSpace ws = true -> l <> [] ->
  map trim (consHead ws l) = map trim l.
Proof.
  intros Hws Hl. destruct l as [|x l]; [done|]. cbn [consHead map].
  f_equal. unfold trim, trimStart. f_equal. unfold skipSpace.
  clear -Hws. induction ws as [|c ws IH]; [done|].
  apply andb_true_iff in Hws as [Hc Hws]. rewrite sapp_cons.
  cbn [span]. rewrite Hc. specialize (IH Hws).
  by destruct (span isSpace (ws +:+ x)).
Qed.

Lemma splitFrom_joined b l ls :
  Forall plainBody (b :: l) ->
  map trim (splitFrom (joinSlides (b :: l)) ls 0) = b :: l.
Proof.
  revert b ls. induction l as [|b' l IH]; intros b ls Hall.
  - apply Forall_cons in Hall as [(Hh & Hhd & Hl) _].
    cbn [joinSlides]. rewrite <- (sapp_nil_r b).
    rewrite splitFrom_plain by done. cbn [splitFrom consHead map].
    f_equal. rewrite sapp_nil_r.
    rewrite <- (sapp_nil_r b) at 1.
    by apply (trim_framed b "" "").
  - apply Forall_cons in Hall as [(Hh & Hhd & Hl) Hall].
    pose proof Hall as [(Hh' & Hhd' & Hl') _]%Forall_cons.
    change (joinSlides (b :: b' :: l))
      with (b +:+ separatorLine +:+ joinSlides (b' :: l)).
    rewrite splitFrom_plain by done.
    destruct (joinSlides_head b' l) as [more Hmore].
    specialize (IH b' true Hall). rewrite Hmore in IH |- *.
    rewrite splitFrom_separator by done.
    cbn [consHead map]. f_equal.
    + by apply (trim_framed b "" nl).
    + rewrite map_trim_consHead; [done|done|].
      intros E. by rewrite E in IH.
Qed.

(** X16: Bodies written with a separator line between them are split into
    one slide each: the blocks are the bodies with the line breaks
    around them, none is passed over, and their number is the number of
    bodies. *)
Theorem slides_of_joined_bodies bodies :
  bodies <> [] -> Forall plainBody bodies ->
  map trim (slideBlocks (joinSlides bodies)) = bodies /\
  slides (joinSlides bodies) = slideBlocks (joinSlides bodies) /\
  totalSlides (joinSlides bodies) = Z.of_nat (length bodies).
Proof.
  intros Hne Hall. destruct bodies as [|b l]; [done|].
  pose proof (splitFrom_joined b l true Hall) as Hmap.
  change (splitFrom (joinSlides (b :: l)) true 0)
    with (slideBlocks (joinSlides (b :: l))) in Hmap.
  assert (Hs : slides (joinSlides (b :: l)) = slideBlocks (joinSlides (b :: l))).
  { unfold slides.
    assert (Hf : Forall (fun x => isEmpty (trim x) = false)
                        (slideBlocks (joinSlides (b :: l)))).
    { apply Forall_fmap with (f := trim) (P := fun x => isEmpty x = false).
      change (Forall (fun x => isEmpty x = false)
                     (map trim (slideBlocks (joinSlides (b :: l))))).
      rewrite Hmap. eapply Forall_impl; [exact Hall|].
      intros x (_ & Hx & _). by destruct x. }
    clear Hmap. induction Hf as [|x xs Hx Hxs IH]; [done|].
    rewrite filter_cons, decide_True by done. by rewrite IH. }
  split; [exact Hmap|]. split; [exact Hs|].
  unfold totalSlides. rewrite Hs.
  f_equal. rewrite <- (length_map trim). by rewrite Hmap.
Qed.

Lemma slides_of_joined_bodies_witness :
  slideBlocks (joinSlides ["# One"; "# Two"; "# Three"])
  = ["# One" +:+ nl; nl +:+ "# Two" +:+ nl; nl +:+ "# Three"] /\
  totalSlides (joinSlides ["# One"; "# Two"; "# Three"]) = 3.
Proof.
  split; [reflexivity|].
  apply (slides_of_joined_bodies ["# One"; "# Two"; "# Three"]); [done|].
  repeat apply Forall_cons_2; try apply Forall_nil; by repeat split.
Defined.

End SlideSplit.


Section Escaping.

Lemma escapeChar_cases c :
  (isMarkup c = false /\ Ascii.eqb c "&" = false /\ escapeChar c = String c "") \/
  (c = "&"%char) \/ (c = "<"%char) \/ (c = ">"%char) \/ (c = dquote) \/ (c = squote).
Proof.
  destruct c as [[] [] [] [] [] [] [] []]; vm_compute; tauto.
Qed.

Lemma unescape_amp r :
  unescapeHtml (String "&" r)
  = let u := unescapeHtml r in
    match stripPrefix "amp;" u with
    | Some t => String "&" t
    | None =>
      match stripPrefix "lt;" u with
      | Some t => String "<" t
      | None =>
        match stripPrefix "gt;" u with
        | Some t => String ">" t
        | None =>
          match stripPrefix "quot;" u with
          | Some t => String dquote t
          | None =>
            match stripPrefix "#039;" u with
            | Some t => String squote t
            | None => String "&" u
            end
          end
        end
      end
    end.
Proof. reflexivity. Qed.

Lemma unescape_other c r :
  Ascii.eqb c "&" = false -> unescapeHtml (String c r) = String c (unescapeHtml r).
Proof. intros H. cbn [unescapeHtml]. by rewrite H. Qed.

Lemma unescape_escapeChar c t :
  unescapeHtml (escapeChar c +:+ t) = String c (unescapeHtml t).
Proof.
  destruct (escapeChar_cases c) as [(Hs & Ha & ->)|[->|[->|[->|[->| ->]]]]].
  - by apply unescape_other.
  - change (escapeChar "&" +:+ t)
      with (String "&" (String "a" (String "m" (String "p" (String ";" t))))).
    rewrite unescape_amp, !unescape_other by done. reflexivity.
  - change (escapeChar "<" +:+ t)
      with (String "&" (String "l" (String "t" (String ";" t)))).
    rewrite unescape_amp, !unescape_other by done. reflexivity.
  - change (escapeChar ">" +:+ t)
      with (String "&" (String "g" (String "t" (String ";" t)))).
    rewrite unescape_amp, !unescape_other by done. reflexivity.
  - change (escapeChar dquote +:+ t)
      with (String "&" (String "q" (String "u" (String "o" (String "t" (String ";" t)))))).
    rewrite unescape_amp, !unescape_other by done. reflexivity.
  - change (escapeChar squote +:+ t)
      with (String "&" (String "#" (String "0" (String "3" (String "9" (String ";" t)))))).
    rewrite unescape_amp, !unescape_other by done. reflexivity.
Qed.

Lemma unescape_escape text : unescapeHtml (escapeHtml text) = text.
Proof.
  induction text as [|c text IH]; [done|].
  cbn [escapeHtml]. by rewrite unescape_escapeChar, IH.
Qed.

Lemma escapeChar_no_markup c : allChars (fun x => negb (isMarkup x)) (escapeChar c) = true.
Proof. destruct c as [[] [] [] [] [] [] [] []]; vm_compute; done. Qed.

(** X17: The escaped text holds none of the characters that open or close
    markup or an attribute value, and two texts with the same escaped
    text are the same text. *)
Theorem escapeHtml_safe_and_faithful :
  (forall text, allChars (fun c => negb (isMarkup c)) (escapeHtml text) = true) /\
  (forall a b, escapeHtml a = escapeHtml b -> a = b) /\
  (forall text, allChars (fun c => negb (isSpecial c)) text = true ->
                escapeHtml text = text).
Proof.
  split; [|split].
  - intros text. induction text as [|c text IH]; [done|].
    cbn [escapeHtml]. by rewrite allChars_app, escapeChar_no_markup, IH.
  - intros a b H. by rewrite <- (unescape_escape a), H, unescape_escape.
  - intros text. induction text as [|c text IH]; [done|].
    intros [Hc Ht]%andb_true_iff. cbn [escapeHtml]. rewrite IH by done.
    destruct (escapeChar_cases c) as [(_ & _ & ->)|[->|[->|[->|[->| ->]]]]];
      done.
Qed.

Lemma escapeHtml_safe_and_faithful_witness :
  escapeHtml "if x" = "if x" /\ "a<b" = "a<b".
Proof.
  split.
  - apply (proj2 (proj2 escapeHtml_safe_and_faithful)). reflexivity.
  - apply (proj1 (proj2 escapeHtml_safe_and_faithful)). reflexivity.
Defined.

End Escaping.

Section PositionedDefinitions.

Implicit Types (nm p body pre post : string).

Lemma isWordHyphen_value c :
  isWordHyphen c = true ->
  isLineTerminator c = false /\ notCommaSpace c = true /\
  Ascii.eqb dquote c = false /\ Ascii.eqb squote c = false /\
  Ascii.eqb ">" c = false /\ isSpace c = false.
Proof. destruct c as [[] [] [] [] [] [] [] []]; vm_compute; done. Qed.

(** Inside a word the end of the opening marker is not found. *)
Lemma no_marker_end w r :
  w <> "" -> allChars isWordHyphen w = true ->
  stripPrefix "-->" (skipSpace (w +:+ " -->" +:+ r)) = None.
Proof.
  intros Hne Hw.
  assert (skipSpace (w +:+ " -->" +:+ r) = w +:+ " -->" +:+ r) as ->.
  { unfold skipSpace. rewrite span_head_false; [done|].
    apply (allChars_head isWordHyphen); [apply isWordHyphen_not_space|done..]. }
  destruct w as [|a [|b [|c w]]]; [done|..].
  - cbn [append stripPrefix]. destruct (Ascii.eqb "-" a); [|done]. done.
  - cbn [append stripPrefix]. destruct (Ascii.eqb "-" a); [|done].
    destruct (Ascii.eqb "-" b); [|done]. done.
  - cbn [append stripPrefix]. destruct (Ascii.eqb "-" a); [|done].
    destruct (Ascii.eqb "-" b); [|done].
    apply andb_true_iff in Hw as [_ Hw]. apply andb_true_iff in Hw as [_ Hw].
    apply andb_true_iff in Hw as [Hc _].
    destruct (isWordHyphen_value c Hc) as (_ & _ & _ & _ & -> & _). done.
Qed.

Lemma lazyParams_tail w r :
  w <> "" -> allChars isWordHyphen w = true ->
  lazyParams (w +:+ " -->" +:+ r) = Some (w, r).
Proof.
  intros Hne Hw. induction w as [|c w IH]; [done|].
  apply andb_true_iff in Hw as [Hc Hw].
  rewrite (sapp_cons c w). cbn [lazyParams].
  destruct (isWordHyphen_value c Hc) as (-> & _).
  destruct w as [|c' w].
  - change ("" +:+ " -->" +:+ r) with (" " +:+ "-->" +:+ r).
    rewrite (skipSpace_app " ") by done. by rewrite stripPrefix_app.
  - rewrite no_marker_end by done. by rewrite IH.
Qed.

Lemma lazyParams_position p r :
  p <> "" -> allChars isWordHyphen p = true ->
  lazyParams ("position=" +:+ p +:+ " -->" +:+ r) = Some ("position=" +:+ p, r).
Proof.
  intros Hne Hp.
  assert (Hskip : forall x t, isSpace x = false ->
            skipSpace (String x t) = String x t).
  { intros x t Hx. unfold skipSpace. cbn [span]. by rewrite Hx. }
  assert (Hstep : forall x t res,
            isLineTerminator x = false ->
            stripPrefix "-->" (skipSpace t) = None ->
            lazyParams t = Some (res, r) ->
            lazyParams (String x t) = Some (String x res, r)).
  { intros x t res Hx Hn Ht. cbn [lazyParams]. by rewrite Hx, Hn, Ht. }
  assert (Htail : lazyParams (p +:+ " -->" +:+ r) = Some (p, r))
    by (by apply lazyParams_tail).
  assert (Hend : stripPrefix "-->" (skipSpace (p +:+ " -->" +:+ r)) = None)
    by (by apply no_marker_end).
  change ("position=" +:+ p +:+ " -->" +:+ r)
    with (String "p" (String "o" (String "s" (String "i" (String "t"
           (String "i" (String "o" (String "n" (String "="
             (p +:+ " -->" +:+ r)))))))))).
  change ("position=" +:+ p)
    with (String "p" (String "o" (String "s" (String "i" (String "t"
           (String "i" (String "o" (String "n" (String "=" p))))))))).
  repeat (apply Hstep; [done|try (rewrite Hskip by done; done)|]);
    try exact Htail; try exact Hend.
Qed.

Lemma matchDefine_positioned nm p body post :
  nm <> "" -> allChars isWordHyphen nm = true ->
  p <> "" -> allChars isWordHyphen p = true ->
  allChars notLt body = true ->
  matchDefine (positionedBlock nm p body +:+ post)
  = Some ((nm, Some ("position=" +:+ p), body), post).
Proof.
  intros Hne Hnm Hp Hpw Hbody. unfold matchDefine, positionedBlock.
  rewrite !sapp_assoc.
  change ("<!-- define: " +:+ ?x) with ("<!--" +:+ (" " +:+ ("define:" +:+ (" " +:+ x)))).
  rewrite stripPrefix_app. cbn [mbind option_bind].
  rewrite (skipSpace_app " ") by done.
  rewrite stripPrefix_app. cbn [mbind option_bind].
  rewrite (skipSpace_app " ") by
    (done || by apply (allChars_head isWordHyphen), Hnm;
                 [apply isWordHyphen_not_space|]).
  rewrite span_app by done.
  apply greedy_whole; [done|].
  change (skipSpace (", position=" +:+ ?x)) with (", position=" +:+ x).
  change (stripPrefix "," (", position=" +:+ ?x)) with (Some (" position=" +:+ x)).
  cbn beta iota.
  change (" position=" +:+ ?x) with (" " +:+ "position=" +:+ x).
  rewrite (span_app isSpace " ") by done.
  apply greedy_whole; [done|]. cbn beta.
  rewrite lazyParams_position by done. cbn [mbind option_bind].
  by rewrite findEndDefine_body.
Qed.

Lemma parseParams_position p :
  p <> "" -> allChars isWordHyphen p = true ->
  parseParams ("position=" +:+ p) !! "position" = Some p.
Proof.
  intros Hne Hp. unfold parseParams.
  assert (Hm : matchParam ("position=" +:+ p +:+ "") = Some (("position", p), "")).
  { unfold matchParam.
    change ("position=" +:+ p +:+ "") with ("position" +:+ "=" +:+ p +:+ "").
    rewrite (span_app isWordHyphen "position" ("=" +:+ p +:+ "")) by done.
    cbn [isEmpty].
    change (skipSpace ("=" +:+ p +:+ "")) with ("=" +:+ p +:+ "").
    rewrite (stripPrefix_app "="). cbn [mbind option_bind].
    rewrite sapp_nil_r.
    assert (skipSpace p = p) as ->.
    { unfold skipSpace. rewrite span_head_false; [done|].
      rewrite <- (sapp_nil_r p).
      apply (allChars_head isWordHyphen); [apply isWordHyphen_not_space|done..]. }
    unfold paramValue, quoted.
    destruct p as [|c p]; [done|].
    pose proof Hp as [Hc _]%andb_true_iff.
    destruct (isWordHyphen_value c Hc) as (_ & _ & Hd & Hs & _).
    cbn [stripPrefix]. rewrite Hd, Hs. cbn [mbind option_bind].
    rewrite <- (sapp_nil_r (String c p)) at 1.
    rewrite (span_app notCommaSpace (String c p) "");
      [done| |done].
    apply (allChars_impl isWordHyphen); [|done].
    intros x Hx. by apply isWordHyphen_value. }
  rewrite <- (sapp_nil_r ("position=" +:+ p)), sapp_assoc.
  rewrite (scan_hit matchParam _ _ ("position=" +:+ p) "" Hm); [|done|done].
  cbn [scan scanFrom hits fold_left]. unfold jsSet.
  rewrite decide_False by done. rewrite lookup_insert. by rewrite decide_True.
Qed.

(** X18: A definition written with a position is stored under its name
    with that position, and its block is removed from the text. *)
Theorem definition_with_position comps pre nm p body post :
  allChars notLt pre = true -> allChars notLt post = true ->
  nm <> "" -> allChars isWordHyphen nm = true -> nm <> "__proto__" ->
  p <> "" -> allChars isWordHyphen p = true ->
  allChars notLt body = true ->
  extractDefinitions comps (pre +:+ positionedBlock nm p body +:+ post)
  = (<[nm := {| name := nm; template := trim body; position := p;
                usageCount := 0 |}]> comps,
     pre +:+ post).
Proof.
  intros Hpre Hpost Hne Hnm Hproto Hp Hpw Hbody.
  unfold extractDefinitions, removeDefinitions.
  rewrite (scan_copy matchDefine notLt) by (done || apply matchDefine_needs_lt).
  rewrite (scan_hit matchDefine _ _ (positionedBlock nm p body) post
             (matchDefine_positioned nm p body post Hne Hnm Hp Hpw Hbody));
    [|done|done].
  rewrite (scan_copy_all matchDefine notLt post)
    by (done || apply matchDefine_needs_lt).
  rewrite hits_copy, replaceSegs_copy. cbn [hits fold_left replaceSegs].
  rewrite <- (app_nil_r (map _ _)), hits_copy. cbn [hits fold_left].
  rewrite app_nil_r, replaceSegs_lits. cbn [append].
  f_equal. unfold register, definitionOf.
  change (orStr (Some ?x) "") with ("position=" +:+ p).
  rewrite parseParams_position by done. cbn [name].
  rewrite trim_name by done.
  unfold jsSet. rewrite decide_False by done.
  unfold orStr. by destruct p.
Qed.

Lemma definition_with_position_witness :
  extractDefinitions ∅
    ("# Deck" +:+ positionedBlock "logo" "top-left" " ACME " +:+ "text")
  = (<["logo" := {| name := "logo"; template := "ACME";
                    position := "top-left"; usageCount := 0 |}]> ∅,
     "# Deck" +:+ "text").
Proof.
  apply (definition_with_position ∅ "# Deck" "logo" "top-left" " ACME " "text");
    done.
Defined.

End PositionedDefinitions.

Section DeckEnds.

Implicit Types (s : SlideState) (d : Deck).

Lemma step_changes s :
  reachable s ->
  (hasNextStep s = true -> (nextStep s).1 <> s) /\
  (hasPrevStep s = true -> (prevStep s).1 <> s).
Proof.
  intros Hr.
  destruct (reachable_inBounds _ Hr) as (Hinit & Hh & Hc0 & Hc1 & Hc2).
  destruct Hinit as [(bl & Hbl & Htot) Hnn].
  unfold hasNextStep, hasPrevStep, nextStep, prevStep. rewrite Hbl.
  split.
  - destruct (Z.ltb_spec (currentHighlight s)
                (highlightsAt (highlightsPerStep s) (currentStep s - 1))).
    + intros _ E. apply (f_equal currentMicroStep) in E.
      destruct (arrayGet bl (currentStep s - 1)); simpl in E; lia.
    + intros E2%Z.ltb_lt.
      destruct (Z.leb_spec (totalSteps s) (currentStep s)); [lia|].
      destruct (arrayGet_Some bl (currentStep s)) as [b ->]; [lia|].
      intros E. apply (f_equal currentMicroStep) in E. simpl in E. lia.
  - destruct (Z.ltb_spec 0 (currentHighlight s)).
    + intros _ E. apply (f_equal currentMicroStep) in E. simpl in E.
      destruct (0 <? currentHighlight s - 1); simpl in E; lia.
    + intros E2%Z.ltb_lt.
      destruct (Z.leb_spec (currentStep s) 1); [lia|].
      destruct (arrayGet_Some bl (currentStep s - 1)) as [b ->]; [lia|].
      intros E. apply (f_equal currentMicroStep) in E. simpl in E.
      destruct (0 <? highlightsAt _ _); simpl in E; lia.
Qed.

Lemma onSlide_changes d i s s' :
  arrayGet (slideStates d) i = Some s -> s' <> s ->
  onSlide d i (fun _ => s') <> d.
Proof.
  intros Hs Hne E. pose proof (arrayGet_range _ _ _ Hs) as Hi.
  apply (f_equal (fun x => arrayGet (slideStates x) i)) in E.
  unfold onSlide in E. cbn [slideStates] in E.
  destruct (Z.ltb_spec i 0); [lia|].
  rewrite arrayGet_alter_eq, Hs in E by lia. simpl in E. congruence.
Qed.

(** X19: The forward key leaves the deck as it is only on the last
    slide at its last micro-step, and the backward key only on the
    first slide at its start. *)
Theorem keys_stall_only_at_the_ends d s :
  arrayGet (slideStates d) (currentSlideIndex d) = Some s ->
  reachable s ->
  ((next d).1 = d <->
   currentSlideIndex d = slideCount d - 1 /\ hasNextStep s = false) /\
  ((prev d).1 = d <->
   currentSlideIndex d = 0 /\ hasPrevStep s = false).
Proof.
  intros Hs Hr. pose proof (arrayGet_range _ _ _ Hs) as Hi.
  fold (slideCount d) in Hi.
  destruct (step_changes s Hr) as [Hn Hp].
  split.
  - unfold next. rewrite Hs.
    destruct (hasNextStep s) eqn:E; cbn [fst].
    + split; [|intros [_ ?]; done].
      intros Hd. exfalso.
      exact (onSlide_changes d _ s (nextStep s).1 Hs (Hn eq_refl) Hd).
    + destruct (Z.ltb_spec (currentSlideIndex d) (slideCount d - 1)); cbn [fst].
      * split; [|lia]. intros Hd.
        apply (f_equal currentSlideIndex) in Hd.
        rewrite goto_index in Hd by lia. lia.
      * split; [intros _; split; [lia|done]|done].
  - unfold prev. rewrite Hs.
    destruct (hasPrevStep s) eqn:E; cbn [fst].
    + split; [|intros [_ ?]; done].
      intros Hd. exfalso.
      exact (onSlide_changes d _ s (prevStep s).1 Hs (Hp eq_refl) Hd).
    + destruct (Z.ltb_spec 0 (currentSlideIndex d)); cbn [fst].
      * split; [|lia]. intros Hd.
        apply (f_equal currentSlideIndex) in Hd.
        rewrite goto_index in Hd by lia. lia.
      * split; [intros _; split; [lia|done]|done].
Qed.

Lemma keys_stall_only_at_the_ends_witness :
  (next twoSlides).1 <> twoSlides /\ (prev twoSlides).1 <> twoSlides.
Proof.
  assert (Hr : reachable (nextStep oneHighlightSlide).1)
    by (apply reach_next, reach_parsed; repeat constructor; lia).
  destruct (keys_stall_only_at_the_ends twoSlides
              (nextStep oneHighlightSlide).1 eq_refl Hr) as [Hn Hp].
  split.
  - intros E. apply Hn in E as [E _]. vm_compute in E. discriminate E.
  - intros E. apply Hp in E as [_ E]. vm_compute in E. discriminate E.
Defined.

End DeckEnds.

Section ConstructFree.

Lemma no_hits_without_opening {A} (m : string -> option (A * string)) t :
  opensConstruct m ->
  (forall pre post, t <> pre +:+ "{{#" +:+ post) ->
  hits (scan m t) = [].
Proof.
  intros Hm Ht. destruct (hits (scan m t)) as [|g l] eqn:E; [done|].
  assert (Hg : g ∈ hits (scanFrom m t 0)) by (unfold scan in E; rewrite E; left).
  apply scanFrom_hits in Hg as (pre & s' & rest & -> & Hs).
  destruct (stripPrefix "{{#" s') as [r|] eqn:E2.
  - apply stripPrefix_Some in E2 as ->. by destruct (Ht pre r).
  - rewrite (Hm s' E2) in Hs. done.
Qed.

(** X20: A template in which no construct opens is rendered without any
    recursive call: the result is the template with its variables
    substituted. *)
Theorem construct_free_template cs fuel t vars :
  (forall pre post, t <> pre +:+ "{{#" +:+ post) ->
  renderTemplate cs (S fuel) t vars = Some (substituteVars t vars).
Proof.
  intros Ht. cbn [renderTemplate].
  apply constructs_id; apply no_hits_without_opening; try done.
  - apply matchRepeat_opens.
  - apply matchCompare_opens.
  - apply matchCompare_opens.
  - apply matchIf_opens.
  - apply matchOrder_opens.
  - apply matchOrder_opens.
Qed.

Lemma construct_free_template_witness :
  renderTemplate nanCompare 1 "{{a}} of {{b}}" (<["a" := VNum 2]> ∅)
  = Some (substituteVars "{{a}} of {{b}}" (<["a" := VNum 2]> ∅)).
Proof.
  apply construct_free_template.
  intros pre post. by apply findSub_None.
Defined.

End ConstructFree.

Section StepCount.

Lemma pieces_length {A} (l : list (segment A)) :
  length (pieces l).1 = length (hits l).
Proof.
  induction l as [|[c|g] l IH]; [done|..]; cbn [pieces hits].
  - destruct (pieces l) as [[|[b g] ps] tl]; cbn in *; done.
  - destruct (pieces l) as [ps tl]. cbn in *. by rewrite IH.
Qed.

Lemma onMarker_length opts steps before g :
  (1 <= length (onMarker opts steps before g) <= S (length steps))%nat.
Proof.
  unfold onMarker.
  set (steps1 := if isEmpty before then steps else _).
  assert (H1 : (length steps <= length steps1 <= S (length steps))%nat).
  { unfold steps1. destruct (isEmpty before); [lia|].
    destruct (isEmpty (trim before)); [lia|]. rewrite length_app. simpl. lia. }
  assert (H2 : steps1 = [] -> steps = []).
  { intros E. rewrite E in H1. simpl in H1. destruct steps; [done|simpl in H1; lia]. }
  clearbody steps1.
  destruct (lastStep steps1) as [l|] eqn:E.
  - rewrite length_app. simpl.
    destruct steps1 as [|x xs]; [done|].
    rewrite removelast_firstn_len, length_take. simpl in *. lia.
  - simpl. lia.
Qed.

Lemma fold_onMarker_length opts ps steps :
  (length (fold_left (fun st '(b, g) => onMarker opts st b g) ps steps)
   <= length ps + length steps)%nat.
Proof.
  revert steps. induction ps as [|[b g] ps IH]; intros steps; [simpl; lia|].
  cbn [fold_left length]. etrans; [apply IH|].
  pose proof (onMarker_length opts steps b g). lia.
Qed.

(** X21: A text with [n] step markers has at most [n + 1] steps, and no
    step is blank. *)
Theorem steps_bounded_by_markers opts text :
  (length (splitSteps opts text)
   <= S (length (hits (scan matchStep text))))%nat /\
  Forall (fun st => trim (content st) <> "") (splitSteps opts text).
Proof.
  unfold splitSteps.
  pose proof (pieces_length (scan matchStep text)) as Hp.
  destruct (pieces (scan matchStep text)) as [ps tl]. cbn [fst] in Hp.
  pose proof (fold_onMarker_length opts ps []) as Hf. simpl in Hf.
  set (steps := fold_left _ ps []) in *.
  set (steps1 := if isEmpty tl then steps else _).
  assert (H1 : (length steps1 <= S (length ps))%nat).
  { unfold steps1. destruct (isEmpty tl); [lia|].
    destruct (isEmpty (trim tl)); [lia|]. rewrite length_app. simpl. lia. }
  clearbody steps1.
  split.
  - etrans; [apply length_filter|].
    destruct steps1; simpl in *; lia.
  - apply Forall_forall. intros st Hst.
    apply list_elem_of_filter in Hst as [Hst _].
    by apply isEmpty_false.
Qed.

End StepCount.


Section BareParameters.

Lemma matchParam_bare k v rest :
  bareWritable (k, v) -> headIs notCommaSpace rest = false ->
  matchParam (writeBarePair (k, v) +:+ rest) = Some ((k, v), rest).
Proof.
  intros (Hk & Hw & Hv & Hnc & Hq) Hrest. cbn [fst snd] in *.
  unfold writeBarePair, matchParam. cbn [fst snd].
  rewrite !sapp_assoc.
  rewrite (span_app isWordHyphen k) by done.
  assert (isEmpty k = false) as -> by (by destruct k).
  change (skipSpace ("=" +:+ v +:+ rest)) with ("=" +:+ v +:+ rest).
  rewrite (stripPrefix_app "="). cbn [mbind option_bind].
  destruct v as [|c v]; [done|].
  pose proof Hnc as [Hc _]%andb_true_iff.
  assert (isSpace c = false) as Hsp.
  { unfold notCommaSpace in Hc. by destruct (code c =? 44)%N, (isSpace c). }
  assert (skipSpace (String c v +:+ rest) = String c v +:+ rest) as ->.
  { unfold skipSpace. rewrite sapp_cons. cbn [span]. by rewrite Hsp. }
  unfold paramValue, quoted. rewrite sapp_cons. cbn [stripPrefix].
  simpl in Hq. unfold isQuote in Hq. apply orb_false_iff in Hq as [Hd Hs].
  rewrite (Ascii.eqb_sym dquote), Hd, (Ascii.eqb_sym squote), Hs.
  cbn [mbind option_bind]. rewrite <- sapp_cons.
  rewrite (span_app notCommaSpace (String c v) rest) by done.
  done.
Qed.

Lemma matchParam_separator s : matchParam (", " +:+ s) = None /\
                               matchParam (" " +:+ s) = None.
Proof. done. Qed.

Lemma writeBarePair_nonempty kv : bareWritable kv -> writeBarePair kv <> "".
Proof. intros (Hk & _). unfold writeBarePair. by destruct kv as [[|c k] v]. Qed.

Lemma scan_bare l :
  Forall bareWritable l -> hits (scan matchParam (writeBareParams l)) = l.
Proof.
  induction 1 as [|[k v] l Hkv Hl IH]; [done|].
  destruct l as [|kv' l].
  - cbn [writeBareParams]. rewrite <- (sapp_nil_r (writeBarePair (k, v))).
    rewrite (scan_hit matchParam _ _ (writeBarePair (k, v)) ""
               (matchParam_bare k v "" Hkv eq_refl));
      [done|done|by apply writeBarePair_nonempty].
  - change (writeBareParams ((k, v) :: kv' :: l))
      with (writeBarePair (k, v) +:+ ", " +:+ writeBareParams (kv' :: l)).
    rewrite (scan_hit matchParam _ _ (writeBarePair (k, v))
               (", " +:+ writeBareParams (kv' :: l))
               (matchParam_bare k v (", " +:+ writeBareParams (kv' :: l))
                                Hkv eq_refl));
      [|done|by apply writeBarePair_nonempty].
    cbn [hits]. f_equal.
    change (", " +:+ ?x) with (String "," (String " " x)).
    rewrite !scan_lit by done. cbn [hits]. exact IH.
Qed.

(** X22: Parameters written as [key=value] without quotes, separated
    by a comma and a space, are read back as they were written, a later pair
    replacing an earlier one with the same key. *)
Theorem parseParams_reads_bare l :
  Forall bareWritable l ->
  parseParams (writeBareParams l)
  = fold_left (fun params '(key, v) => jsSet key v params) l ∅.
Proof. intros Hl. unfold parseParams. by rewrite scan_bare. Qed.

Lemma parseParams_reads_bare_witness :
  parseParams (writeBareParams [("src", "a.png"); ("width", "300px")])
  = <["width" := "300px"]> (<["src" := "a.png"]> ∅).
Proof.
  apply (parseParams_reads_bare [("src", "a.png"); ("width", "300px")]).
  repeat apply Forall_cons_2; try apply Forall_nil; by repeat split.
Defined.

End BareParameters.

Section DeckWalk.

Implicit Types (s : SlideState) (d : Deck) (k n j : nat).

Lemma hasNextStep_at_pos s k :
  initialised s -> at_pos s k ->
  (hasNextStep s = true <->
   (S k < length (canonical (chunkHighlights s)))%nat).
Proof.
  intros [_ Hnn] (H1 & hc & H2 & Hch & Hcs & Hcur & ->).
  destruct (chunkHighlights_split s H1 H2 hc Hch) as [Hh Htot].
  rewrite Hch, canonical_split_length.
  unfold hasNextStep. replace (currentStep s - 1) with (Z.of_nat (length H1)) by lia.
  rewrite Hh.
  destruct (Z.ltb_spec (currentHighlight s) hc); [split; [lia|done]|].
  destruct (Z.ltb_spec (currentStep s) (totalSteps s)).
  - split; [|done]. intros _. destruct H2 as [|h2 H2]; [simpl in Htot; lia|].
    unfold canonical. cbn [canonicalFrom]. rewrite length_app, chunkPairs_length. lia.
  - split; [done|]. intros Hlt. destruct H2 as [|h2 H2]; [simpl in Hlt; lia|].
    simpl in Htot. lia.
Qed.

Lemma deckOrder_nil i hss :
  Forall (fun hs => hs <> []) hss -> deckOrder i hss = [] -> hss = [].
Proof.
  intros Hne. destruct hss as [|hs r]; [done|].
  apply Forall_cons in Hne as [Hhs _]. cbn [deckOrder].
  intros E%app_eq_nil. destruct E as [E _].
  apply (f_equal length) in E. rewrite length_map in E.
  by apply canonical_nil_length in E.
Qed.

Lemma drop_lookup_cons {A} (l : list A) k x :
  l !! k = Some x -> drop k l = x :: drop (S k) l.
Proof.
  revert k. induction l as [|y l IH]; intros [|k]; simpl; try done.
  - by intros [= ->].
  - apply IH.
Qed.

Lemma arrayGet_nat {A} (l : list A) j : arrayGet l (Z.of_nat j) = l !! j.
Proof.
  unfold arrayGet. destruct (Z.ltb_spec (Z.of_nat j) 0); [lia|].
  by rewrite Nat2Z.id.
Qed.

Lemma onSlide_nat d j f :
  onSlide d (Z.of_nat j) f
  = {| currentSlideIndex := currentSlideIndex d;
       slideStates := alter f j (slideStates d) |}.
Proof.
  unfold onSlide. destruct (Z.ltb_spec (Z.of_nat j) 0); [lia|].
  by rewrite Nat2Z.id.
Qed.

Lemma map_alter_same {A B} (g : A -> B) (f : A -> A) (l : list A) j x :
  l !! j = Some x -> g (f x) = g x -> map g (alter f j l) = map g l.
Proof.
  revert j. induction l as [|y l IH]; intros [|j]; simpl; try done.
  - intros [= ->] E. by rewrite E.
  - intros Hl E. f_equal. by apply IH.
Qed.

Lemma Forall_alter_same {A} (P : A -> Prop) (f : A -> A) (l : list A) j x :
  l !! j = Some x -> P (f x) -> Forall P l -> Forall P (alter f j l).
Proof.
  intros Hl Hf HP. apply Forall_alter; [done|].
  intros y Hy. rewrite Hl in Hy. by injection Hy as <-.
Qed.

Lemma resetSlide_start s :
  initialised s -> chunkHighlights s <> [] ->
  initialised (resetSlide s) /\
  chunkHighlights (resetSlide s) = chunkHighlights s /\
  at_pos (resetSlide s) 0.
Proof.
  intros Hinit Hne. pose proof Hinit as [(bl & Hbl & Htot) Hnn].
  assert (Hf : highlightsPerStep (resetSlide s) = highlightsPerStep s /\
               totalSteps (resetSlide s) = totalSteps s /\
               blocks (resetSlide s) = blocks s /\
               currentStep (resetSlide s) = 1 /\
               currentHighlight (resetSlide s) = 0).
  { unfold resetSlide. rewrite Hbl. done. }
  destruct Hf as (F1 & F2 & F3 & F4 & F5).
  assert (Hch : chunkHighlights (resetSlide s) = chunkHighlights s)
    by (by apply chunkHighlights_frame).
  split; [by apply (initialised_frame s)|]. split; [done|].
  apply at_pos_first; [by rewrite F1|by rewrite Hch|done|done].
Qed.

Lemma walk_from n : forall d j s k hss,
  map chunkHighlights (slideStates d) = hss ->
  Forall initialised (slideStates d) ->
  Forall (fun hs => hs <> []) hss ->
  currentSlideIndex d = Z.of_nat j ->
  slideStates d !! j = Some s ->
  at_pos s k ->
  let R := app (drop k (map (fun c => (Z.of_nat j, Some c))
                            (canonical (chunkHighlights s))))
               (deckOrder (Z.of_nat j + 1) (drop (S j) hss)) in
  length R = S n ->
  map view (presses n d) = R /\
  forall dl, last (presses n d) = Some dl -> (next dl).1 = dl.
Proof.
  induction n as [|n IH]; intros d j s k hss Hhss Hinit Hne Hidx Hs Hpos R HR.
  - (* the last micro-step of the deck *)
    pose proof (at_pos_bound s k Hpos) as Hk.
    assert (Hs_init : initialised s)
      by (eapply Forall_lookup_1 in Hinit; eauto).
    pose proof (at_pos_cursor s k (proj2 Hs_init) Hpos) as Hcur.
    assert (Hx : map (fun c => (Z.of_nat j, Some c)) (canonical (chunkHighlights s)) !! k
                 = Some (Z.of_nat j, Some (cursor s)))
      by (by rewrite list_lookup_fmap, Hcur).
    unfold R in HR. rewrite (drop_lookup_cons _ _ _ Hx) in HR.
    cbn [app length] in HR.
    assert (Hd0 : drop (S k) (map (fun c => (Z.of_nat j, Some c))
                                  (canonical (chunkHighlights s))) = []).
    { apply length_zero_iff_nil. rewrite length_app in HR. lia. }
    assert (Ho0 : deckOrder (Z.of_nat j + 1) (drop (S j) hss) = []).
    { apply length_zero_iff_nil. rewrite length_app in HR. lia. }
    split.
    + cbn [presses map]. unfold R. rewrite (drop_lookup_cons _ _ _ Hx), Hd0, Ho0.
      unfold view. rewrite Hidx, arrayGet_nat, Hs. done.
    + cbn [presses last]. intros dl [= <-].
      assert (Hlast : S k = length (canonical (chunkHighlights s))).
      { apply (f_equal length) in Hd0. rewrite length_drop, length_map in Hd0.
        simpl in Hd0. lia. }
      assert (Hno : hasNextStep s = false).
      { destruct (hasNextStep s) eqn:E; [|done].
        apply (hasNextStep_at_pos s k Hs_init Hpos) in E. lia. }
      apply deckOrder_nil in Ho0; [|by apply Forall_drop].
      apply (f_equal length) in Ho0. rewrite length_drop in Ho0. simpl in Ho0.
      assert (length hss = length (slideStates d)) as Hlen
        by (by rewrite <- Hhss, length_map).
      unfold next. rewrite Hidx, arrayGet_nat, Hs, Hno. unfold slideCount.
      destruct (Z.ltb_spec (Z.of_nat j) (Z.of_nat (length (slideStates d)) - 1));
        [lia|done].
  - (* a further press *)
    pose proof (at_pos_bound s k Hpos) as Hk.
    assert (Hs_init : initialised s)
      by (eapply Forall_lookup_1 in Hinit; eauto).
    pose proof (at_pos_cursor s k (proj2 Hs_init) Hpos) as Hcur.
    assert (Hx : map (fun c => (Z.of_nat j, Some c)) (canonical (chunkHighlights s)) !! k
                 = Some (Z.of_nat j, Some (cursor s)))
      by (by rewrite list_lookup_fmap, Hcur).
    assert (Hview : view d = (Z.of_nat j, Some (cursor s)))
      by (unfold view; by rewrite Hidx, arrayGet_nat, Hs).
    cbn [presses map]. rewrite Hview.
    unfold R in *. rewrite (drop_lookup_cons _ _ _ Hx) in *.
    cbn [app length] in HR.
    destruct (decide (S k < length (canonical (chunkHighlights s)))%nat) as [Hlt|Hge].
    + (* inside the slide *)
      pose proof Hlt as Hhas%(hasNextStep_at_pos s k Hs_init Hpos).
      destruct (nextStep_at_pos s k Hs_init Hpos Hlt) as (Hpos' & _ & Hch').
      assert (Hnext : (next d).1 = onSlide d (Z.of_nat j) (fun _ => (nextStep s).1)).
      { unfold next. by rewrite Hidx, arrayGet_nat, Hs, Hhas. }
      rewrite Hnext, onSlide_nat.
      set (d' := {| currentSlideIndex := currentSlideIndex d;
                    slideStates := alter (fun _ => (nextStep s).1) j (slideStates d) |}).
      destruct (IH d' j (nextStep s).1 (S k) hss) as [IH1 IH2].
      * cbn [slideStates d']. rewrite <- Hhss.
        by apply (map_alter_same chunkHighlights _ _ j s).
      * cbn [slideStates d'].
        apply (Forall_alter_same _ _ _ j s); [done| |done].
        by apply initialised_nextStep.
      * done.
      * done.
      * cbn [slideStates d']. rewrite list_lookup_alter, decide_True by done.
        by rewrite Hs.
      * done.
      * rewrite Hch'. lia.
      * rewrite Hch' in IH1. cbn [app]. split; [by rewrite IH1|].
        intros dl Hdl. apply IH2.
        destruct n; exact Hdl.
    + (* on to the next slide *)
      assert (Hd0 : drop (S k) (map (fun c => (Z.of_nat j, Some c))
                                    (canonical (chunkHighlights s))) = []).
      { apply drop_ge. rewrite length_map. lia. }
      rewrite Hd0 in *. cbn [app] in *.
      assert (Hno : hasNextStep s = false).
      { destruct (hasNextStep s) eqn:E; [|done].
        apply (hasNextStep_at_pos s k Hs_init Hpos) in E. lia. }
      destruct (drop (S j) hss) as [|hs' rest] eqn:Edrop; [simpl in HR; lia|].
      assert (Hhs' : hss !! S j = Some hs').
      { rewrite <- (Nat.add_0_r (S j)), <- lookup_drop, Edrop. done. }
      assert (Hrest : drop (S (S j)) hss = rest).
      { rewrite (drop_lookup_cons _ _ _ Hhs') in Edrop. congruence. }
      rewrite <- Hhss, list_lookup_fmap in Hhs'.
      destruct (slideStates d !! S j) as [s'|] eqn:Es'; [|done].
      injection Hhs' as Hhs'.
      assert (Hs'_init : initialised s')
        by (eapply Forall_lookup_1 in Hinit; eauto).
      assert (Hs'_ne : chunkHighlights s' <> []).
      { rewrite Hhs'. eapply Forall_lookup_1 in Hne; [exact Hne|].
        rewrite <- Hhss, list_lookup_fmap, Es'. simpl. by rewrite Hhs'. }
      destruct (resetSlide_start s' Hs'_init Hs'_ne) as (Ri & Rc & Rp).
      pose proof (lookup_lt_Some _ _ _ Es') as Hlen.
      assert (Hnext : (next d).1
                      = {| currentSlideIndex := Z.of_nat (S j);
                           slideStates := alter resetSlide (S j) (slideStates d) |}).
      { unfold next. rewrite Hidx, arrayGet_nat, Hs, Hno. unfold slideCount.
        destruct (Z.ltb_spec (Z.of_nat j) (Z.of_nat (length (slideStates d)) - 1));
          [|lia].
        cbn [fst]. unfold goto, slideCount.
        destruct (Z.ltb_spec (Z.of_nat j + 1) 0); [lia|].
        destruct (Z.leb_spec (Z.of_nat (length (slideStates d))) (Z.of_nat j + 1));
          [lia|].
        cbn [orb]. change (String.eqb "forward" "forward") with true. cbn iota.
        replace (Z.of_nat j + 1) with (Z.of_nat (S j)) by lia.
        by rewrite onSlide_nat. }
      rewrite Hnext.
      set (d' := {| currentSlideIndex := Z.of_nat (S j);
                    slideStates := alter resetSlide (S j) (slideStates d) |}).
      destruct (IH d' (S j) (resetSlide s') 0%nat hss) as [IH1 IH2].
      * cbn [slideStates d']. rewrite <- Hhss.
        by apply (map_alter_same chunkHighlights _ _ (S j) s').
      * cbn [slideStates d'].
        by apply (Forall_alter_same _ _ _ (S j) s').
      * done.
      * done.
      * cbn [slideStates d']. rewrite list_lookup_alter, decide_True by done.
        by rewrite Es'.
      * done.
      * rewrite Rc, Hhs', Hrest, drop_0.
        cbn [deckOrder] in HR. rewrite !length_app, length_map in *.
        replace (Z.of_nat (S j)) with (Z.of_nat j + 1) by lia. lia.
      * rewrite Rc, Hhs', Hrest, drop_0 in IH1.
        cbn [deckOrder].
        replace (Z.of_nat (S j)) with (Z.of_nat j + 1) in IH1 by lia.
        split; [by rewrite IH1|].
        intros dl Hdl. apply IH2. destruct n; exact Hdl.
Qed.

Lemma deckOrder_length_pos i hss :
  hss <> [] -> Forall (fun hs => hs <> []) hss ->
  (0 < length (deckOrder i hss))%nat.
Proof.
  intros Hne Hall. destruct (deckOrder i hss) eqn:E; [|simpl; lia].
  by apply deckOrder_nil in E.
Qed.



End DeckWalk.

(* ===================================================================== *)
(** * Counts of the repeat construct *)
(* ===================================================================== *)

Section RepeatCounts.

Implicit Types (countExpr body : string) (vars : gmap string value).

Lemma matchRepeat_needs_brace c s :
  notBrace c = true -> matchRepeat (String c s) = None.
Proof.
  intros H. apply matchRepeat_opens. apply stripPrefix_head.
  by apply notBrace_neq.
Qed.

Lemma matchRepeat_no_count countExpr tail :
  headIs isWordDollar countExpr = false -> headIs isSpace countExpr = false ->
  matchRepeat ("{{#repeat " +:+ countExpr +:+ "}}" +:+ tail) = None.
Proof.
  intros Hw Hs. unfold matchRepeat.
  change ("{{#repeat " +:+ countExpr +:+ "}}" +:+ tail)
    with ("{{#repeat" +:+ " " +:+ countExpr +:+ "}}" +:+ tail).
  rewrite stripPrefix_app. cbn [mbind option_bind].
  rewrite (span_app isSpace " ");
    [|done|by destruct countExpr].
  cbn [isEmpty].
  rewrite span_head_false by (by destruct countExpr).
  done.
Qed.

Lemma processRepeat_not_matched
    (render : string -> gmap string value -> option string)
    vars countExpr body :
  headIs isWordDollar countExpr = false -> headIs isSpace countExpr = false ->
  allChars notBrace countExpr = true -> allChars notBrace body = true ->
  processRepeat render
    ("{{#repeat " +:+ countExpr +:+ "}}" +:+ body +:+ "{{/repeat}}") vars
  = Some ("{{#repeat " +:+ countExpr +:+ "}}" +:+ body +:+ "{{/repeat}}").
Proof.
  intros Hw Hs Hc Hb. unfold processRepeat. apply replaceM_scan_id.
  set (tail := body +:+ "{{/repeat}}").
  pose proof (matchRepeat_no_count countExpr tail Hw Hs) as H0.
  change ("{{#repeat " +:+ countExpr +:+ "}}" +:+ tail)
    with (String "{" (String "{" ("#repeat " +:+ countExpr +:+ "}}" +:+ tail)))
    in *.
  rewrite (scan_lit matchRepeat _ _ H0).
  rewrite scan_lit by done. cbn [hits].
  unfold tail. rewrite <- !sapp_assoc.
  rewrite (scan_copy matchRepeat notBrace)
    by (apply matchRepeat_needs_brace
        || by rewrite !allChars_app, Hc, Hb).
  rewrite hits_copy.
  change "{{/repeat}}" with (String "{" (String "{" "/repeat}}")).
  rewrite !scan_lit by done. reflexivity.
Qed.

(** C7 (as amended): a repeat construct whose count is a run of word
    characters and [$] is replaced by its body expanded once for each
    [i] from 0 to [N - 1], under the context extended with [$i] (from
    1) and [$i0] (from 0), where [N] is what [parseInt] reads from the
    count or, when that is not a number, from the variable of that
    name, and is at most 2^53 (the counter of the loop is a double and
    stops advancing there); without such an [N], or with [N <= 0], the
    construct is replaced by the empty string.  A count written in decimal digits is
    that number.  A count that starts with another character, a sign
    for one, is no construct: the text is left as written.  The
    template of the example expands to [#1 #2 #3 ]. *)
Theorem repeat_expansion :
  (forall (render : string -> gmap string value -> option string)
          vars countExpr body,
     countExpr <> "" -> allChars isWordDollar countExpr = true ->
     (forall b' a',
        body +:+ "{{/repeat}}" = b' +:+ "{{/repeat}}" +:+ a' ->
        (strlen body <= strlen b')%nat) ->
     (forall n, repeatCount countExpr vars = Some n ->
                n <= 9007199254740992) ->
     processRepeat render
       ("{{#repeat " +:+ countExpr +:+ "}}" +:+ body +:+ "{{/repeat}}") vars
     = match repeatCount countExpr vars with
       | Some n =>
         if 0 <? n
         then concatStrings <$>
              mapM (fun i => render body (loopVars vars i)) (seqZ 0 n)
         else Some ""
       | None => Some ""
       end) /\
  (forall digits vars,
     digits <> "" -> allChars isDigit digits = true ->
     decimalValue digits <= 9007199254740992 ->
     repeatCount digits vars = Some (decimalValue digits)) /\
  (forall nm vars,
     parseInt nm = None ->
     repeatCount nm vars = vars !! nm ≫= fun v => parseInt (toString v)) /\
  (forall (render : string -> gmap string value -> option string)
          vars countExpr body,
     headIs isWordDollar countExpr = false ->
     headIs isSpace countExpr = false ->
     allChars notBrace countExpr = true -> allChars notBrace body = true ->
     processRepeat render
       ("{{#repeat " +:+ countExpr +:+ "}}" +:+ body +:+ "{{/repeat}}") vars
     = Some ("{{#repeat " +:+ countExpr +:+ "}}" +:+ body +:+ "{{/repeat}}")) /\
  (forall cs fuel vars,
     renderTemplate cs (S (S fuel)) "{{#repeat 3}}#{{$i}} {{/repeat}}" vars
     = Some "#1 #2 #3 ").
Proof.
  split; [|split; [|split; [|split]]].
  - intros render vars countExpr body Hne Hall Hmin _.
    unfold processRepeat.
    rewrite (scan_hit matchRepeat _ (countExpr, body)
               ("{{#repeat " +:+ countExpr +:+ "}}" +:+ body +:+ "{{/repeat}}")
               "").
    + cbn [scan scanFrom replaceM mbind option_bind].
      destruct (repeatCount countExpr vars) as [n|]; [|done].
      destruct (Z.ltb_spec 0 n) as [Hpos|Hle];
        destruct (Z.leb_spec n 0) as [Hle'|Hpos']; try lia; [|done].
      rewrite repeatLoop_spec, Z2Nat.id by lia.
      destruct (_ <$> _) as [r|]; [|done].
      cbn [mbind option_bind]. by rewrite sapp_nil_r.
    + rewrite <- (matchRepeat_construct countExpr body "") by
        (done || by intros b' a'; rewrite sapp_nil_r; apply Hmin).
      by rewrite !sapp_nil_r.
    + by rewrite !sapp_assoc, sapp_nil_r.
    + done.
  - intros digits vars Hne Hall Hbound. unfold repeatCount.
    by rewrite parseInt_decimal.
  - intros nm vars H. unfold repeatCount. by rewrite H.
  - intros render vars countExpr body. apply processRepeat_not_matched.
  - intros cs fuel vars. cbn [renderTemplate]. unfold renderPasses at 1.
    unfold processRepeat at 1.
    change (scan matchRepeat "{{#repeat 3}}#{{$i}} {{/repeat}}")
      with [@Hit (string * string) ("3", "#{{$i}} ")].
    cbn [replaceM].
    change (repeatCount "3" vars) with (Some 3). cbn [Z.leb Z.compare].
    change (Z.to_nat 3) with 3%nat. cbn [repeatLoop].
    change (renderPasses cs (renderTemplate cs fuel))
      with (renderTemplate cs (S fuel)).
    rewrite !render_loop_body. cbn [mbind option_bind].
    change ((("#" +:+ showZ (0 + 1) +:+ " ") +:+
             ("#" +:+ showZ (0 + 1 + 1) +:+ " ") +:+
             ("#" +:+ showZ (0 + 1 + 1 + 1) +:+ " ") +:+ "") +:+ "")
      with "#1 #2 #3 ".
    unfold processEq, processNeq, processIf, processGt, processLt.
    rewrite (replaceM_scan_id (matchCompare "eq")) by reflexivity.
    cbn [mbind option_bind].
    rewrite (replaceM_scan_id (matchCompare "neq")) by reflexivity.
    cbn [mbind option_bind].
    rewrite (replaceM_scan_id matchIf) by reflexivity.
    cbn [mbind option_bind].
    rewrite (replaceM_scan_id (matchOrder "gt")) by reflexivity.
    cbn [mbind option_bind].
    rewrite (replaceM_scan_id (matchOrder "lt")) by reflexivity.
    cbn [mbind option_bind].
    unfold substituteVars. by rewrite replaceSegs_scan_id by reflexivity.
Qed.

Lemma repeat_expansion_witness :
  processRepeat (renderTemplate nanCompare 1)
                "{{#repeat 2}}x{{$i0}}{{/repeat}}" ∅
  = Some "x0x1" /\
  repeatCount "12" ∅ = Some 12 /\
  processRepeat (renderTemplate nanCompare 1)
                "{{#repeat +2}}x{{/repeat}}" ∅
  = Some "{{#repeat +2}}x{{/repeat}}".
Proof.
  destruct repeat_expansion as (H1 & H2 & _ & H4 & _). split; [|split].
  - rewrite (H1 (renderTemplate nanCompare 1) ∅ "2" "x{{$i0}}");
      [reflexivity | discriminate | reflexivity | |].
    + intros b' a' E.
      apply (findSub_first "{{/repeat}}" ("x{{$i0}}" +:+ "{{/repeat}}")
                           "x{{$i0}}" "" eq_refl b' a' E).
    + intros n H. vm_compute in H. injection H as <-. lia.
  - apply (H2 "12" ∅); [discriminate | reflexivity | by vm_compute].
  - apply (H4 (renderTemplate nanCompare 1) ∅ "+2" "x"); reflexivity.
Defined.

(** C7 (as stated): the count [-1] is an integer and is not positive,
    yet the construct is not replaced by the empty string: the repeat
    pattern does not match a sign, and the text stays as written. *)
Lemma signed_count_left_as_written :
  parseInt "-1" = Some (-1) /\
  processRepeat (renderTemplate nanCompare 1)
                "{{#repeat -1}}x{{/repeat}}" ∅
  = Some "{{#repeat -1}}x{{/repeat}}" /\
  renderTemplate nanCompare 2 "{{#repeat -1}}x{{/repeat}}" ∅
  = Some "{{#repeat -1}}x{{/repeat}}".
Proof. repeat split; reflexivity. Qed.

End RepeatCounts.

(* ===================================================================== *)
(** * Micro-step completeness *)
(* ===================================================================== *)

Section Completeness.

Implicit Types (s : SlideState) (bl : list nat) (hs : list Z).

Lemma countHighlights_nonneg text : 0 <= countHighlights text.
Proof. unfold countHighlights. lia. Qed.

Lemma imap_map_ext {A B C} (f : nat -> A -> B) (g : B -> C) (h : A -> C)
    (l : list A) :
  (forall i x, g (f i x) = h x) -> map g (imap f l) = map h l.
Proof.
  intros H. revert f H. induction l as [|x l IH]; intros f H; [done|].
  cbn [imap map]. rewrite H. f_equal. apply IH. intros i y. apply H.
Qed.

(** The record of a slide rendered as one region lists the highlight
    counts of its blocks. *)
Lemma slideRecord_single opts renderFn text :
  let s := slideRecord opts renderFn [text] in
  let bl := map (fun st => Z.to_nat (countHighlights (content st)))
                (splitSteps opts text) in
  blocks s = Some bl /\
  totalSteps s = Z.of_nat (length bl) /\
  highlightsPerStep s = map Z.of_nat bl.
Proof.
  intros s bl. subst s.
  unfold slideRecord, renderRegions. cbn [fold_left fst snd app].
  unfold parseAndRender. cbn [fst snd].
  rewrite (imap_map_ext _ _
             (fun st => Z.to_nat (countHighlights (content st))))
    by done.
  fold bl. unfold initSlide. cbn [blocks totalSteps highlightsPerStep parsedState].
  split; [done|]. split; [done|].
  assert (map (fun st => countHighlights (content st)) (splitSteps opts text)
          = map Z.of_nat bl) as E.
  { unfold bl. rewrite map_map. apply map_ext. intros st.
    pose proof (countHighlights_nonneg (content st)). lia. }
  rewrite E. by destruct (map Z.of_nat bl).
Qed.

Lemma resetSlide_blocks s bl :
  blocks s = Some bl ->
  resetSlide s = setCursor s 1 0 1.
Proof.
  intros H. unfold resetSlide, setCursor.
  destruct (blocks s); [done|discriminate].
Qed.




End Completeness.

(* ===================================================================== *)
(** * Code spans and the placeholder pass *)
(* ===================================================================== *)

Section CodeProtection.

Implicit Types (a b t pre post lang x y : string) (c : ascii).

Lemma splitSteps_marker_contents opts a b :
  allChars notLt a = true -> allChars notLt b = true ->
  trim a <> "" -> trim b <> "" ->
  map content (splitSteps opts (a +:+ "<!-- step -->" +:+ b)) = [a; b].
Proof.
  intros Ha Hb [Ea Eta]%trim_nonempty [Eb Etb]%trim_nonempty.
  unfold splitSteps.
  rewrite (scan_copy matchStep notLt) by (done || apply matchStep_needs_lt).
  rewrite (scan_hit matchStep _ _ "<!-- step -->" b (matchStep_plain b))
    by done.
  rewrite (scan_copy_all matchStep notLt) by (done || apply matchStep_needs_lt).
  rewrite pieces_one. cbn [fold_left]. unfold onMarker.
  rewrite Ea, Eta, Eb, Etb. cbn.
  by rewrite !decide_True by done.
Qed.

Lemma notTick_neq c : notTick c = true -> "`"%char <> c.
Proof. by intros H <-. Qed.

Lemma matchFence_needs_tick c s :
  notTick c = true -> matchFence (String c s) = None.
Proof.
  intros H. unfold matchFence.
  by rewrite stripPrefix_head by by apply notTick_neq.
Qed.

Lemma stripPrefix_fence_plain c s :
  notTick c = true -> stripPrefix "```" (String c s) = None.
Proof. intros H. by apply stripPrefix_head, notTick_neq. Qed.

Lemma findSub_fence code post :
  allChars notTick code = true ->
  findSub "```" (code +:+ "```" +:+ post) = Some (code, post).
Proof.
  intros Hc. induction code as [|c code IH].
  - rewrite findSub_unfold.
    change ("" +:+ "```" +:+ post) with ("```" +:+ post).
    by rewrite stripPrefix_app.
  - apply andb_true_iff in Hc as [Hx Hc]. rewrite (sapp_cons c code).
    rewrite findSub_unfold, stripPrefix_fence_plain by done.
    by rewrite IH.
Qed.

Lemma findSub_no_fence s :
  allChars notTick s = true -> findSub "```" s = None.
Proof.
  intros Hs. induction s as [|c s IH]; [done|].
  apply andb_true_iff in Hs as [Hc Hs].
  rewrite findSub_unfold, stripPrefix_fence_plain by done.
  by rewrite IH.
Qed.

Lemma matchFence_block lang code post :
  allChars isWord lang = true -> allChars notTick code = true ->
  matchFence ("```" +:+ lang +:+ nl +:+ code +:+ "```" +:+ post)
  = Some ((lang, code), post).
Proof.
  intros Hl Hc. unfold matchFence.
  rewrite stripPrefix_app. cbn [mbind option_bind].
  rewrite (span_app isWord lang) by done.
  rewrite stripPrefix_app. cbn [mbind option_bind].
  by rewrite findSub_fence.
Qed.

Lemma matchFence_open y :
  allChars notTick y = true -> matchFence ("```" +:+ y) = None.
Proof.
  intros Hy. unfold matchFence.
  rewrite stripPrefix_app. cbn [mbind option_bind].
  destruct (span isWord y) as [l r] eqn:E.
  apply span_spec in E as (-> & _ & _).
  rewrite allChars_app in Hy. apply andb_true_iff in Hy as [_ Hr].
  destruct (stripPrefix nl r) as [s3|] eqn:E3; [|done].
  apply stripPrefix_Some in E3 as ->.
  rewrite allChars_app in Hr. apply andb_true_iff in Hr as [_ Hr].
  cbn [mbind option_bind]. by rewrite findSub_no_fence.
Qed.

Lemma matchFence_two y :
  allChars notTick y = true -> matchFence ("``" +:+ y) = None.
Proof.
  intros Hy. unfold matchFence.
  destruct y as [|c y]; [done|].
  apply andb_true_iff in Hy as [Hc _].
  change ("``" +:+ String c y) with (String "`" (String "`" (String c y))).
  cbn [stripPrefix]. rewrite !Ascii.eqb_refl.
  destruct (Ascii.eqb_spec "`" c) as [<-|]; done.
Qed.

Lemma matchFence_one y :
  allChars notTick y = true -> matchFence ("`" +:+ y) = None.
Proof.
  intros Hy. unfold matchFence.
  destruct y as [|c y]; [done|].
  apply andb_true_iff in Hy as [Hc _].
  change ("`" +:+ String c y) with (String "`" (String c y)).
  cbn [stripPrefix]. rewrite !Ascii.eqb_refl.
  destruct (Ascii.eqb_spec "`" c) as [<-|]; done.
Qed.

Lemma protectSegs_copy a (l : list (segment (string * string))) n :
  protectSegs (map Lit (list_ascii_of_string a) ++ l)%list n
  = ((a +:+ (protectSegs l n).1), (protectSegs l n).2).
Proof.
  induction a as [|c a IH]; simpl; [by destruct (protectSegs l n)|].
  by rewrite IH.
Qed.

Lemma protectSegs_lits a n :
  protectSegs (map Lit (list_ascii_of_string a)) n = (a, []).
Proof.
  rewrite <- (app_nil_r (map Lit (list_ascii_of_string a))).
  rewrite protectSegs_copy. cbn [protectSegs fst snd]. by rewrite sapp_nil_r.
Qed.

Lemma protectHtml_block pre lang code post :
  allChars notTick pre = true -> allChars isWord lang = true ->
  allChars notTick code = true -> allChars notTick post = true ->
  protectHtml (pre +:+ "```" +:+ lang +:+ nl +:+ code +:+ "```" +:+ post)
  = (pre +:+ placeholder 0 +:+ post, [codeBlock lang code]).
Proof.
  intros Hpre Hl Hc Hpost. unfold protectHtml.
  rewrite (scan_copy matchFence notTick)
    by (done || apply matchFence_needs_tick).
  rewrite (scan_hit matchFence _ (lang, code)
             ("```" +:+ lang +:+ nl +:+ code +:+ "```") post).
  - rewrite (scan_copy_all matchFence notTick)
      by (done || apply matchFence_needs_tick).
    rewrite protectSegs_copy. cbn [protectSegs].
    rewrite protectSegs_lits. done.
  - by apply matchFence_block.
  - by rewrite !sapp_assoc.
  - done.
Qed.

Lemma protectHtml_open x y :
  allChars notTick x = true -> allChars notTick y = true ->
  protectHtml (x +:+ "```" +:+ y) = (x +:+ "```" +:+ y, []).
Proof.
  intros Hx Hy. unfold protectHtml.
  rewrite (scan_copy matchFence notTick)
    by (done || apply matchFence_needs_tick).
  pose proof (matchFence_open y Hy) as H3.
  pose proof (matchFence_two y Hy) as H2.
  pose proof (matchFence_one y Hy) as H1.
  change ("```" +:+ y) with (String "`" (String "`" (String "`" y))) in *.
  change ("``" +:+ y) with (String "`" (String "`" y)) in *.
  change ("`" +:+ y) with (String "`" y) in *.
  rewrite (scan_lit matchFence _ _ H3), (scan_lit matchFence _ _ H2),
    (scan_lit matchFence _ _ H1).
  rewrite (scan_copy_all matchFence notTick)
    by (done || apply matchFence_needs_tick).
  rewrite protectSegs_copy. cbn [protectSegs].
  rewrite protectSegs_lits. done.
Qed.




End CodeProtection.
